(** * Tix: a shallow embedding of the content-addressed build core

    The development follows the layout of the TypeScript sources:
    - [src/core/hash.ts]: Nix32 encoding, SHA-256, deterministic JSON,
      store path computation;
    - [src/core/types.ts]: derivations and derivation files;
    - [src/core/store.ts]: the on-disk store;
    - [src/core/derivation.ts]: hashDerivationModulo, instantiate, topoSort;
    - [src/core/build.ts]: realize and the two sandbox back ends.

    JavaScript strings are sequences of UTF-16 code units, buffers are
    sequences of bytes, objects are property lists in enumeration order,
    [Map]s and [Set]s keyed by object identity are finite maps and sets over
    heap references. *)

From Stdlib Require Import ZArith NArith List Ascii String Lia Permutation.
From Stdlib Require Import Sorting.Sorted DecimalString DecimalPos.
From stdpp Require Import base option list sorting gmap.
Import ListNotations.

#[local] Open Scope nat_scope.
#[local] Set Warnings "-register-all,-clear-no-such-hyp".

(* ===================================================================== *)
(** * JavaScript strings and buffers *)
(* ===================================================================== *)

(** A JavaScript string is its sequence of UTF-16 code units. *)
Abbreviation jsstring := (list N).

(** A [Buffer] is a sequence of bytes. *)
Abbreviation Buffer := (list Byte.byte).

(** Embedding of an ASCII literal. *)
Definition js (s : string) : jsstring :=
  map N_of_ascii (list_ascii_of_string s).
Arguments js : simpl never.

(** [xs.join(sep)]. *)
Fixpoint join (sep : jsstring) (xs : list jsstring) : jsstring :=
  match xs with
  | [] => []
  | [x] => x
  | x :: rest => x ++ sep ++ join sep rest
  end.

(** [s.startsWith(p)]. *)
Fixpoint startsWith (s p : jsstring) : bool :=
  match p, s with
  | [], _ => true
  | c :: p', d :: s' => (c =? d)%N && startsWith s' p'
  | _ :: _, [] => false
  end.

(** [s.includes(c)] for a single code unit. *)
Definition includes (s : jsstring) (c : N) : bool :=
  existsb (N.eqb c) s.

(** JavaScript truthiness of a string: only the empty string is falsy. *)
Definition truthy (s : jsstring) : bool :=
  match s with [] => false | _ => true end.

(** A byte of a buffer read as a number.  Reading past the end gives
    [undefined], which the shift operators coerce to 0. *)
Definition byteAt (b : Buffer) (i : nat) : N :=
  match b !! i with
  | Some x => Byte.to_N x
  | None => 0%N
  end.

Definition byte_of_N (n : N) : Byte.byte :=
  match Byte.of_N (n mod 256)%N with
  | Some b => b
  | None => Byte.x00
  end.

(* ===================================================================== *)
(** * hash.ts: Nix32 encoding *)
(* ===================================================================== *)

Module Nix32.

Definition NIX32_ALPHABET : jsstring := js "0123456789abcdfghijklmnpqrsvwxyz".

(** [Math.ceil(a / b)] on non-negative integers. *)
Definition ceil_div (a b : nat) : nat := (a + (b - 1)) / b.

(** The body of the loop up to the assignment: the 5-bit group [c] of
    iteration [n]. *)
Definition group (reversed : Buffer) (n : nat) : N :=
  let b := n * 5 in
  let i := b / 8 in
  let j := b mod 8 in
  let c := N.land (N.shiftr (byteAt reversed i) (N.of_nat j)) 0x1f in
  if bool_decide (i + 1 < length reversed) && bool_decide (3 < j)
  then N.lor c (N.land (N.shiftl (byteAt reversed (i + 1)) (N.of_nat (8 - j))) 0x1f)
  else c.

(** [NIX32_ALPHABET[c]]: a one-character string, or [undefined] (which
    [join] renders as the empty string) when [c] is out of range. *)
Definition alphabetAt (c : N) : jsstring :=
  match NIX32_ALPHABET !! N.to_nat c with
  | Some ch => [ch]
  | None => []
  end.

(** The [for] loop filling [chars], started from [new Array(len)]
    (empty slots are rendered by [join] as empty strings). *)
Definition fillChars (reversed : Buffer) (len : nat) : list jsstring :=
  foldl (fun chars n => <[len - 1 - n := alphabetAt (group reversed n)]> chars)
        (replicate len []) (seq 0 len).

Definition nix32Encode (bytes : Buffer) : jsstring :=
  if bool_decide (length bytes = 0) then []
  else
    let reversed := reverse bytes in
    let len := ceil_div (length reversed * 8) 5 in
    concat (fillChars reversed len).

(** The number whose little-endian base-256 digits are the bytes of [b]. *)
Fixpoint leValue (b : Buffer) : N :=
  match b with
  | [] => 0
  | x :: rest => Byte.to_N x + 256 * leValue rest
  end%N.

End Nix32.

(* ===================================================================== *)
(** * node:crypto and Buffer: SHA-256, UTF-8, hexadecimal *)
(* ===================================================================== *)

(** [Buffer.from(s, "utf8")], the bytes that [createHash(..).update(s)]
    digests for a string: surrogate pairs are combined, a lone surrogate is
    replaced by U+FFFD. *)
Module Utf8.

Definition isHigh (c : N) : bool := ((0xD800 <=? c) && (c <=? 0xDBFF))%N.
Definition isLow (c : N) : bool := ((0xDC00 <=? c) && (c <=? 0xDFFF))%N.

Definition cont (x : N) : Byte.byte := byte_of_N (N.lor 0x80 (N.land x 0x3f)).

Definition encodePoint (cp : N) : Buffer :=
  if (cp <? 0x80)%N then [byte_of_N cp]
  else if (cp <? 0x800)%N then
    [byte_of_N (N.lor 0xc0 (N.shiftr cp 6)); cont cp]
  else if (cp <? 0x10000)%N then
    [byte_of_N (N.lor 0xe0 (N.shiftr cp 12)); cont (N.shiftr cp 6); cont cp]
  else
    [byte_of_N (N.lor 0xf0 (N.shiftr cp 18)); cont (N.shiftr cp 12);
     cont (N.shiftr cp 6); cont cp].

Fixpoint encode (s : jsstring) : Buffer :=
  match s with
  | [] => []
  | c :: rest =>
      if isHigh c then
        match rest with
        | d :: rest' =>
            if isLow d
            then encodePoint (0x10000 + N.shiftl (c - 0xD800) 10 + (d - 0xDC00))
                   ++ encode rest'
            else encodePoint 0xFFFD ++ encode rest
        | [] => encodePoint 0xFFFD
        end
      else if isLow c then encodePoint 0xFFFD ++ encode rest
      else encodePoint c ++ encode rest
  end.

End Utf8.

(** [buf.toString("hex")]. *)
Module Hex.

Definition digit (n : N) : N :=
  if (n <? 10)%N then (48 + n)%N else (87 + n)%N.

Definition ofByte (b : Byte.byte) : jsstring :=
  let n := Byte.to_N b in [digit (n / 16)%N; digit (n mod 16)%N].

Definition encode (b : Buffer) : jsstring := concat (map ofByte b).

End Hex.

(** SHA-256 (FIPS 180-4), the algorithm behind [createHash("sha256")].
    The round constants and the initial state are derived as the standard
    prescribes: fractional parts of the cube roots, and of the square roots,
    of the first primes. *)
Module Sha256.

#[local] Open Scope N_scope.

Definition isPrime (n : nat) : bool :=
  (1 <? n)%nat && forallb (fun d => negb (n mod d =? 0)%nat) (seq 2 (n - 2)).

Definition primes : list N :=
  Eval vm_compute in map N.of_nat (take 64 (filter (fun n => isPrime n = true) (seq 2 310))).

(** Largest [r] with [r^3 <= x], built bit by bit from bit [bits - 1]. *)
Fixpoint cbrtBits (bits : nat) (x r : N) : N :=
  match bits with
  | O => r
  | S b =>
      let r' := r + 2 ^ N.of_nat b in
      cbrtBits b x (if r' * r' * r' <=? x then r' else r)
  end.

Definition word (x : N) : N := x mod 2 ^ 32.

Definition K : list N :=
  Eval vm_compute in map (fun p => word (cbrtBits 40 (p * 2 ^ 96) 0)) primes.

Definition H0 : list N :=
  Eval vm_compute in map (fun p => word (N.sqrt (p * 2 ^ 64))) (take 8 primes).

Definition add (x y : N) : N := word (x + y).
Definition rotr (n x : N) : N := N.lor (N.shiftr x n) (word (N.shiftl x (32 - n))).
Definition Ch (x y z : N) : N := N.lxor (N.land x y) (N.land (N.lxor x 0xffffffff) z).
Definition Maj (x y z : N) : N := N.lxor (N.lxor (N.land x y) (N.land x z)) (N.land y z).
Definition bigSigma0 (x : N) : N := N.lxor (N.lxor (rotr 2 x) (rotr 13 x)) (rotr 22 x).
Definition bigSigma1 (x : N) : N := N.lxor (N.lxor (rotr 6 x) (rotr 11 x)) (rotr 25 x).
Definition smallSigma0 (x : N) : N := N.lxor (N.lxor (rotr 7 x) (rotr 18 x)) (N.shiftr x 3).
Definition smallSigma1 (x : N) : N := N.lxor (N.lxor (rotr 17 x) (rotr 19 x)) (N.shiftr x 10).

(** Big-endian number of a byte sequence, and its inverse on [n] bytes. *)
Definition beValue (b : Buffer) : N :=
  foldl (fun acc x => acc * 256 + Byte.to_N x) 0 b.

Fixpoint beBytes (n : nat) (x : N) : Buffer :=
  match n with
  | O => []
  | S m => beBytes m (x / 256) ++ [byte_of_N x]
  end.

(** Padding: a 1 bit, zeros, and the 64-bit length, up to a multiple of 64
    bytes. *)
Definition pad (msg : Buffer) : Buffer :=
  let len := length msg in
  let zeros := ((119 - len mod 64) mod 64)%nat in
  msg ++ [Byte.x80] ++ replicate zeros Byte.x00 ++ beBytes 8 (N.of_nat len * 8).

Fixpoint chunks {A} (n : nat) (fuel : nat) (l : list A) : list (list A) :=
  match fuel with
  | O => []
  | S fuel' =>
      match l with
      | [] => []
      | _ => take n l :: chunks n fuel' (drop n l)
      end
  end.

(** The message schedule, most recent word first. *)
Fixpoint schedule (n : nat) (w : list N) : list N :=
  match n with
  | O => w
  | S m =>
      let at_ i := default 0 (w !! i) in
      schedule m
        (add (add (smallSigma1 (at_ 1%nat)) (at_ 6%nat))
             (add (smallSigma0 (at_ 14%nat)) (at_ 15%nat)) :: w)
  end.

Definition round (s : list N) (kw : N * N) : list N :=
  match s with
  | [a; b; c; d; e; f; g; h] =>
      let t1 := add (add (add h (bigSigma1 e)) (add (Ch e f g) kw.1)) kw.2 in
      let t2 := add (bigSigma0 a) (Maj a b c) in
      [add t1 t2; a; b; c; add d t1; e; f; g]
  | _ => s
  end.

Definition compress (H : list N) (block : Buffer) : list N :=
  let w16 := map beValue (chunks 4 16 block) in
  let w := reverse (schedule 48 (reverse w16)) in
  let s := foldl round H (zip K w) in
  zip_with add H s.

Definition digest (msg : Buffer) : Buffer :=
  let p := pad msg in
  let H := foldl compress H0 (chunks 64 (length p) p) in
  concat (map (beBytes 4) H).

End Sha256.

(** The argument of [update]: [string | Buffer]. *)
Inductive Data :=
| Str (s : jsstring)
| Buf (b : Buffer).

Definition dataBytes (d : Data) : Buffer :=
  match d with
  | Str s => Utf8.encode s
  | Buf b => b
  end.

Module Import HashTs.
Export Nix32.

Definition sha256 (data : Data) : Buffer := Sha256.digest (dataBytes data).

Definition sha256Hex (data : Data) : jsstring := Hex.encode (sha256 data).

(** [fullHash.subarray(0, 20)] then Nix32. *)
Definition sha256Truncated (data : Data) : jsstring :=
  let fullHash := sha256 data in
  let truncated := take 20 fullHash in
  nix32Encode truncated.

End HashTs.

(* ===================================================================== *)
(** * JavaScript values, objects and the built-ins the code relies on *)
(* ===================================================================== *)

Module Js.

(** JSON-shaped values.  A number is an integer; an object is the list of
    its own enumerable properties in enumeration order. *)
Inductive value :=
| JUndefined
| JNull
| JBool (b : bool)
| JNum (z : Z)
| JStr (s : jsstring)
| JArr (items : list value)
| JObj (props : list (jsstring * value)).

Abbreviation props := (list (jsstring * value)).

(** ** Comparison of strings by code units (the order of [<] on strings and
       of [sort()] without a comparator) *)

Fixpoint strLtb (a b : jsstring) : bool :=
  match a, b with
  | [], [] => false
  | [], _ :: _ => true
  | _ :: _, [] => false
  | x :: a', y :: b' => (x <? y)%N || ((x =? y)%N && strLtb a' b')
  end.

Definition strLeb (a b : jsstring) : bool := negb (strLtb b a).

Definition strEqb (a b : jsstring) : bool := bool_decide (a = b).

(** The order [a <= b] of strings. *)
Definition strLe (a b : jsstring) : Prop := strLeb a b = true.

#[export] Instance strLe_dec : RelDecision strLe :=
  fun a b => decide (strLeb a b = true).

(** [keys.sort()]: a merge sort into ascending order of code-unit
    sequences. *)
Definition sort (keys : list jsstring) : list jsstring :=
  merge_sort strLe keys.

(** ** Property keys *)

Definition isDigit (c : N) : bool := ((48 <=? c) && (c <=? 57))%N.

Definition digitsValue (s : jsstring) : N :=
  foldl (fun acc c => acc * 10 + (c - 48))%N 0%N s.

(** A key is an array index when it is the canonical decimal form of an
    integer in [0, 2^32 - 2]; such keys are enumerated first, in numeric
    order. *)
Definition arrayIndex (k : jsstring) : option N :=
  match k with
  | [] => None
  | c :: rest =>
      if forallb isDigit k
         && (negb (c =? 48)%N || bool_decide (rest = []))
         && bool_decide (length k <= 10)
         && (digitsValue k <=? 4294967294)%N
      then Some (digitsValue k)
      else None
  end.

Definition protoKey : jsstring := js "__proto__".

(** ** Ordinary objects *)

Section Objects.
Context {V : Type}.

Definition hasOwn (o : list (jsstring * V)) (k : jsstring) : bool :=
  existsb (fun p => strEqb p.1 k) o.

(** The own property [k], if there is one. *)
Fixpoint getOwn (o : list (jsstring * V)) (k : jsstring) : option V :=
  match o with
  | [] => None
  | (k', v) :: rest => if strEqb k' k then Some v else getOwn rest k
  end.

Fixpoint replaceProp (o : list (jsstring * V)) (k : jsstring) (v : V)
  : list (jsstring * V) :=
  match o with
  | [] => []
  | (k', v') :: rest =>
      if strEqb k' k then (k, v) :: rest else (k', v') :: replaceProp rest k v
  end.

(** Position of a new array-index key [n]: after the smaller indices. *)
Fixpoint insertIndex (o : list (jsstring * V)) (n : N) (k : jsstring) (v : V)
  : list (jsstring * V) :=
  match o with
  | [] => [(k, v)]
  | (k', v') :: rest =>
      match arrayIndex k' with
      | Some m => if (m <? n)%N then (k', v') :: insertIndex rest n k v
                  else (k, v) :: o
      | None => (k, v) :: o
      end
  end.

(** CreateDataProperty, as used by object literals, spread and
    [Object.fromEntries]: an existing key keeps its place, a new array
    index goes among the indices, any other new key goes last. *)
Definition defineProp (o : list (jsstring * V)) (k : jsstring) (v : V)
  : list (jsstring * V) :=
  if hasOwn o k then replaceProp o k v
  else match arrayIndex k with
       | Some n => insertIndex o n k v
       | None => o ++ [(k, v)]
       end.

(** The assignment [o[k] = v] on an object created by [{}]: as
    [defineProp], except that [__proto__], unless it is an own property,
    reaches the accessor of [Object.prototype] and creates no property. *)
Definition setProp (o : list (jsstring * V)) (k : jsstring) (v : V)
  : list (jsstring * V) :=
  if strEqb k protoKey && negb (hasOwn o k) then o
  else defineProp o k v.

(** [Object.keys(o)]. *)
Definition keys (o : list (jsstring * V)) : list jsstring := map fst o.

(** [{...target, ...source}] and [Object.fromEntries(source)] onto [target]. *)
Definition spread (target source : list (jsstring * V)) : list (jsstring * V) :=
  foldl (fun acc p => defineProp acc p.1 p.2) target source.

End Objects.

(** [o[k]] for an own property; [undefined] when absent. *)
Definition getProp (o : props) (k : jsstring) : value :=
  default JUndefined (getOwn o k).

(** ** JSON.stringify *)

Definition decimal (z : Z) : jsstring :=
  match z with
  | Z0 => js "0"
  | Zpos p => js (NilEmpty.string_of_uint (Pos.to_uint p))
  | Zneg p => js "-" ++ js (NilEmpty.string_of_uint (Pos.to_uint p))
  end.

Definition hex4 (c : N) : jsstring :=
  [Hex.digit (c / 4096 mod 16); Hex.digit (c / 256 mod 16);
   Hex.digit (c / 16 mod 16); Hex.digit (c mod 16)]%N.

Definition escapeUnit (c : N) : jsstring :=
  if (c =? 8)%N then js "\b"
  else if (c =? 9)%N then js "\t"
  else if (c =? 10)%N then js "\n"
  else if (c =? 12)%N then js "\f"
  else if (c =? 13)%N then js "\r"
  else if (c =? 34)%N then [92; 34]%N
  else if (c =? 92)%N then [92; 92]%N
  else if (c <? 32)%N then js "\u" ++ hex4 c
  else [c].

Fixpoint quoteBody (s : jsstring) : jsstring :=
  match s with
  | [] => []
  | c :: rest =>
      if Utf8.isHigh c then
        match rest with
        | d :: rest' =>
            if Utf8.isLow d then c :: d :: quoteBody rest'
            else js "\u" ++ hex4 c ++ quoteBody rest
        | [] => js "\u" ++ hex4 c
        end
      else if Utf8.isLow c then js "\u" ++ hex4 c ++ quoteBody rest
      else escapeUnit c ++ quoteBody rest
  end.

(** QuoteJSONString. *)
Definition quote (s : jsstring) : jsstring := [34%N] ++ quoteBody s ++ [34%N].

(** SerializeJSONProperty with a replacer function and no indentation.
    The outer [option] is the recursion bound; the inner one is
    [undefined], the result for values that JSON leaves out. *)
Fixpoint serialize (fuel : nat) (replacer : value -> value) (v : value)
  : option (option jsstring) :=
  match fuel with
  | O => None
  | S fuel' =>
      match replacer v with
      | JUndefined => Some None
      | JNull => Some (Some (js "null"))
      | JBool true => Some (Some (js "true"))
      | JBool false => Some (Some (js "false"))
      | JNum z => Some (Some (decimal z))
      | JStr s => Some (Some (quote s))
      | JArr items =>
          rendered ← mapM (serialize fuel' replacer) items;
          Some (Some (js "[" ++ join (js ",") (map (default (js "null")) rendered)
                        ++ js "]"))
      | JObj o =>
          rendered ← mapM (fun p => r ← serialize fuel' replacer p.2;
                                    Some (p.1, r)) o;
          Some (Some (js "{" ++
                      join (js ",")
                        (omap (fun p => s ← p.2; Some (quote p.1 ++ js ":" ++ s))
                              rendered)
                      ++ js "}"))
      end
  end.

(** Nesting depth, the recursion depth [JSON.stringify] needs. *)
Fixpoint height (v : value) : nat :=
  match v with
  | JArr items => S (foldr (fun x h => Nat.max (height x) h) 0 items)
  | JObj o => S (foldr (fun p h => Nat.max (height p.2) h) 0 o)
  | _ => 1
  end.

End Js.

Module Import HashJson.
Import Js.

(** The replacer of [stableStringify]: a non-array object is replaced by a
    copy whose keys were inserted in sorted order. *)
Definition replacer (val : value) : value :=
  match val with
  | JObj o =>
      JObj (foldl (fun sorted key => setProp sorted key (getProp o key))
                  [] (sort (keys o)))
  | _ => val
  end.

(** [JSON.stringify(obj, replacer)]; [None] is [undefined]. *)
Definition stableStringify (obj : value) : option jsstring :=
  default None (serialize (height obj) replacer obj).

End HashJson.

(* ===================================================================== *)
(** * hash.ts: store path computation *)
(* ===================================================================== *)

Module Import HashPaths.

(** [`${type}:sha256:${innerDigest}:${storeDir}:${name}`], hashed,
    truncated and appended to the store directory. *)
Definition computeStorePath (type innerDigest storeDir name : jsstring) : jsstring :=
  let fingerprint :=
    type ++ js ":sha256:" ++ innerDigest ++ js ":" ++ storeDir ++ js ":" ++ name in
  let digest := sha256Truncated (Str fingerprint) in
  storeDir ++ js "/" ++ digest ++ js "-" ++ name.

Definition computeOutputPath (drvHashHex storeDir name : jsstring) : jsstring :=
  computeStorePath (js "output:out") drvHashHex storeDir name.

Definition computeSourcePath (contentHash storeDir name : jsstring) : jsstring :=
  computeStorePath (js "source") contentHash storeDir name.

Definition computeFixedOutputPath (contentHash hashMode storeDir name : jsstring)
  : jsstring :=
  let modePrefix := if bool_decide (hashMode = js "recursive") then js "r:" else [] in
  let innerFingerprint :=
    js "fixed:out:" ++ modePrefix ++ js "sha256:" ++ contentHash ++ js ":" in
  let innerDigest := sha256Hex (Str innerFingerprint) in
  computeStorePath (js "output:out") innerDigest storeDir name.

End HashPaths.

(* ===================================================================== *)
(** * types.ts *)
(* ===================================================================== *)

Module Import Types.

(** Object identity of a [Derivation]: its address in the heap. *)
Abbreviation ref := nat.

Inductive Source :=
| SrcPath (path : jsstring)
| SrcFixed (url hash hashAlgo : jsstring).

(** The user-facing derivation; optional fields are [option]s, the
    [inputs] array holds references to other derivation objects. *)
Record Derivation := {
  name : jsstring;
  system : option jsstring;
  builder : jsstring;
  args : option (list jsstring);
  env : option (list (jsstring * jsstring));
  inputs : option (list ref);
  src : option Source;
  outputHash : option jsstring;
  outputHashAlgo : option jsstring;
  outputHashMode : option jsstring;
}.

(** The objects a program has built: every reference denotes one. *)
Abbreviation Heap := (ref -> Derivation).

(** The derivation file kept in the store. *)
Record DrvFile := {
  outputs_out_path : jsstring;
  inputDrvs : list (jsstring * list jsstring);
  inputSrcs : list jsstring;
  drv_system : jsstring;
  drv_builder : jsstring;
  drv_args : list jsstring;
  drv_env : list (jsstring * jsstring);
}.

(** [process.arch], [process.platform] and [os.tmpdir()]. *)
Record Process := { arch : jsstring; platform : jsstring; tmpdir : jsstring }.

Definition currentSystem (process : Process) : jsstring :=
  let arch := if bool_decide (arch process = js "arm64") then js "aarch64" else js "x86_64" in
  let os := if bool_decide (platform process = js "darwin") then js "darwin" else js "linux" in
  arch ++ js "-" ++ os.

Definition DEFAULT_STORE_DIR : jsstring := js "/tix/store".

(** What a call can throw: [new Error(message)], the validation error, a
    failed file-system call, the [SyntaxError] of [JSON.parse], a
    [TypeError]. *)
Inductive exn :=
| Error (message : jsstring)
| ValidationError (message : jsstring)
| SystemError (code : string) (path : jsstring)
| SyntaxError
| TypeError.

(** Outcome of a call; [Exhausted] is a recursion that went beyond the
    bound given to the model. *)
Inductive outcome (A : Type) :=
| Ok (a : A)
| Throw (e : exn)
| Exhausted.
Arguments Ok {A} a.
Arguments Throw {A} e.
Arguments Exhausted {A}.

(** Modelled from the spec: [validateDerivation] of types.ts is imported
    by derivation.ts but its body is not part of the sources at hand.
    "Validate drv: name non-empty and contains no / or NUL; builder
    non-empty; if fixed-output, outputHashAlgo == sha256". *)
Definition validateDerivation (drv : Derivation) : outcome unit :=
  if negb (truthy (name drv)) then Throw (ValidationError (js "empty name"))
  else if includes (name drv) 47 || includes (name drv) 0
  then Throw (ValidationError (js "bad characters in name"))
  else if negb (truthy (builder drv)) then Throw (ValidationError (js "empty builder"))
  else match outputHash drv with
       | Some _ =>
           if bool_decide (outputHashAlgo drv = Some (js "sha256")) then Ok tt
           else Throw (ValidationError (js "unsupported outputHashAlgo"))
       | None => Ok tt
       end.

End Types.

(* ===================================================================== *)
(** * Calls that change state and may throw *)
(* ===================================================================== *)

Module Import Effects.

(** A computation over a state [S]; the state survives a throw. *)
Definition ST (S A : Type) : Type := S -> outcome A * S.

#[export] Instance ST_ret {S} : MRet (ST S) := fun A a s => (Ok a, s).

#[export] Instance ST_bind {S} : MBind (ST S) := fun A B f m s =>
  match m s with
  | (Ok a, s') => f a s'
  | (Throw e, s') => (Throw e, s')
  | (Exhausted, s') => (Exhausted, s')
  end.

Definition throw {S A} (e : exn) : ST S A := fun s => (Throw e, s).
Definition exhausted {S A} : ST S A := fun s => (Exhausted, s).
Definition lift {S A} (o : outcome A) : ST S A := fun s => (o, s).
Definition get {S} : ST S S := fun s => (Ok s, s).
Definition modify {S} (f : S -> S) : ST S unit := fun s => (Ok tt, f s).

(** [try { body } finally { cleanup }] with a cleanup that cannot throw. *)
Definition finally {S A} (body : ST S A) (cleanup : ST S unit) : ST S A := fun s =>
  let '(r, s1) := body s in
  let '(_, s2) := cleanup s1 in
  (r, s2).

(** [for (const x of xs) body(x)]. *)
Fixpoint forEach {S A} (xs : list A) (body : A -> ST S unit) : ST S unit :=
  match xs with
  | [] => mret tt
  | x :: rest => body x ≫= fun _ => forEach rest body
  end.

(** A [for] loop that builds up a local value. *)
Fixpoint foldM {S A B} (body : B -> A -> ST S B) (acc : B) (xs : list A) : ST S B :=
  match xs with
  | [] => mret acc
  | x :: rest => body acc x ≫= fun acc' => foldM body acc' rest
  end.

(** A computation on one component of a pair of states. *)
Definition onFst {S T A} (m : ST S A) : ST (S * T) A := fun st =>
  let '(r, s') := m st.1 in (r, (s', st.2)).

Definition onSnd {S T A} (m : ST T A) : ST (S * T) A := fun st =>
  let '(r, t') := m st.2 in (r, (st.1, t')).

End Effects.

(* ===================================================================== *)
(** * node:fs, as far as the store and the builds use it *)
(* ===================================================================== *)

Module Import Fs.
Import Js.

(** What a file holds: raw data, or the text [JSON.stringify(drv, null, 2)]
    of a derivation file, kept as the value that [JSON.parse] gives back. *)
Inductive Content :=
| Raw (d : Data)
| Json (d : DrvFile).

Inductive Node :=
| File (content : Content) (mode : N)
| Dir (entries : list (jsstring * Node)) (mode : N).

(** The disk: the tree found at each path the code names (store entries,
    scratch directories, local sources).  Paths are whole names, none lies
    below another; [tick] numbers the temporary directories handed out so
    far. *)
Record World := {
  disk : gmap jsstring Node;
  tick : nat;
}.

Definition setDisk (d : gmap jsstring Node) (w : World) : World :=
  {| disk := d; tick := tick w |}.

(** Computations on the world. *)
Abbreviation M := (ST World).

Definition modifyDisk (f : gmap jsstring Node -> gmap jsstring Node) : M unit :=
  modify (fun w => setDisk (f (disk w)) w).

Definition existsSync (path : jsstring) : M bool :=
  fun w => (Ok (bool_decide (is_Some (disk w !! path))), w).

(** [path.join(a, b)] for a directory and a plain name. *)
Definition pathJoin (a b : jsstring) : jsstring := a ++ js "/" ++ b.

(** [path.basename]. *)
Fixpoint basename (p : jsstring) : jsstring :=
  match p with
  | [] => []
  | c :: rest => if includes rest 47 then basename rest
                 else if (c =? 47)%N then rest else p
  end.

(** ** JSON.stringify(value, null, 2), the text of a derivation file *)

Fixpoint pretty (indent : jsstring) (v : value) : option jsstring :=
  let inner := indent ++ js "  " in
  let block (open close : jsstring) (parts : list jsstring) :=
    match parts with
    | [] => open ++ close
    | _ => open ++ [10%N] ++ inner ++ join (js "," ++ [10%N] ++ inner) parts
             ++ [10%N] ++ indent ++ close
    end in
  match v with
  | JUndefined => None
  | JNull => Some (js "null")
  | JBool true => Some (js "true")
  | JBool false => Some (js "false")
  | JNum z => Some (decimal z)
  | JStr s => Some (quote s)
  | JArr items =>
      Some (block (js "[") (js "]")
              ((fix each (l : list value) :=
                  match l with
                  | [] => []
                  | x :: rest => default (js "null") (pretty inner x) :: each rest
                  end) items))
  | JObj o =>
      Some (block (js "{") (js "}")
              ((fix each (l : list (jsstring * value)) :=
                  match l with
                  | [] => []
                  | (k, x) :: rest =>
                      match pretty inner x with
                      | Some s => (quote k ++ js ": " ++ s) :: each rest
                      | None => each rest
                      end
                  end) o))
  end.

Definition strings (l : list jsstring) : value := JArr (map JStr l).

Definition record (l : list (jsstring * jsstring)) : value :=
  JObj (map (fun p => (p.1, JStr p.2)) l).

(** A [DrvFile] as the object literal that [instantiate] builds. *)
Definition drvFileValue (d : DrvFile) : value :=
  JObj [
    (js "outputs", JObj [(js "out", JObj [(js "path", JStr (outputs_out_path d))])]);
    (js "inputDrvs", JObj (map (fun p => (p.1, strings p.2)) (inputDrvs d)));
    (js "inputSrcs", strings (inputSrcs d));
    (js "system", JStr (drv_system d));
    (js "builder", JStr (drv_builder d));
    (js "args", strings (drv_args d));
    (js "env", record (drv_env d))
  ].

Definition contentBytes (c : Content) : Buffer :=
  match c with
  | Raw d => dataBytes d
  | Json d => Utf8.encode (default [] (pretty [] (drvFileValue d)))
  end.

(** ** File-system calls *)

(** Permission bits: 0o444, 0o555, 0o644, 0o700, 0o755. *)
Definition mode444 : N := 4 * 64 + 4 * 8 + 4.
Definition mode555 : N := 5 * 64 + 5 * 8 + 5.
Definition mode644 : N := 6 * 64 + 4 * 8 + 4.
Definition mode700 : N := 7 * 64.
Definition mode755 : N := 7 * 64 + 5 * 8 + 5.

(** [readFileSync(path)]. *)
Definition readFileSync (path : jsstring) : M Buffer := fun w =>
  match disk w !! path with
  | Some (File c _) => (Ok (contentBytes c), w)
  | Some (Dir _ _) => (Throw (SystemError "EISDIR" path), w)
  | None => (Throw (SystemError "ENOENT" path), w)
  end.

(** [JSON.parse(readFileSync(path, "utf-8"))]: a file written by [addDrv]
    parses to the object it was written from; other content is not JSON
    of a derivation file. *)
Definition readJson (path : jsstring) : M DrvFile := fun w =>
  match disk w !! path with
  | Some (File (Json d) _) => (Ok d, w)
  | Some (File (Raw _) _) => (Throw SyntaxError, w)
  | Some (Dir _ _) => (Throw (SystemError "EISDIR" path), w)
  | None => (Throw (SystemError "ENOENT" path), w)
  end.

(** [mkdirSync(path, { recursive: true })]. *)
Definition mkdirSync (path : jsstring) (mode : N) : M unit := fun w =>
  match disk w !! path with
  | Some (Dir _ _) => (Ok tt, w)
  | Some (File _ _) => (Throw (SystemError "EEXIST" path), w)
  | None => (Ok tt, setDisk (<[path := Dir [] mode]> (disk w)) w)
  end.

Definition sixDigits (n : nat) : jsstring :=
  map (fun k => (48 + N.of_nat (n / 10 ^ k mod 10))%N) [5; 4; 3; 2; 1; 0].

(** [mkdtempSync(prefix)]: a new directory whose name ends in six
    characters not used before. *)
Definition mkdtempSync (prefix : jsstring) : M jsstring := fun w =>
  let path := prefix ++ sixDigits (tick w) in
  let w' := {| disk := disk w; tick := S (tick w) |} in
  match disk w !! path with
  | Some _ => (Throw (SystemError "EEXIST" path), w')
  | None => (Ok path, setDisk (<[path := Dir [] mode700]> (disk w')) w')
  end.

(** [writeFileSync(join(dir, name), content)]. *)
Definition writeFileSync (dir name : jsstring) (content : Content) : M unit := fun w =>
  match disk w !! dir with
  | Some (Dir entries mode) =>
      let entries' :=
        filter (fun e => e.1 ≠ name) entries ++ [(name, File content mode644)] in
      (Ok tt, setDisk (<[dir := Dir entries' mode]> (disk w)) w)
  | Some (File _ _) => (Throw (SystemError "ENOTDIR" (pathJoin dir name)), w)
  | None => (Throw (SystemError "ENOENT" (pathJoin dir name)), w)
  end.

Definition chmodNode (mode : N) (n : Node) : Node :=
  match n with
  | File c _ => File c mode
  | Dir es _ => Dir es mode
  end.

Fixpoint entry (entries : list (jsstring * Node)) (name : jsstring) : option Node :=
  match entries with
  | [] => None
  | (k, n) :: rest => if bool_decide (k = name) then Some n else entry rest name
  end.

(** [chmodSync(join(dir, name), mode)]. *)
Definition chmodSyncIn (dir name : jsstring) (mode : N) : M unit := fun w =>
  match disk w !! dir with
  | Some (Dir entries dmode) =>
      match entry entries name with
      | Some _ =>
          let entries' :=
            map (fun e => if bool_decide (e.1 = name) then (e.1, chmodNode mode e.2) else e)
                entries in
          (Ok tt, setDisk (<[dir := Dir entries' dmode]> (disk w)) w)
      | None => (Throw (SystemError "ENOENT" (pathJoin dir name)), w)
      end
  | _ => (Throw (SystemError "ENOENT" (pathJoin dir name)), w)
  end.

(** Whether [rename] may put [node] at a path that now holds [target]. *)
Definition renameCheck (node : Node) (target : option Node) (path : jsstring)
  : outcome unit :=
  match node, target with
  | _, None => Ok tt
  | File _ _, Some (File _ _) => Ok tt
  | File _ _, Some (Dir _ _) => Throw (SystemError "EISDIR" path)
  | Dir _ _, Some (File _ _) => Throw (SystemError "ENOTDIR" path)
  | Dir _ _, Some (Dir [] _) => Ok tt
  | Dir _ _, Some (Dir (_ :: _) _) => Throw (SystemError "ENOTEMPTY" path)
  end.

(** [renameSync(join(dir, name), dst)]. *)
Definition renameSyncFrom (dir name dst : jsstring) : M unit := fun w =>
  match disk w !! dir with
  | Some (Dir entries dmode) =>
      match entry entries name with
      | Some node =>
          match renameCheck node (disk w !! dst) dst with
          | Ok _ =>
              let entries' := filter (fun e => e.1 ≠ name) entries in
              (Ok tt, setDisk (<[dst := node]> (<[dir := Dir entries' dmode]> (disk w))) w)
          | Throw e => (Throw e, w)
          | Exhausted => (Exhausted, w)
          end
      | None => (Throw (SystemError "ENOENT" (pathJoin dir name)), w)
      end
  | _ => (Throw (SystemError "ENOENT" (pathJoin dir name)), w)
  end.

(** [renameSync(src, dst)]; renaming a path to itself does nothing. *)
Definition renameSync (src dst : jsstring) : M unit := fun w =>
  match disk w !! src with
  | Some node =>
      if bool_decide (src = dst) then (Ok tt, w)
      else match renameCheck node (disk w !! dst) dst with
           | Ok _ => (Ok tt, setDisk (<[dst := node]> (delete src (disk w))) w)
           | Throw e => (Throw e, w)
           | Exhausted => (Exhausted, w)
           end
  | None => (Throw (SystemError "ENOENT" src), w)
  end.

(** [rmSync(path, { recursive: true, force: true })]. *)
Definition rmSync (path : jsstring) : M unit := modifyDisk (delete path).

End Fs.

(* ===================================================================== *)
(** * store.ts *)
(* ===================================================================== *)

Module Import StoreTs.

Record Store := { dir : jsstring }.

Definition ensureDir (this : Store) : M unit :=
  present ← existsSync (dir this);
  if negb present then mkdirSync (dir this) mode755 else mret tt.

(** [new Store(config)]. *)
Definition newStore (storeDir : option jsstring) : M Store :=
  let this := {| dir := default (js "/tix/store") storeDir |} in
  ensureDir this ≫= fun _ => mret this.

Definition has (this : Store) (path : jsstring) : M bool := existsSync path.


Definition readDrv (this : Store) (path : jsstring) : M DrvFile := readJson path.

(** Write to a temporary file, make it read-only, rename it to the final
    path; the temporary directory is removed whatever happens. *)
Definition atomicWrite (this : Store) (storePath : jsstring) (content : Content)
  : M unit :=
  tempDir ← mkdtempSync (pathJoin (dir this) (js ".tmp-"));
  finally
    (writeFileSync tempDir (js "content") content ≫= fun _ =>
     chmodSyncIn tempDir (js "content") mode444 ≫= fun _ =>
     renameSyncFrom tempDir (js "content") storePath)
    (rmSync tempDir).

Definition addSource (this : Store) (localPath : jsstring) (name : option jsstring)
  : M jsstring :=
  content ← readFileSync localPath;
  let contentHash := sha256Hex (Buf content) in
  let finalName := default (basename localPath) name in
  let storePath := computeSourcePath contentHash (dir this) finalName in
  present ← has this storePath;
  (if negb present then atomicWrite this storePath (Raw (Buf content)) else mret tt)
  ≫= fun _ => mret storePath.

Definition addWithPath (this : Store) (storePath : jsstring) (content : Content)
  : M unit :=
  present ← has this storePath;
  if negb present then atomicWrite this storePath content else mret tt.

(** [content] is [JSON.stringify(drv, null, 2)]. *)
Definition addDrv (this : Store) (drvPath : jsstring) (drv : DrvFile) : M unit :=
  let content := Json drv in
  addWithPath this drvPath content.

(** The tree below [path] after [makeImmutable(path)]: files 0o444,
    directories 0o555, children first. *)
Fixpoint immutable (n : Node) : Node :=
  match n with
  | Dir entries _ =>
      Dir ((fix each (l : list (jsstring * Node)) :=
              match l with
              | [] => []
              | (k, x) :: rest => (k, immutable x) :: each rest
              end) entries) mode555
  | File c _ => File c mode444
  end.

(** [statSync(path)] throws when nothing is there. *)
Definition makeImmutable (this : Store) (path : jsstring) : M unit := fun w =>
  match disk w !! path with
  | Some n => (Ok tt, setDisk (<[path := immutable n]> (disk w)) w)
  | None => (Throw (SystemError "ENOENT" path), w)
  end.

Definition registerOutput (this : Store) (tempPath storePath : jsstring) : M unit :=
  present ← has this storePath;
  if (present : bool) then
    (* Already exists, just clean up temp *)
    rmSync tempPath
  else
    makeImmutable this tempPath ≫= fun _ =>
    renameSync tempPath storePath.

End StoreTs.

(* ===================================================================== *)
(** * derivation.ts *)
(* ===================================================================== *)

Module Import DerivationTs.
Import Js.

(** [{ drvPath, outPath }]. *)
Record Paths := { drvPath : jsstring; outPath : jsstring }.

(** Truthiness of an optional string: [undefined] and [""] are falsy. *)
Definition truthyOpt (s : option jsstring) : bool :=
  match s with
  | Some x => truthy x
  | None => false
  end.

(** The inner fingerprint of a fixed-output derivation. *)
Definition fixedFingerprint (mode outputHash : jsstring) : jsstring :=
  js "fixed:out:" ++ (if bool_decide (mode = js "recursive") then js "r:" else [])
    ++ js "sha256:" ++ outputHash ++ js ":".

(** The state of [instantiate]: the disk and the [cache] map. *)
Abbreviation InstState := (World * gmap ref Paths)%type.

Section WithProgram.

(** The host and the derivation objects of the running program. *)
Variable process : Process.
Variable heap : Heap.

(** The record that is hashed for a regular derivation. *)
Definition toHash (d : Derivation) (inputHashes : props) : value :=
  JObj [
    (js "name", JStr (name d));
    (js "system", JStr (default (currentSystem process) (system d)));
    (js "builder", JStr (builder d));
    (js "args", strings (default [] (args d)));
    (js "env", record (default [] (env d)));
    (js "inputs", JObj inputHashes);
    (js "outputs", JObj [(js "out", JStr [])]);
    (js "src", match src d with
               | Some (SrcPath path) => JStr path
               | Some (SrcFixed _ hash _) => JStr hash
               | None => JUndefined
               end)
  ].

Fixpoint hashDerivationModulo (fuel : nat) (drv : ref) (storeDir : jsstring)
  : ST (gmap ref jsstring) jsstring :=
  match fuel with
  | O => exhausted
  | S fuel' =>
      cache ← get;
      if truthyOpt (cache !! drv) then mret (default [] (cache !! drv))
      else
        let d := heap drv in
        if truthyOpt (outputHash d) then
          let mode := default (js "flat") (outputHashMode d) in
          let innerFingerprint := fixedFingerprint mode (default [] (outputHash d)) in
          let hash := sha256Hex (Str innerFingerprint) in
          modify <[drv := hash]> ≫= fun _ => mret hash
        else
          inputHashes ←
            foldM (fun inputHashes input =>
                     inputHash ← hashDerivationModulo fuel' input storeDir;
                     mret (setProp inputHashes inputHash (strings [js "out"])))
                  [] (default [] (inputs d));
          match stableStringify (toHash d inputHashes) with
          | Some text =>
              let hash := sha256Hex (Str text) in
              modify <[drv := hash]> ≫= fun _ => mret hash
          | None => throw TypeError
          end
  end.

(** [inputResults.set(input, result)] on a [Map] kept in insertion order. *)
Fixpoint mapSet (m : list (ref * Paths)) (k : ref) (v : Paths) : list (ref * Paths) :=
  match m with
  | [] => [(k, v)]
  | (k', v') :: rest =>
      if bool_decide (k' = k) then (k, v) :: rest else (k', v') :: mapSet rest k v
  end.

(** The [env] of the derivation file: the user's bindings overlaid by the
    standard ones and by [input<i>]. *)
Definition drvEnv (d : Derivation) (out system storeDir : jsstring)
    (inputResults : list (ref * Paths)) : list (jsstring * jsstring) :=
  let e := spread [] (default [] (env d)) in
  let e := defineProp e (js "out") out in
  let e := defineProp e (js "name") (name d) in
  let e := defineProp e (js "system") system in
  let e := defineProp e (js "PATH") (js "/path-not-set") in
  let e := defineProp e (js "HOME") (js "/homeless-shelter") in
  let e := defineProp e (js "NIX_STORE") storeDir in
  spread e
    (spread []
       (imap (fun i r => (js "input" ++ decimal (Z.of_nat i), outPath r))
             (map snd inputResults))).

Fixpoint instantiate (fuel : nat) (store : Store) (drv : ref) : ST InstState Paths :=
  match fuel with
  | O => exhausted
  | S fuel' =>
      let d := heap drv in
      (* Validate the derivation *)
      lift (validateDerivation d) ≫= fun _ =>
      (* Check cache *)
      cache ← onSnd get;
      match cache !! drv with
      | Some cached => mret cached
      | None =>
          let storeDir := dir store in
          let system := default (currentSystem process) (system d) in
          (* First, instantiate all inputs (recursive, depth-first) *)
          inputResults ←
            foldM (fun inputResults input =>
                     result ← instantiate fuel' store input;
                     mret (mapSet inputResults input result))
                  [] (default [] (inputs d));
          (* Compute the derivation hash *)
          drvHash ← lift (hashDerivationModulo fuel drv storeDir ∅).1;
          (* Compute output path *)
          let out :=
            if truthyOpt (outputHash d) then
              computeFixedOutputPath (default [] (outputHash d))
                (default (js "flat") (outputHashMode d)) storeDir (name d)
            else computeOutputPath drvHash storeDir (name d) in
          (* Compute derivation path (always input-addressed) *)
          let drvP := computeOutputPath drvHash storeDir (name d) ++ js ".drv" in
          (* Add source to store if present *)
          inputSrcs ←
            match src d with
            | Some (SrcPath path) =>
                srcPath ← onFst (addSource store path None); mret [srcPath]
            | _ => mret []
            end;
          (* Handle builder path *)
          resolved ←
            (if startsWith (builder d) (js "/") then mret (builder d, inputSrcs)
             else if startsWith (builder d) storeDir then mret (builder d, inputSrcs)
             else
               builderPath ← onFst (addSource store (builder d)
                                      (Some (name d ++ js "-builder")));
               mret (builderPath, inputSrcs ++ [builderPath]));
          (* Build the DrvFile *)
          let inputDrvs :=
            foldl (fun inputDrvs entry => setProp inputDrvs (drvPath entry.2) [js "out"])
                  [] inputResults in
          let drvFile := {|
            outputs_out_path := out;
            inputDrvs := inputDrvs;
            inputSrcs := resolved.2;
            drv_system := system;
            drv_builder := resolved.1;
            drv_args := default [] (args d);
            drv_env := drvEnv d out system storeDir inputResults;
          |} in
          (* Write the .drv to store *)
          onFst (addDrv store drvP drvFile) ≫= fun _ =>
          let result := {| drvPath := drvP; outPath := out |} in
          onSnd (modify <[drv := result]>) ≫= fun _ =>
          mret result
      end
  end.

(** ** Dependency graph utilities *)

(** The local variables of [topoSort] that [visit] closes over. *)
Record TopoState := {
  result : list ref;
  visited : gset ref;
  path : list ref;
}.

(** [path.indexOf(drv)]; [None] is -1. *)
Fixpoint indexOf (l : list ref) (x : ref) : option nat :=
  match l with
  | [] => None
  | y :: rest => if bool_decide (y = x) then Some 0 else S <$> indexOf rest x
  end.

Definition cycleMessage (cycle : list ref) : jsstring :=
  let cycleStr := join (js " -> ") (map (fun d => name (heap d)) cycle) in
  js "Circular dependency detected: " ++ cycleStr.

Fixpoint visit (fuel : nat) (drv : ref) : ST TopoState unit :=
  match fuel with
  | O => exhausted
  | S fuel' =>
      st ← get;
      if bool_decide (drv ∈ visited st) then mret tt
      else
        (* Check for cycle *)
        match indexOf (path st) drv with
        | Some cycleStart =>
            let cycle := drop cycleStart (path st) ++ [drv] in
            throw (Error (cycleMessage cycle))
        | None =>
            modify (fun st => {| result := result st; visited := visited st;
                                 path := path st ++ [drv] |}) ≫= fun _ =>
            forEach (default [] (inputs (heap drv))) (visit fuel') ≫= fun _ =>
            modify (fun st => {| result := result st; visited := visited st;
                                 path := removelast (path st) |}) ≫= fun _ =>
            modify (fun st => {| result := result st; visited := {[drv]} ∪ visited st;
                                 path := path st |}) ≫= fun _ =>
            modify (fun st => {| result := result st ++ [drv]; visited := visited st;
                                 path := path st |})
        end
  end.

Definition topoSort (fuel : nat) (drvs : list ref) : outcome (list ref) :=
  let start := {| result := []; visited := ∅; path := [] |} in
  match forEach drvs (visit fuel) start with
  | (Ok _, st) => Ok (result st)
  | (Throw e, _) => Throw e
  | (Exhausted, _) => Exhausted
  end.

(** [collect(d)] of [getAllDeps], on the set [deps]. *)
Fixpoint collect (fuel : nat) (d : ref) : ST (gset ref) unit :=
  match fuel with
  | O => exhausted
  | S fuel' =>
      forEach (default [] (inputs (heap d)))
        (fun input =>
           deps ← get;
           if negb (bool_decide (input ∈ deps)) then
             modify (fun deps => {[input]} ∪ deps) ≫= fun _ =>
             collect fuel' input
           else mret tt)
  end.

Definition getAllDeps (fuel : nat) (drv : ref) : outcome (gset ref) :=
  match collect fuel drv ∅ with
  | (Ok _, deps) => Ok deps
  | (Throw e, _) => Throw e
  | (Exhausted, _) => Exhausted
  end.

End WithProgram.

End DerivationTs.

(* ===================================================================== *)
(** * build.ts *)
(* ===================================================================== *)

Module Import BuildTs.
Import Js.

Inductive Sandbox := docker | none.

(** [Partial<BuildConfig>]: every option may be left out. *)
Record BuildConfig := {
  sandbox : option Sandbox;
  dockerImage : option jsstring;
  network : option bool;
  verbose : option bool;
}.

Definition DEFAULT_BUILD_CONFIG : BuildConfig := {|
  sandbox := Some docker;
  dockerImage := Some (js "debian:bookworm-slim");
  network := Some false;
  verbose := Some false;
|}.

(** [{ ...a, ...b }]. *)
Definition spreadConfig (a b : BuildConfig) : BuildConfig := {|
  sandbox := from_option Some (sandbox a) (sandbox b);
  dockerImage := from_option Some (dockerImage a) (dockerImage b);
  network := from_option Some (network a) (network b);
  verbose := from_option Some (verbose a) (verbose b);
|}.

Record RunOptions := {
  run_cwd : option jsstring;
  run_env : option (list (jsstring * jsstring));
  run_verbose : option bool;
}.

(** What becomes of a spawned child: it closes with an exit code ([None]
    when a signal ended it) and what it wrote to stderr, or it could not be
    started. *)
Inductive Child :=
| Closed (code : option Z) (stderr : jsstring)
| Failed (message : jsstring).

(** A truthy optional flag. *)
Definition flag (b : option bool) : bool := default false b.

Section WithProcesses.

Variable process : Process.

(** [spawn(command, args, { cwd, env })]: the child does to the disk
    whatever it does. *)
Variable spawn :
  jsstring -> list jsstring -> option jsstring -> option (list (jsstring * jsstring)) ->
  World -> Child * World.

Definition runCommand (command : jsstring) (args : list jsstring) (options : RunOptions)
  : M unit := fun w =>
  match spawn command args (run_cwd options) (run_env options) w with
  | (Closed code stderr, w') =>
      if bool_decide (code = Some 0%Z) then (Ok tt, w')
      else
        let shown := if flag (run_verbose options) then [] else stderr in
        (Throw (Error (command ++ js " exited with code "
                         ++ from_option decimal (js "null") code ++ [10%N] ++ shown)),
         w')
  | (Failed message, w') =>
      (Throw (Error (js "Failed to spawn " ++ command ++ js ": " ++ message)), w')
  end.

Definition dockerArgs (store : Store) (drv : DrvFile) (config : BuildConfig)
    (outDir : jsstring) : list jsstring :=
  let out := outputs_out_path drv in
  [js "run"; js "--rm"]
  (* Network isolation (unless fixed-output) *)
  ++ (if flag (network config) then [] else [js "--network"; js "none"])
  (* Mount store read-only *)
  ++ [js "-v"; dir store ++ js ":" ++ dir store ++ js ":ro"]
  (* Mount output directory *)
  ++ [js "-v"; outDir ++ js ":" ++ out ++ js ":rw"]
  (* Environment variables *)
  ++ flat_map (fun e => [js "-e"; e.1 ++ js "=" ++ e.2]) (drv_env drv)
  (* Working directory *)
  ++ [js "-w"; js "/build"]
  (* Image *)
  ++ [default (js "undefined") (dockerImage config)]
  (* Builder and args *)
  ++ [drv_builder drv]
  ++ drv_args drv.

Definition buildInDocker (store : Store) (drv : DrvFile) (config : BuildConfig)
  : M unit :=
  let out := outputs_out_path drv in
  let outDir := pathJoin (tmpdir process) (js "tix-build-" ++ basename out) in
  (* Create temp output directory *)
  mkdirSync outDir mode755 ≫= fun _ =>
  runCommand (js "docker") (dockerArgs store drv config outDir)
    {| run_cwd := None; run_env := None; run_verbose := verbose config |} ≫= fun _ =>
  (* Register the output *)
  registerOutput store outDir out.

Definition buildDirect (store : Store) (drv : DrvFile) (config : BuildConfig)
  : M unit :=
  let out := outputs_out_path drv in
  buildDir ← mkdtempSync (pathJoin (tmpdir process) (js "tix-build-"));
  (* Create output directory *)
  mkdirSync out mode755 ≫= fun _ =>
  (* Sanitized environment *)
  let env :=
    spread (spread [] (drv_env drv))
      [(js "TMPDIR", buildDir); (js "TEMPDIR", buildDir);
       (js "TMP", buildDir); (js "TEMP", buildDir)] in
  runCommand (drv_builder drv) (drv_args drv)
    {| run_cwd := Some buildDir; run_env := Some env; run_verbose := verbose config |}
  ≫= fun _ =>
  (* Register the output *)
  registerOutput store out out.

Fixpoint realize (fuel : nat) (store : Store) (drvPath : jsstring) (config : BuildConfig)
  : M jsstring :=
  match fuel with
  | O => exhausted
  | S fuel' =>
      let opts := spreadConfig DEFAULT_BUILD_CONFIG config in
      drv ← readDrv store drvPath;
      let out := outputs_out_path drv in
      (* Already built? *)
      built ← has store out;
      if (built : bool) then mret out
      else
        (* Build all input derivations first *)
        forEach (keys (inputDrvs drv))
          (fun inputDrvPath => realize fuel' store inputDrvPath config ≫= fun _ => mret tt)
        ≫= fun _ =>
        (* Now build this derivation *)
        match sandbox opts with
        | Some docker => buildInDocker store drv opts
        | _ => buildDirect store drv opts
        end ≫= fun _ =>
        (* Verify output was created *)
        produced ← has store out;
        if negb produced
        then throw (Error (js "Build did not produce expected output: " ++ out))
        else mret out
  end.

End WithProcesses.

End BuildTs.

(* ===================================================================== *)
(** * api.ts: the constructors of derivations used in the scenarios *)
(* ===================================================================== *)

Module Import ApiTs.

(** [drv({ name, builder, args, env, inputs, system })], without [src]. *)
Definition drv (process : Process) (name builder : jsstring)
    (args : option (list jsstring)) (env : option (list (jsstring * jsstring)))
    (inputs : option (list ref)) : Derivation := {|
  name := name;
  system := Some (currentSystem process);
  builder := builder;
  args := args;
  env := env;
  inputs := inputs;
  src := None;
  outputHash := None; outputHashAlgo := None; outputHashMode := None;
|}.

(** [fetchUrl({ name, url, sha256 })]. *)
Definition fetchUrl (name url sha256 : jsstring) : Derivation := {|
  name := name;
  system := None;
  builder := js "/bin/sh";
  args := Some [js "-c"; js "curl -L -o $out " ++ [34%N] ++ url ++ [34%N]];
  env := None;
  inputs := None;
  src := None;
  outputHash := Some sha256;
  outputHashAlgo := Some (js "sha256");
  outputHashMode := Some (js "flat");
|}.

(** ** The [sh] template tag *)

(** An interpolated value: a string (or store path), or a derivation. *)
Inductive ShValue :=
| ShStr (s : jsstring)
| ShDrv (r : ref).

(** The white space and line terminators that [trim] removes. *)
Definition isSpace (c : N) : bool :=
  bool_decide (c ∈ [0x09; 0x0A; 0x0B; 0x0C; 0x0D; 0x20; 0xA0; 0x1680; 0x2028; 0x2029;
                    0x202F; 0x205F; 0x3000; 0xFEFF]%N)
  || ((0x2000 <=? c) && (c <=? 0x200A))%N.

Fixpoint trimStart (s : jsstring) : jsstring :=
  match s with
  | c :: rest => if isSpace c then trimStart rest else s
  | [] => []
  end.

(** [s.trim()]. *)
Definition trim (s : jsstring) : jsstring :=
  reverse (trimStart (reverse (trimStart s))).

(** [s.split("\n")[0]]. *)
Fixpoint firstLine (s : jsstring) : jsstring :=
  match s with
  | c :: rest => if (c =? 10)%N then [] else c :: firstLine rest
  | [] => []
  end.

(** The class [a-zA-Z0-9-_]. *)
Definition nameChar (c : N) : bool :=
  ((97 <=? c) && (c <=? 122) || (65 <=? c) && (c <=? 90) || (48 <=? c) && (c <=? 57)
   || (c =? 45) || (c =? 95))%N.

(** [s.replace(/[^a-zA-Z0-9-_]/g, "-")]. *)
Definition replaceOthers (s : jsstring) : jsstring :=
  map (fun c => if nameChar c then c else 45%N) s.

(** [s.replace(/-+/g, "-")]. *)
Fixpoint collapseHyphens (s : jsstring) : jsstring :=
  match s with
  | c :: rest =>
      if (c =? 45)%N then
        match rest with
        | d :: _ => if (d =? 45)%N then collapseHyphens rest else c :: collapseHyphens rest
        | [] => [c]
        end
      else c :: collapseHyphens rest
  | [] => []
  end.

Section Sh.

Variable heap : Heap.

(** The loop that interpolates the template. *)
Fixpoint interpolate (strings : list jsstring) (values : list ShValue) : jsstring :=
  match strings with
  | [] => []
  | s :: strings' =>
      match values with
      | val :: values' =>
          s ++ match val with
               | ShStr v => v
               | ShDrv r => js "${" ++ name (heap r) ++ js "}"
               end
            ++ interpolate strings' values'
      | [] => s ++ interpolate strings' []
      end
  end.

Definition sh (strings : list jsstring) (values : list ShValue) : Derivation :=
  (* Interpolate the template *)
  let script := interpolate strings values in
  (* Extract a name from the script (first non-empty line, sanitized) *)
  let line := firstLine (trim script) in
  let sanitized := take 32 (collapseHyphens (replaceOthers line)) in
  let name := if truthy sanitized then sanitized else js "script" in
  {| name := name;
     system := None;
     builder := js "/bin/sh";
     args := Some [js "-c"; script];
     env := None;
     inputs := Some (omap (fun v => match v with ShDrv r => Some r | ShStr _ => None end)
                          values);
     src := None;
     outputHash := None; outputHashAlgo := None; outputHashMode := None;
  |}.

End Sh.

End ApiTs.

(* ===================================================================== *)
(** * Scenarios *)
(* ===================================================================== *)

Module Scenario.

Definition linux : Process :=
  {| arch := js "x64"; platform := js "linux"; tmpdir := js "/tmp" |}.

Definition store : Store := {| dir := js "/tix/store" |}.

(** A disk holding the (empty) store directory. *)
Definition emptyStore : World :=
  {| disk := {[ js "/tix/store" := Dir [] mode755 ]}; tick := 0 |}.

Definition sha256OfContent : jsstring :=
  js "aaaaaaaaaaaaaaaaaaaaaaaaaaaaaaaaaaaaaaaaaaaaaaaaaaaaaaaaaaaaaaaa".

(** Objects 0 and 1: two fixed-output derivations for the same content,
    one made by [fetchUrl], one with another builder, arguments,
    environment and inputs;
    object 2: a derivation with an empty name;
    objects 3 to 6: the diamond D, B, C, A;
    objects 7 and 8: A with its inputs in the other order, and repeated;
    objects 9, 10 and 11: the cycle X -> Y -> Z -> X;
    objects 12 and 13: a derivation with an empty [outputHash], and the
    same without the fixed-output fields;
    object 14: as 12 with another builder. *)
Definition otherFetcher : Derivation := {|
  name := js "file";
  system := Some (js "aarch64-darwin");
  builder := js "/usr/bin/wget";
  args := Some [js "http://mirror2.com/file"; js "-O"; js "$out"];
  env := Some [(js "MIRROR", js "2")];
  inputs := Some [3];
  src := None;
  outputHash := Some sha256OfContent;
  outputHashAlgo := Some (js "sha256");
  outputHashMode := Some (js "flat");
|}.

Definition emptyHash (builder : jsstring) (h algo : option jsstring) : Derivation := {|
  name := js "odd"; system := None; builder := builder;
  args := None; env := None; inputs := Some [3]; src := None;
  outputHash := h; outputHashAlgo := algo; outputHashMode := None;
|}.

Definition objects (r : ref) : Derivation :=
  let sh := js "/bin/sh" in
  match r with
  | 0 => fetchUrl (js "file") (js "http://mirror1.com/file") sha256OfContent
  | 1 => otherFetcher
  | 2 => drv linux [] sh None None None
  | 3 => drv linux (js "D") sh None None None
  | 4 => drv linux (js "B") sh None None (Some [3])
  | 5 => drv linux (js "C") sh None None (Some [3])
  | 6 => drv linux (js "A") sh None None (Some [4; 5])
  | 7 => drv linux (js "A") sh None None (Some [5; 4])
  | 8 => drv linux (js "A") sh None None (Some [4; 5; 4; 4])
  | 9 => drv linux (js "X") sh None None (Some [10])
  | 10 => drv linux (js "Y") sh None None (Some [11])
  | 11 => drv linux (js "Z") sh None None (Some [9])
  | 12 => emptyHash sh (Some []) (Some (js "sha256"))
  | 13 => emptyHash sh None None
  | _ => emptyHash (js "/bin/bash") (Some []) (Some (js "sha256"))
  end.

(** [instantiate(store, r)] on the empty store, and [realize] of the
    derivation file it wrote. *)
Definition instantiated (r : ref) : outcome Paths * InstState :=
  instantiate linux objects 8 store r (emptyStore, ∅).

Definition realized
    (spawn : jsstring -> list jsstring -> option jsstring ->
             option (list (jsstring * jsstring)) -> World -> Child * World)
    (config : BuildConfig) (r : ref) : outcome jsstring * World :=
  match instantiated r with
  | (Ok p, (w, _)) => realize linux spawn 8 store (drvPath p) config w
  | (Throw e, (w, _)) => (Throw e, w)
  | (Exhausted, (w, _)) => (Exhausted, w)
  end.


(** A derivation file without input derivations, and a store that holds
    it; the same store with its output. *)
Definition leafFile : DrvFile := {|
  outputs_out_path := js "/tix/store/abc-leaf";
  inputDrvs := [];
  inputSrcs := [];
  drv_system := js "x86_64-linux";
  drv_builder := js "/bin/sh";
  drv_args := [js "-c"; js "echo hi > $out/hi"];
  drv_env := [(js "out", js "/tix/store/abc-leaf")];
|}.

Definition leafStore : World :=
  {| disk := {[ js "/tix/store" := Dir [] mode755;
                js "/tix/store/abc-leaf.drv" := File (Json leafFile) mode444 ]};
     tick := 0 |}.

Definition builtStore : World :=
  setDisk (<[js "/tix/store/abc-leaf" := Dir [] mode555]> (disk leafStore)) leafStore.

(** A child that writes the file [hi] to the temporary output directory of
    [leafFile] and exits with zero, and one that exits with 1. *)
Definition fillingBuilder (command : jsstring) (args : list jsstring)
    (cwd : option jsstring) (env : option (list (jsstring * jsstring)))
    (w : World) : Child * World :=
  (Closed (Some 0%Z) [],
   setDisk (<[js "/tmp/tix-build-abc-leaf" :=
                Dir [(js "hi", File (Raw (Str (js "hi"))) mode644)] mode755]> (disk w)) w).


(** A builder that exits with code zero and creates nothing. *)
Definition idleBuilder (command : jsstring) (args : list jsstring)
    (cwd : option jsstring) (env : option (list (jsstring * jsstring)))
    (w : World) : Child * World :=
  (Closed (Some 0%Z) [], w).

(** A child that notes its command line in a file and exits with zero. *)
Definition commandLine : jsstring := js "/tmp/command-line".

Definition notingBuilder (command : jsstring) (args : list jsstring)
    (cwd : option jsstring) (env : option (list (jsstring * jsstring)))
    (w : World) : Child * World :=
  (Closed (Some 0%Z) [],
   setDisk (<[commandLine := File (Raw (Str (join (js " ") (command :: args)))) mode644]>
              (disk w)) w).

(** [{}], the configuration that [build] of api.ts passes on but for
    [verbose]. *)
Definition noConfig : BuildConfig :=
  {| sandbox := None; dockerImage := None; network := None; verbose := None |}.

Definition directConfig : BuildConfig :=
  {| sandbox := Some none; dockerImage := None; network := None; verbose := None |}.

End Scenario.

(* ===================================================================== *)
(** * Vocabulary of the statements *)
(* ===================================================================== *)

Module Import Vocabulary.
Import Js.

(** The character written for the group [c]. *)
Definition alphabetChar (c : N) : N := default 0%N (NIX32_ALPHABET !! N.to_nat c).

(** What [validateDerivation] rejects. *)
Definition invalid (d : Derivation) : Prop :=
  name d = [] \/ 47%N ∈ name d \/ 0%N ∈ name d \/ builder d = [] \/
  (exists h algo, outputHash d = Some h /\ outputHashAlgo d = Some algo /\
                  algo <> js "sha256").

(** The hash of the fingerprint of a declared output hash and mode. *)
Definition fixedHash (d : Derivation) : jsstring :=
  sha256Hex (Str (fixedFingerprint (default (js "flat") (outputHashMode d))
                                   (default [] (outputHash d)))).


(** ** The order in which keys are emitted *)

(** Modelled on the spec's words, "ascending lexicographic order by their
    UTF-8 byte sequence". *)
Definition utf8Bytes (k : jsstring) : list N := map Byte.to_N (Utf8.encode k).

Definition utf8Le (a b : jsstring) : Prop :=
  strLeb (utf8Bytes a) (utf8Bytes b) = true.

#[export] Instance utf8Le_dec : RelDecision utf8Le :=
  fun a b => decide (strLeb (utf8Bytes a) (utf8Bytes b) = true).

Definition utf8Ascending (ks : list jsstring) : list jsstring :=
  merge_sort utf8Le ks.

(** The order of the code: the keys that are array indices, by their
    number, then the other keys but [__proto__], by their code units. *)
Definition isIndexKey (k : jsstring) : Prop := is_Some (arrayIndex k).

Definition plainKey (k : jsstring) : Prop := arrayIndex k = None /\ k <> protoKey.

Definition indexValue (k : jsstring) : N := default 0%N (arrayIndex k).

Definition indexLe (a b : jsstring) : Prop := (indexValue a <= indexValue b)%N.

#[export] Instance indexLe_dec : RelDecision indexLe :=
  fun a b => decide (indexValue a <= indexValue b)%N.

Definition codeOrder (ks : list jsstring) : list jsstring :=
  merge_sort indexLe (filter isIndexKey ks) ++ filter plainKey (sort ks).

(** [stableStringify] writes the object [o] with its keys in the order
    [order (keys o)], each followed by the serialization of its value, a
    key whose value has none being left out. *)
Definition emitsInOrder (order : list jsstring -> list jsstring) (o : props) : Prop :=
  stableStringify (JObj o) =
  Some (js "{" ++
        join (js ",")
          (omap (fun k => s ← stableStringify (getProp o k);
                          Some (quote k ++ js ":" ++ s))
                (order (keys o)))
        ++ js "}").

(** Whether a value is not [undefined]. *)
Definition defined (v : value) : bool :=
  match v with
  | JUndefined => false
  | _ => true
  end.

(** An object with the keys 9 and 10, as JavaScript enumerates it. *)
Definition nineTen : props := [(js "9", JNum 2); (js "10", JNum 1)].

(** An object with two keys outside the ASCII range, the code point U+FF5E
    and the surrogate pair of U+1F600, in the order of their code units. *)
Definition tildeGrin : props :=
  [([0xD83D; 0xDE00]%N, JNull); ([0xFF5E]%N, JNull)].

(** ** The derivation graph *)

Section Graph.

Variable heap : Heap.

(** The edges [u -> v]: [v] is an input of [u]. *)
Definition edges (u : ref) : list ref := default [] (inputs (heap u)).

(** The derivations that the traversal from [roots] can reach. *)
Inductive reachable (roots : list ref) : ref -> Prop :=
| reachable_root r : r ∈ roots -> reachable roots r
| reachable_step u v : reachable roots u -> v ∈ edges u -> reachable roots v.

(** A sequence of derivations, each an input of the one before. *)
Definition chain (p : list ref) : Prop :=
  forall i a b, p !! i = Some a -> p !! S i = Some b -> b ∈ edges a.

(** A cycle path: a chain of at least one edge that ends where it starts. *)
Definition cyclePath (p : list ref) : Prop :=
  chain p /\ exists x mid, p = x :: mid ++ [x].

(** The graph below [roots] has a cycle. *)
Definition cyclic (roots : list ref) : Prop :=
  exists p, cyclePath p /\ forall x, x ∈ p -> reachable roots x.

Definition acyclic (roots : list ref) : Prop := ~ cyclic roots.

(** [x] is a transitive dependency of [d]: an input of [d], or of one of
    its transitive dependencies. *)
Definition dependsOn (d x : ref) : Prop :=
  exists y, y ∈ edges d /\ reachable [y] x.

(** What holds of the variables of [topoSort] between two steps. *)
Record TopoInv (roots : list ref) (st : TopoState) : Prop := {
  inv_nodup : NoDup (result st);
  inv_visited : forall x, x ∈ visited st <-> x ∈ result st;
  inv_closed : forall i u v,
    result st !! i = Some u -> v ∈ edges u ->
    exists j, j < i /\ result st !! j = Some v;
  inv_path_nodup : NoDup (path st);
  inv_path_fresh : forall x, x ∈ path st -> x ∉ visited st;
  inv_path_chain : chain (path st);
  inv_reach_result : forall x, x ∈ result st -> reachable roots x;
  inv_reach_path : forall x, x ∈ path st -> reachable roots x;
}.

(** What a call of [visit], or a loop of such calls over [targets], from
    the state [st] comes to. *)
Definition visitPost (roots targets : list ref) (st : TopoState)
    (r : outcome unit * TopoState) : Prop :=
  match r with
  | (Ok _, st') =>
      TopoInv roots st' /\ path st' = path st /\
      (exists new, result st' = result st ++ new) /\
      forall v, v ∈ targets -> v ∈ result st'
  | (Throw e, _) =>
      exists p, e = Error (cycleMessage heap p) /\ cyclePath p /\
                forall x, x ∈ p -> reachable roots x
  | (Exhausted, _) => False
  end.

(** What a call of [collect] on [d], or the loop over the inputs
    [targets] of [d], makes of the set [deps]. *)
Definition collectPost (d : ref) (targets : list ref) (deps : gset ref)
    (r : outcome unit * gset ref) : Prop :=
  r.1 = Ok tt /\
  deps ⊆ r.2 /\
  (forall x, x ∈ r.2 -> x ∈ deps \/ dependsOn d x) /\
  (forall i, i ∈ targets -> i ∈ r.2) /\
  (forall x, x ∈ r.2 -> x ∉ deps -> forall y, y ∈ edges x -> y ∈ r.2).

End Graph.

(** ** Trees on the disk *)

(** Every file of the tree is 0o444 and every directory 0o555. *)
Fixpoint readOnly (n : Node) : bool :=
  match n with
  | File _ mode => bool_decide (mode = mode444)
  | Dir entries mode =>
      bool_decide (mode = mode555) &&
      (fix each (l : list (jsstring * Node)) :=
         match l with
         | [] => true
         | (_, x) :: rest => readOnly x && each rest
         end) entries
  end.

(** The tree without its permission bits: names and contents. *)
Fixpoint data (n : Node) : Node :=
  match n with
  | File c _ => File c 0
  | Dir entries _ =>
      Dir ((fix each (l : list (jsstring * Node)) :=
              match l with
              | [] => []
              | (k, x) :: rest => (k, data x) :: each rest
              end) entries) 0
  end.

(** The paths that are on the disk [w] are on the disk [w'], with the
    same trees. *)
Definition keeps (w w' : World) : Prop :=
  forall p, is_Some (disk w !! p) -> disk w' !! p = disk w !! p.

(** A computation of [instantiate] that leaves the paths on the disk as
    they are. *)
Definition preserving {A} (m : ST InstState A) : Prop :=
  forall st, keeps st.1 (m st).2.1.

(** ** The hash as a function of the graph *)

(** The same derivation with other inputs. *)
Definition withInputs (d : Derivation) (l : option (list ref)) : Derivation := {|
  name := name d; system := system d; builder := builder d; args := args d;
  env := env d; inputs := l; src := src d;
  outputHash := outputHash d; outputHashAlgo := outputHashAlgo d;
  outputHashMode := outputHashMode d;
|}.

(** The object [inputHashes] after the loop over inputs with the hashes
    [hashes], in that order. *)
Definition inputHashesOf (hashes : list jsstring) : props :=
  foldl (fun inputHashes inputHash => setProp inputHashes inputHash (strings [js "out"]))
        [] hashes.

Section Hashes.

Variable process : Process.
Variable heap : Heap.

(** What [hashDerivationModulo] computes for [drv] when no cache answers,
    down to the depth [fuel]. *)
Fixpoint hashOf (fuel : nat) (drv : ref) : option jsstring :=
  match fuel with
  | O => None
  | S fuel' =>
      let d := heap drv in
      if truthyOpt (outputHash d) then Some (fixedHash d)
      else
        hashes ← mapM (hashOf fuel') (default [] (inputs d));
        text ← stableStringify (toHash process d (inputHashesOf hashes));
        Some (sha256Hex (Str text))
  end.

(** The loop of [hashDerivationModulo] over the inputs. *)
Definition inputLoop (fuel : nat) (storeDir : jsstring)
  : props -> list ref -> ST (gmap ref jsstring) props :=
  foldM (fun inputHashes input =>
           inputHash ← hashDerivationModulo process heap fuel input storeDir;
           mret (setProp inputHashes inputHash (strings [js "out"]))).

(** Every entry of the cache holds the hash of its derivation. *)
Definition cacheSound (cache : gmap ref jsstring) : Prop :=
  forall k v, cache !! k = Some v -> exists n, hashOf n k = Some v.

End Hashes.

End Vocabulary.

Import Js.

(* ===================================================================== *)
(** * Nix32 encoding: the shape of the output *)
(* ===================================================================== *)

Section Nix32Facts.

Lemma ceil_div_5_bounds (a : nat) :
  a <= 5 * ceil_div a 5 /\ 5 * ceil_div a 5 < a + 5.
Proof.
  unfold ceil_div. simpl (5 - 1).
  pose proof (Nat.div_mod_eq (a + 4) 5) as E.
  pose proof (Nat.mod_upper_bound (a + 4) 5) as B.
  lia.
Qed.

Lemma land31_lt (x : N) : (N.land x 0x1f < 32)%N.
Proof.
  change 0x1f%N with (N.ones 5). rewrite N.land_ones.
  apply N.mod_lt. discriminate.
Qed.

Lemma group_lt_32 (reversed : Buffer) (n : nat) : (group reversed n < 32)%N.
Proof.
  unfold group. cbv zeta.
  destruct (_ && _).
  - rewrite <- N.land_lor_distr_l. apply land31_lt.
  - apply land31_lt.
Qed.

Lemma alphabet_length : length NIX32_ALPHABET = 32.
Proof. reflexivity. Qed.

Lemma alphabetAt_singleton (c : N) :
  (c < 32)%N ->
  exists ch, NIX32_ALPHABET !! N.to_nat c = Some ch /\ alphabetAt c = [ch].
Proof.
  intros Hc. unfold alphabetAt.
  destruct (lookup_lt_is_Some_2 NIX32_ALPHABET (N.to_nat c)) as [ch Hch].
  - rewrite alphabet_length. lia.
  - exists ch. rewrite Hch. done.
Qed.

(** The state of [chars] after the first [k] iterations of the loop. *)
Lemma fillChars_prefix (reversed : Buffer) (len k : nat) :
  k <= len ->
  let chars :=
    foldl (fun chars n => <[len - 1 - n := alphabetAt (group reversed n)]> chars)
          (replicate len []) (seq 0 k) in
  length chars = len /\
  (forall n, n < k -> chars !! (len - 1 - n) = Some (alphabetAt (group reversed n))) /\
  (forall p, p < len - k -> chars !! p = Some []).
Proof.
  induction k as [|k IH]; intros Hk; cbn zeta.
  - simpl. split; [apply length_replicate|]. split; [lia|].
    intros p Hp. apply lookup_replicate_2. lia.
  - rewrite seq_S, foldl_app. simpl.
    destruct IH as (Hlen & Hset & Hun); [lia|].
    split; [by rewrite length_insert|]. split.
    + intros n Hn. destruct (decide (n = k)) as [->|Hne].
      * apply list_lookup_insert_eq. lia.
      * rewrite list_lookup_insert_ne by lia. apply Hset. lia.
    + intros p Hp. rewrite list_lookup_insert_ne by lia. apply Hun. lia.
Qed.

Lemma fillChars_lookup (reversed : Buffer) (len p : nat) :
  p < len ->
  fillChars reversed len !! p = Some (alphabetAt (group reversed (len - 1 - p))).
Proof.
  intros Hp.
  destruct (fillChars_prefix reversed len len (le_n _)) as (_ & Hset & _).
  specialize (Hset (len - 1 - p)).
  replace (len - 1 - (len - 1 - p)) with p in Hset by lia.
  apply Hset. lia.
Qed.

Lemma fillChars_length (reversed : Buffer) (len : nat) :
  length (fillChars reversed len) = len.
Proof. apply (fillChars_prefix reversed len len (le_n _)). Qed.

Lemma fillChars_singletons (reversed : Buffer) (len : nat) :
  fillChars reversed len =
  map (fun p => [alphabetChar (group reversed (len - 1 - p))]) (seq 0 len).
Proof.
  apply list_eq. intros p.
  destruct (decide (p < len)) as [Hp|Hp].
  - rewrite fillChars_lookup by done.
    rewrite list_lookup_fmap, lookup_seq_lt by done. simpl.
    destruct (alphabetAt_singleton _ (group_lt_32 reversed (len - 1 - p)))
      as (ch & Hch & ->).
    unfold alphabetChar. by rewrite Hch.
  - rewrite !lookup_ge_None_2; [done| |].
    + rewrite length_map, length_seq. lia.
    + rewrite fillChars_length. lia.
Qed.

Lemma concat_singletons {A B} (f : A -> B) (l : list A) :
  concat (map (fun x => [f x]) l) = map f l.
Proof. induction l; simpl; congruence. Qed.

Lemma nix32Encode_eq (bytes : Buffer) :
  let len := ceil_div (length bytes * 8) 5 in
  nix32Encode bytes =
  map (fun p => alphabetChar (group (reverse bytes) (len - 1 - p))) (seq 0 len).
Proof.
  cbv zeta. unfold nix32Encode. case_bool_decide as H0.
  - rewrite H0. reflexivity.
  - cbv zeta. rewrite length_reverse, fillChars_singletons.
    apply concat_singletons.
Qed.

End Nix32Facts.

Lemma byteAt_lt (b : Buffer) (i : nat) : (byteAt b i < 256)%N.
Proof.
  unfold byteAt. destruct (b !! i) as [x|]; [|lia].
  pose proof (Byte.to_N_bounded x). lia.
Qed.

Lemma byteAt_bit_high (b : Buffer) (i k : nat) :
  8 <= k -> N.testbit (byteAt b i) (N.of_nat k) = false.
Proof.
  intros Hk. rewrite <- (N.mod_small (byteAt b i) (2 ^ 8)) by apply byteAt_lt.
  apply N.mod_pow2_bits_high. lia.
Qed.

Lemma byteAt_ge (b : Buffer) (i : nat) : length b <= i -> byteAt b i = 0%N.
Proof. intros H. unfold byteAt. by rewrite lookup_ge_None_2. Qed.

(** Bit [k] of the little-endian value is bit [k mod 8] of byte [k / 8]. *)
Lemma leValue_testbit (b : Buffer) (k : nat) :
  N.testbit (leValue b) (N.of_nat k) =
  N.testbit (byteAt b (k / 8)) (N.of_nat (k mod 8)).
Proof.
  revert k. induction b as [|x r IH]; intros k.
  - rewrite byteAt_ge by (simpl; lia). cbn [leValue]. by rewrite !N.bits_0.
  - cbn [leValue].
    pose proof (Byte.to_N_bounded x) as Hx.
    destruct (decide (k < 8)) as [Hlt|Hge].
    + rewrite Nat.div_small, Nat.mod_small by done.
      change (byteAt (x :: r) 0) with (Byte.to_N x).
      rewrite <- (N.mod_pow2_bits_low _ 8) by lia.
      f_equal. change (2 ^ 8)%N with 256%N.
      rewrite N.Div0.add_mod, (N.mul_comm 256), N.Div0.mod_mul, N.add_0_r by lia.
      rewrite N.Div0.mod_mod by lia. apply N.mod_small. lia.
    + replace (N.of_nat k) with (N.of_nat (k - 8) + 8)%N by lia.
      rewrite <- N.div_pow2_bits. change (2 ^ 8)%N with 256%N.
      replace ((Byte.to_N x + 256 * leValue r) / 256)%N with (leValue r).
      2:{ rewrite (N.mul_comm 256), N.div_add by lia.
          rewrite N.div_small by lia. done. }
      rewrite IH.
      replace k with ((k - 8) + 1 * 8) at 3 4 by lia.
      rewrite Nat.div_add, Nat.Div0.mod_add by lia.
      replace ((k - 8) / 8 + 1) with (S ((k - 8) / 8)) by lia.
      reflexivity.
Qed.

(** The group of iteration [n] is the [n]-th 5-bit digit, counted from the
    least significant bit, of the reversed buffer read little-endian. *)
Lemma group_bits (reversed : Buffer) (n : nat) :
  group reversed n =
  N.land (N.shiftr (leValue reversed) (N.of_nat (5 * n))) 0x1f.
Proof.
  apply N.bits_inj. intros m.
  unfold group. cbv zeta.
  change 0x1f%N with (N.ones 5).
  set (i := n * 5 / 8). set (j := n * 5 mod 8).
  assert (Hn : 5 * n = i * 8 + j).
  { pose proof (Nat.div_mod_eq (n * 5) 8). unfold i, j. lia. }
  assert (Hj : j < 8) by (apply Nat.mod_upper_bound; lia).
  destruct (decide (m < 5)%N) as [Hm|Hm].
  2:{ rewrite (N.land_ones (N.shiftr (leValue reversed) _)).
      rewrite N.mod_pow2_bits_high by lia.
      destruct (_ && _).
      - rewrite <- N.land_lor_distr_l, N.land_ones.
        apply N.mod_pow2_bits_high. lia.
      - rewrite N.land_ones. apply N.mod_pow2_bits_high. lia. }
  rewrite (N.land_ones (N.shiftr (leValue reversed) _)).
  rewrite N.mod_pow2_bits_low, N.shiftr_spec' by lia.
  replace (m + N.of_nat (5 * n))%N with (N.of_nat (N.to_nat m + 5 * n)) by lia.
  rewrite leValue_testbit.
  set (k := N.to_nat m). assert (Hk : k < 5) by lia.
  assert (Em : m = N.of_nat k) by lia.
  assert (first :
    N.testbit (N.land (N.shiftr (byteAt reversed i) (N.of_nat j)) (N.ones 5)) m
    = N.testbit (byteAt reversed i) (N.of_nat (k + j))).
  { rewrite N.land_ones, N.mod_pow2_bits_low, N.shiftr_spec' by lia.
    f_equal. lia. }
  destruct (decide (k + j < 8)) as [Hlow|Hhigh].
  - replace ((k + 5 * n) / 8) with i.
    2:{ rewrite Hn. replace (k + (i * 8 + j)) with ((k + j) + i * 8) by lia.
        rewrite Nat.div_add, Nat.div_small by lia. done. }
    replace ((k + 5 * n) mod 8) with (k + j).
    2:{ rewrite Hn. replace (k + (i * 8 + j)) with ((k + j) + i * 8) by lia.
        rewrite Nat.Div0.mod_add, Nat.mod_small by lia. done. }
    destruct (_ && _); [|exact first].
    rewrite N.lor_spec, first.
    rewrite N.land_ones, N.mod_pow2_bits_low by lia.
    rewrite N.shiftl_spec_low by lia. apply orb_false_r.
  - replace ((k + 5 * n) / 8) with (i + 1).
    2:{ rewrite Hn.
        replace (k + (i * 8 + j)) with ((k + j - 8) + (i + 1) * 8) by lia.
        rewrite Nat.div_add, Nat.div_small by lia. done. }
    replace ((k + 5 * n) mod 8) with (k + j - 8).
    2:{ rewrite Hn.
        replace (k + (i * 8 + j)) with ((k + j - 8) + (i + 1) * 8) by lia.
        rewrite Nat.Div0.mod_add, Nat.mod_small by lia. done. }
    destruct (decide (i + 1 < length reversed)) as [Hi|Hi].
    + rewrite bool_decide_eq_true_2 by done.
      rewrite bool_decide_eq_true_2 by lia. cbn [andb].
      rewrite N.lor_spec, first, byteAt_bit_high by lia. cbn [orb].
      rewrite N.land_ones, N.mod_pow2_bits_low by lia.
      rewrite N.shiftl_spec_high' by lia. f_equal. lia.
    + rewrite (bool_decide_eq_false_2 (i + 1 < _)) by done. cbn [andb].
      rewrite first, byteAt_bit_high by lia.
      rewrite (byteAt_ge reversed (i + 1)) by lia. by rewrite N.bits_0.
Qed.

(** C7: [nix32Encode] of a buffer of [L] bytes has exactly ⌈8·L/5⌉
    characters, all of them from the Nix32 alphabet; the character at output
    position [N-1-n] is [alphabet[c]] for the group [c] that the loop
    computes at iteration [n] from the reversed bytes, and that group is the
    [n]-th 5-bit digit, least significant first, of the reversed buffer; 20
    zero bytes encode to 32 times '0' and 20 bytes 0xff to 32 times 'z'. *)
Theorem nix32Encode_spec (bytes : Buffer) :
  let L := length bytes in
  let N := ceil_div (L * 8) 5 in
  let B' := reverse bytes in
  (8 * L <= 5 * N /\ 5 * N < 8 * L + 5) /\
  length (nix32Encode bytes) = N /\
  (forall n, n < N ->
     n * 5 / 8 < L /\
     (group B' n < 32)%N /\
     group B' n = N.land (N.shiftr (leValue B') (N.of_nat (5 * n))) 0x1f /\
     nix32Encode bytes !! (N - 1 - n) = NIX32_ALPHABET !! N.to_nat (group B' n)) /\
  (forall ch, ch ∈ nix32Encode bytes -> ch ∈ NIX32_ALPHABET) /\
  nix32Encode (replicate 20 Byte.x00) = js "00000000000000000000000000000000" /\
  nix32Encode (replicate 20 Byte.xff) = js "zzzzzzzzzzzzzzzzzzzzzzzzzzzzzzzz".
Proof.
  cbv zeta.
  pose proof (ceil_div_5_bounds (length bytes * 8)) as [Hlo Hhi].
  set (N := ceil_div (length bytes * 8) 5) in *.
  pose proof (nix32Encode_eq bytes) as E. cbv zeta in E. fold N in E.
  assert (Hchar : forall c, (c < 32)%N ->
            Some (alphabetChar c) = NIX32_ALPHABET !! N.to_nat c).
  { intros c Hc. destruct (alphabetAt_singleton c Hc) as (ch & Hch & _).
    unfold alphabetChar. by rewrite Hch. }
  split; [lia|]. split; [|split; [|split; [|split]]].
  - rewrite E, length_map, length_seq. done.
  - intros n Hn. split; [|split; [|split]].
    + apply Nat.Div0.div_lt_upper_bound. lia.
    + apply group_lt_32.
    + apply group_bits.
    + rewrite E, list_lookup_fmap, lookup_seq_lt by lia. simpl.
      replace (N - 1 - (N - 1 - n)) with n by lia.
      apply Hchar, group_lt_32.
  - intros ch. rewrite E. intros Hin.
    apply list_elem_of_fmap in Hin as (p & -> & _).
    apply list_elem_of_lookup. exists (N.to_nat (group (reverse bytes) (N - 1 - p))).
    symmetry. apply Hchar, group_lt_32.
  - vm_compute. reflexivity.
  - vm_compute. reflexivity.
Qed.

Lemma nix32Encode_spec_witness :
  nix32Encode [Byte.x01; Byte.x02] !! 2 = Some 56%N.
Proof.
  destruct (nix32Encode_spec [Byte.x01; Byte.x02]) as (_ & _ & H & _).
  destruct (H 1) as (_ & _ & _ & E); [vm_compute; lia|].
  exact E.
Defined.

(* ===================================================================== *)
(** * Reasoning about effectful calls *)
(* ===================================================================== *)

Lemma bind_unfold {S A B} (m : ST S A) (f : A -> ST S B) (s : S) :
  (m ≫= f) s =
  match m s with
  | (Ok a, s') => f a s'
  | (Throw e, s') => (Throw e, s')
  | (Exhausted, s') => (Exhausted, s')
  end.
Proof. reflexivity. Qed.

Lemma bind_Ok_inv {S A B} (m : ST S A) (f : A -> ST S B) (s s' : S) (b : B) :
  (m ≫= f) s = (Ok b, s') ->
  exists a s1, m s = (Ok a, s1) /\ f a s1 = (Ok b, s').
Proof.
  rewrite bind_unfold. destruct (m s) as [[a|e|] s1]; [eauto|discriminate..].
Qed.

Lemma bind_Ok {S A B} (m : ST S A) (f : A -> ST S B) (s s1 : S) (a : A) :
  m s = (Ok a, s1) -> (m ≫= f) s = f a s1.
Proof. intros H. by rewrite bind_unfold, H. Qed.

Lemma bind_Throw {S A B} (m : ST S A) (f : A -> ST S B) (s s1 : S) (e : exn) :
  m s = (Throw e, s1) -> (m ≫= f) s = (Throw e, s1).
Proof. intros H. by rewrite bind_unfold, H. Qed.

(** Splits a hypothesis saying that a sequence of calls returned. *)
Ltac bind_inv H :=
  let a := fresh "a" in
  let s := fresh "s" in
  let H1 := fresh H in
  apply bind_Ok_inv in H as (a & s & H1 & H).

(* ===================================================================== *)
(** * instantiate: validation comes first *)
(* ===================================================================== *)

Section Instantiate.

Context (process : Process) (heap : Heap).

Lemma instantiate_invalid (fuel : nat) (store : Store) (drv : ref)
    (st : InstState) (e : exn) :
  validateDerivation (heap drv) = Throw e ->
  instantiate process heap (S fuel) store drv st = (Throw e, st).
Proof.
  intros Hv. cbn [instantiate]. rewrite bind_unfold. unfold lift. by rewrite Hv.
Qed.

Lemma includes_true (s : jsstring) (c : N) : c ∈ s -> includes s c = true.
Proof.
  intros H. unfold includes. apply existsb_exists. exists c.
  split; [by apply list_elem_of_In|apply N.eqb_refl].
Qed.

Lemma validateDerivation_invalid (d : Derivation) :
  invalid d -> exists msg, validateDerivation d = Throw (ValidationError msg).
Proof.
  unfold validateDerivation. intros H.
  destruct (truthy (name d)) eqn:Hn; cbn [negb]; [|eauto].
  destruct (includes (name d) 47 || includes (name d) 0) eqn:Hc; [eauto|].
  apply orb_false_elim in Hc as [H47 H0].
  destruct (truthy (builder d)) eqn:Hb; cbn [negb]; [|eauto].
  destruct H as [H|[H|[H|[H|(h & algo & Hh & Ha & Hne)]]]].
  - rewrite H in Hn. discriminate.
  - apply includes_true in H. congruence.
  - apply includes_true in H. congruence.
  - rewrite H in Hb. discriminate.
  - rewrite Hh, Ha. rewrite bool_decide_eq_false_2 by congruence. eauto.
Qed.

End Instantiate.

(** C9: [instantiate] validates its derivation first: when the name is
    empty or contains '/' or NUL, when the builder is empty, or when a
    fixed-output derivation declares an [outputHashAlgo] other than
    "sha256", the call fails with a [ValidationError] and the disk and the
    cache are exactly as before, so no .drv file has been written. *)
Theorem instantiate_validates_first (process : Process) (heap : Heap)
    (fuel : nat) (store : Store) (drv : ref) (w : World) (cache : gmap ref Paths) :
  invalid (heap drv) ->
  exists msg,
    instantiate process heap (S fuel) store drv (w, cache)
    = (Throw (ValidationError msg), (w, cache)).
Proof.
  intros Hinv. destruct (validateDerivation_invalid _ Hinv) as [msg Hmsg].
  exists msg. by apply instantiate_invalid.
Qed.

Lemma instantiate_validates_first_witness :
  exists msg,
    instantiate Scenario.linux Scenario.objects 1 Scenario.store 2
      (Scenario.emptyStore, ∅)
    = (Throw (ValidationError msg), (Scenario.emptyStore, ∅)).
Proof.
  apply (instantiate_validates_first Scenario.linux Scenario.objects 0
           Scenario.store 2 Scenario.emptyStore ∅).
  left. reflexivity.
Defined.

(* ===================================================================== *)
(** * Fixed-output derivations *)
(* ===================================================================== *)

Section FixedOutput.

Context (process : Process) (heap : Heap).

Lemma hashDerivationModulo_fixed (fuel : nat) (drv : ref) (storeDir : jsstring)
    (cache : gmap ref jsstring) :
  truthyOpt (cache !! drv) = false ->
  truthyOpt (outputHash (heap drv)) = true ->
  hashDerivationModulo process heap (S fuel) drv storeDir cache
  = (Ok (fixedHash (heap drv)), <[drv := fixedHash (heap drv)]> cache).
Proof.
  intros Hc Hf. cbn [hashDerivationModulo].
  rewrite bind_unfold. unfold get. rewrite Hc, Hf. reflexivity.
Qed.

Lemma computeFixedOutputPath_eq (d : Derivation) (storeDir : jsstring) :
  computeFixedOutputPath (default [] (outputHash d))
    (default (js "flat") (outputHashMode d)) storeDir (name d)
  = computeOutputPath (fixedHash d) storeDir (name d).
Proof. reflexivity. Qed.

(** The output path that a returning [instantiate] reports for a
    derivation that is not yet in the cache. *)
Lemma instantiate_outPath (fuel : nat) (store : Store) (drv : ref)
    (w : World) (cache : gmap ref Paths) (p : Paths) (st : InstState) :
  cache !! drv = None ->
  instantiate process heap fuel store drv (w, cache) = (Ok p, st) ->
  exists drvHash c,
    hashDerivationModulo process heap fuel drv (dir store) ∅ = (Ok drvHash, c) /\
    drvPath p = computeOutputPath drvHash (dir store) (name (heap drv)) ++ js ".drv" /\
    outPath p =
      if truthyOpt (outputHash (heap drv)) then
        computeFixedOutputPath (default [] (outputHash (heap drv)))
          (default (js "flat") (outputHashMode (heap drv))) (dir store)
          (name (heap drv))
      else computeOutputPath drvHash (dir store) (name (heap drv)).
Proof.
  intros Hc H. destruct fuel as [|fuel]; [discriminate|].
  cbn [instantiate] in H.
  bind_inv H. unfold lift in H0. injection H0 as _ <-.
  bind_inv H. unfold onSnd, get in H0. cbn in H0. injection H0 as <- <-.
  rewrite Hc in H.
  bind_inv H. bind_inv H.
  unfold lift in H1.
  destruct (hashDerivationModulo process heap (S fuel) drv (dir store) ∅)
    as [r c] eqn:Hh.
  cbn [fst] in H1. injection H1 as -> ->.
  bind_inv H. bind_inv H. bind_inv H. cbv zeta in H. bind_inv H.
  injection H as <- _. cbn [drvPath outPath].
  eexists _, _. split; [reflexivity|]. done.
Qed.

End FixedOutput.



(* ===================================================================== *)
(** * A declared but empty output hash *)
(* ===================================================================== *)

Section EmptyOutputHash.

Context (process : Process) (heap : Heap).




End EmptyOutputHash.



(* ===================================================================== *)
(** * The realizer *)
(* ===================================================================== *)

(** The network switch of the container depends on the configuration
    alone: the derivation file has no part in it. *)
Lemma dockerArgs_network (store : Store) (d : DrvFile) (config : BuildConfig)
    (outDir : jsstring) :
  take 4 (dockerArgs store d config outDir) =
  if flag (network config)
  then [js "run"; js "--rm"; js "-v"; dir store ++ js ":" ++ dir store ++ js ":ro"]
  else [js "run"; js "--rm"; js "--network"; js "none"].
Proof. unfold dockerArgs. destruct (flag (network config)); reflexivity. Qed.

(** C5, evaluated: realizing the derivation file of a fixed-output
    derivation ([fetchUrl]) with the default configuration runs
    [docker run --rm --network none ...]: the network is disabled although
    the derivation is fixed-output. *)
Theorem realize_fixed_output_without_network :
  truthyOpt (outputHash (Scenario.objects 0)) = true /\
  exists p text mode,
    (Scenario.instantiated 0).1 = Ok p /\
    (Scenario.realized Scenario.notingBuilder Scenario.noConfig 0).1 = Ok (outPath p) /\
    disk (Scenario.realized Scenario.notingBuilder Scenario.noConfig 0).2
      !! Scenario.commandLine = Some (File (Raw (Str text)) mode) /\
    startsWith text (js "docker run --rm --network none ") = true.
Proof.
  split; [reflexivity|].
  eexists _, _, _.
  split; [vm_compute; reflexivity|].
  split; [vm_compute; reflexivity|].
  split; [vm_compute; reflexivity|].
  vm_compute. reflexivity.
Qed.

(** C6, evaluated: under the container sandbox a builder that exits with
    code zero and creates nothing makes [realize] return the output path,
    and an empty read-only directory is registered there. *)
Theorem realize_docker_registers_empty_output :
  exists p,
    (Scenario.instantiated 3).1 = Ok p /\
    disk (Scenario.instantiated 3).2.1 !! outPath p = None /\
    (Scenario.realized Scenario.idleBuilder Scenario.noConfig 3).1 = Ok (outPath p) /\
    disk (Scenario.realized Scenario.idleBuilder Scenario.noConfig 3).2 !! outPath p
    = Some (Dir [] mode555).
Proof.
  eexists.
  split; [vm_compute; reflexivity|].
  split; [vm_compute; reflexivity|].
  split; [vm_compute; reflexivity|].
  vm_compute. reflexivity.
Qed.

(** Without a sandbox the same build ends in the error for a missing
    output, and nothing is left at the output path. *)
Lemma realize_direct_reports_missing_output :
  exists p,
    (Scenario.instantiated 3).1 = Ok p /\
    (Scenario.realized Scenario.idleBuilder Scenario.directConfig 3).1
    = Throw (Error (js "Build did not produce expected output: " ++ outPath p)) /\
    disk (Scenario.realized Scenario.idleBuilder Scenario.directConfig 3).2 !! outPath p
    = None.
Proof.
  eexists.
  split; [vm_compute; reflexivity|].
  split; [vm_compute; reflexivity|].
  vm_compute. reflexivity.
Qed.

(* ===================================================================== *)
(** * The store: entries that are already there *)
(* ===================================================================== *)

Section StoreEntries.

Context (this : Store).

Lemma has_present (p : jsstring) (w : World) :
  is_Some (disk w !! p) -> has this p w = (Ok true, w).
Proof.
  intros H. unfold has, existsSync. by rewrite bool_decide_eq_true_2.
Qed.

Lemma has_absent (p : jsstring) (w : World) :
  disk w !! p = None -> has this p w = (Ok false, w).
Proof.
  intros H. unfold has, existsSync. rewrite bool_decide_eq_false_2; [done|].
  rewrite H. by intros [? ?].
Qed.

(** [addWithPath] and [addDrv] on a path that exists change nothing. *)
Lemma addWithPath_present (p : jsstring) (content : Content) (w : World) :
  is_Some (disk w !! p) -> addWithPath this p content w = (Ok tt, w).
Proof.
  intros H. unfold addWithPath. by rewrite (bind_Ok _ _ _ _ _ (has_present p w H)).
Qed.

Lemma addDrv_present (p : jsstring) (d : DrvFile) (w : World) :
  is_Some (disk w !! p) -> addDrv this p d w = (Ok tt, w).
Proof. apply addWithPath_present. Qed.


(** [registerOutput] towards a path that exists removes the temporary
    path and nothing else. *)
Lemma registerOutput_present (tempPath p : jsstring) (w : World) :
  is_Some (disk w !! p) ->
  registerOutput this tempPath p w = (Ok tt, setDisk (delete tempPath (disk w)) w).
Proof.
  intros H. unfold registerOutput.
  by rewrite (bind_Ok _ _ _ _ _ (has_present p w H)).
Qed.

(** The entry survives when the temporary path is another path. *)
Lemma registerOutput_present_other (tempPath p : jsstring) (w w' : World)
    (r : outcome unit) :
  is_Some (disk w !! p) ->
  tempPath <> p ->
  registerOutput this tempPath p w = (r, w') ->
  disk w' !! p = disk w !! p.
Proof.
  intros H Hne. rewrite registerOutput_present by done.
  intros [= _ <-]. cbn. by apply lookup_delete_ne.
Qed.

(** The entry is lost when the temporary path is the entry itself, which
    is how [buildDirect] calls [registerOutput]. *)
Lemma registerOutput_present_same (p : jsstring) (w : World) :
  is_Some (disk w !! p) ->
  exists w', registerOutput this p p w = (Ok tt, w') /\ disk w' !! p = None.
Proof.
  intros H. rewrite registerOutput_present by done.
  eexists. split; [reflexivity|]. cbn. apply lookup_delete_eq.
Qed.

End StoreEntries.

(** C8, evaluated: [registerOutput(p, p)], the call that [buildDirect]
    makes, on a path [p] that exists and holds a built file removes the
    entry: afterwards nothing is at [p]. *)
Theorem registerOutput_removes_existing_entry :
  let p := js "/tix/store/00000000000000000000000000000000-out" in
  let built := Dir [(js "result", File (Raw (Str (js "built"))) mode644)] mode755 in
  let w := setDisk (<[p := built]> (disk Scenario.emptyStore)) Scenario.emptyStore in
  exists w',
    has Scenario.store p w = (Ok true, w) /\
    registerOutput Scenario.store p p w = (Ok tt, w') /\
    disk w' !! p = None.
Proof.
  cbv zeta. eexists. split; [vm_compute; reflexivity|].
  split; [vm_compute; reflexivity|]. vm_compute. reflexivity.
Qed.

(* ===================================================================== *)
(** * topoSort *)
(* ===================================================================== *)

Section TopoSort.

Context (heap : Heap) (roots : list ref) (n : nat).

(** Every derivation in reach is one of the first [n] objects. *)
Hypothesis bounded : forall x, reachable heap roots x -> x < n.

Lemma indexOf_Some (l : list ref) (x : ref) (k : nat) :
  indexOf l x = Some k -> l !! k = Some x.
Proof.
  revert k. induction l as [|y l IH]; intros k; [discriminate|].
  cbn [indexOf]. case_bool_decide as Hy.
  - intros [= <-]. by subst.
  - destruct (indexOf l x) as [j|]; [|discriminate].
    intros [= <-]. cbn. by apply IH.
Qed.

Lemma indexOf_None (l : list ref) (x : ref) : indexOf l x = None -> x ∉ l.
Proof.
  induction l as [|y l IH]; [intros _; apply not_elem_of_nil|].
  cbn [indexOf]. case_bool_decide as Hy; [discriminate|].
  destruct (indexOf l x); [discriminate|]. intros _.
  apply not_elem_of_cons. split; [congruence|by apply IH].
Qed.

Lemma chain_snoc (p : list ref) (d : ref) :
  chain heap p -> (forall a, last p = Some a -> d ∈ edges heap a) ->
  chain heap (p ++ [d]).
Proof.
  intros Hp Hd i a b Ha Hb.
  destruct (decide (S i < length p)) as [Hlt|Hge].
  - rewrite lookup_app_l in Ha, Hb by lia. by eapply Hp.
  - assert (S i = length p) as Hi.
    { apply lookup_lt_Some in Hb. rewrite length_app in Hb. simpl in Hb. lia. }
    rewrite lookup_app_l in Ha by lia.
    rewrite lookup_app_r, Hi, Nat.sub_diag in Hb by lia. injection Hb as <-.
    apply Hd. rewrite last_lookup. rewrite <- Hi. exact Ha.
Qed.

Lemma chain_drop (p : list ref) (k : nat) : chain heap p -> chain heap (drop k p).
Proof.
  intros Hp i a b. rewrite !lookup_drop.
  replace (k + S i) with (S (k + i)) by lia. apply Hp.
Qed.

Lemma cycle_found (p : list ref) (d : ref) (k : nat) :
  chain heap p -> (forall a, last p = Some a -> d ∈ edges heap a) ->
  p !! k = Some d ->
  cyclePath heap (drop k p ++ [d]).
Proof.
  intros Hp Hd Hk. split.
  - apply chain_snoc; [by apply chain_drop|].
    intros a Ha. apply Hd. rewrite last_lookup in Ha |- *.
    rewrite lookup_drop, length_drop in Ha.
    apply lookup_lt_Some in Hk.
    replace (k + pred (length p - k)) with (pred (length p)) in Ha by lia.
    exact Ha.
  - exists d, (drop (S k) p). by rewrite (drop_S _ _ _ Hk).
Qed.

Lemma path_length (st : TopoState) :
  TopoInv heap roots st -> length (path st) <= n.
Proof.
  intros Inv.
  assert (Hsub : path st ⊆+ seq 0 n).
  { apply NoDup_submseteq; [apply (inv_path_nodup _ _ _ Inv)|].
    intros x Hx. apply elem_of_seq. split; [lia|].
    simpl. by apply bounded, (inv_reach_path _ _ _ Inv). }
  apply submseteq_length in Hsub. by rewrite length_seq in Hsub.
Qed.

(** A loop of calls that each satisfy [visitPost]. *)
Lemma forEach_visit (fuel : nat) (targets : list ref) (st : TopoState) :
  (forall d st0,
     TopoInv heap roots st0 -> path st0 = path st ->
     d ∈ targets ->
     visitPost heap roots [d] st0 (visit heap fuel d st0)) ->
  TopoInv heap roots st ->
  visitPost heap roots targets st (forEach targets (visit heap fuel) st).
Proof.
  intros Hvisit. revert st Hvisit.
  induction targets as [|d rest IH]; intros st Hvisit Inv.
  - cbn. split; [done|]. split; [done|]. split; [exists []; by rewrite app_nil_r|].
    intros v Hv. by apply elem_of_nil in Hv.
  - cbn [forEach]. rewrite bind_unfold.
    pose proof (Hvisit d st Inv eq_refl (list_elem_of_here _ _)) as Hd.
    destruct (visit heap fuel d st) as [[[]|e|] st1]; cbn in Hd |- *; [|done..].
    destruct Hd as (Inv1 & Hpath1 & [new1 Hres1] & Hin1).
    specialize (IH st1).
    assert (Hrest : visitPost heap roots rest st1
                      (forEach rest (visit heap fuel) st1)).
    { apply IH; [|done]. intros d' st0 Inv0 Hp0 Hd'.
      apply Hvisit; [done|congruence|by apply list_elem_of_further]. }
    destruct (forEach rest (visit heap fuel) st1) as [[[]|e|] st2];
      cbn in Hrest |- *; [|done..].
    destruct Hrest as (Inv2 & Hpath2 & [new2 Hres2] & Hin2).
    split; [done|]. split; [congruence|]. split.
    + exists (new1 ++ new2). by rewrite Hres2, Hres1, app_assoc.
    + intros v Hv. apply elem_of_cons in Hv as [->|Hv]; [|by apply Hin2].
      rewrite Hres2. apply elem_of_app. left. apply Hin1, list_elem_of_here.
Qed.


Lemma visit_spec (fuel : nat) (d : ref) (st : TopoState) :
  TopoInv heap roots st ->
  reachable heap roots d ->
  (forall a, last (path st) = Some a -> d ∈ edges heap a) ->
  n < length (path st) + fuel ->
  visitPost heap roots [d] st (visit heap fuel d st).
Proof.
  revert d st. induction fuel as [|fuel IH]; intros d st Inv Hd Hedge Hfuel.
  { pose proof (path_length st Inv). cbn. lia. }
  cbn [visit]. rewrite bind_unfold. unfold get.
  case_bool_decide as Hvis.
  { cbn. split; [done|]. split; [done|].
    split; [exists []; by rewrite app_nil_r|].
    intros v Hv. apply list_elem_of_singleton in Hv as ->.
    by apply (inv_visited _ _ _ Inv). }
  destruct (indexOf (path st) d) as [k|] eqn:Hidx.
  { apply indexOf_Some in Hidx. cbn.
    exists (drop k (path st) ++ [d]). split; [done|].
    split; [by apply cycle_found; [apply (inv_path_chain _ _ _ Inv)|..]|].
    intros x Hx. apply elem_of_app in Hx as [Hx|Hx].
    - apply (inv_reach_path _ _ _ Inv).
      apply list_elem_of_lookup in Hx as [i Hi]. rewrite lookup_drop in Hi.
      by eapply list_elem_of_lookup_2.
    - by apply list_elem_of_singleton in Hx as ->. }
  apply indexOf_None in Hidx.
  rewrite bind_unfold. unfold modify at 1. cbv beta iota.
  set (st1 := {| result := result st; visited := visited st;
                 path := path st ++ [d] |}).
  assert (Inv1 : TopoInv heap roots st1).
  { destruct Inv. split; cbn; try done.
    - apply NoDup_app. split; [done|]. split; [|apply NoDup_singleton].
      intros x Hx Hx'. by apply list_elem_of_singleton in Hx' as ->.
    - intros x Hx. apply elem_of_app in Hx as [Hx|Hx]; [by auto|].
      by apply list_elem_of_singleton in Hx as ->.
    - by apply chain_snoc.
    - intros x Hx. apply elem_of_app in Hx as [Hx|Hx]; [by auto|].
      by apply list_elem_of_singleton in Hx as ->. }
  assert (Hloop : visitPost heap roots (edges heap d) st1
                    (forEach (edges heap d) (visit heap fuel) st1)).
  { apply forEach_visit; [|done]. intros d' st0 Inv0 Hp0 Hd'.
    apply IH; [done|by eapply reachable_step| |].
    - intros a. rewrite Hp0. cbn. rewrite last_snoc. by intros [= <-].
    - rewrite Hp0. cbn. rewrite length_app. cbn. lia. }
  fold (edges heap d). rewrite bind_unfold.
  destruct (forEach (edges heap d) (visit heap fuel) st1) as [[[]|e|] st2];
    [|exact Hloop..].
  destruct Hloop as (Inv2 & Hpath2 & [new Hres2] & Hin2).
  repeat (rewrite bind_unfold; unfold modify; cbv beta iota).
  unfold modify, visitPost. subst st1. cbn [result visited path] in *.
  rewrite Hpath2, removelast_last.
  assert (Hfresh : d ∉ result st2).
  { intros Hin. apply (inv_visited _ _ _ Inv2) in Hin.
    revert Hin. apply (inv_path_fresh _ _ _ Inv2).
    rewrite Hpath2. apply elem_of_app. right. apply list_elem_of_here. }
  split; [|split; [done|split]].
  - destruct Inv2 as [N2 V2 C2 PN2 PF2 PC2 RR2 RP2]. split; cbn.
    + apply NoDup_app. split; [done|]. split; [|apply NoDup_singleton].
      intros x Hx Hx'. by apply list_elem_of_singleton in Hx' as ->.
    + intros x. rewrite elem_of_union, elem_of_singleton, elem_of_app,
        list_elem_of_singleton, V2. tauto.
    + intros i u v Hi Hv.
      destruct (decide (i < length (result st2))) as [Hlt|Hge].
      * rewrite lookup_app_l in Hi by done.
        destruct (C2 i u v Hi Hv) as (j & Hj & Hjv).
        exists j. split; [done|]. rewrite lookup_app_l; [done|lia].
      * assert (i = length (result st2)) as ->.
        { apply lookup_lt_Some in Hi. rewrite length_app in Hi. cbn in Hi. lia. }
        rewrite lookup_app_r, Nat.sub_diag in Hi by lia. injection Hi as <-.
        apply Hin2 in Hv. apply list_elem_of_lookup in Hv as [j Hj].
        exists j. split; [by eapply lookup_lt_Some|].
        rewrite lookup_app_l; [done|by eapply lookup_lt_Some].
    + apply (inv_path_nodup _ _ _ Inv).
    + intros x Hx. rewrite elem_of_union, elem_of_singleton.
      intros [->|Hx']; [done|]. revert Hx'. apply PF2.
      rewrite Hpath2. apply elem_of_app. by left.
    + apply (inv_path_chain _ _ _ Inv).
    + intros x Hx. apply elem_of_app in Hx as [Hx|Hx]; [by auto|].
      by apply list_elem_of_singleton in Hx as ->.
    + apply (inv_reach_path _ _ _ Inv).
  - exists (new ++ [d]). by rewrite Hres2, app_assoc.
  - intros v Hv. apply list_elem_of_singleton in Hv as ->.
    apply elem_of_app. right. apply list_elem_of_here.
Qed.

Lemma chain_tail (a : ref) (q : list ref) : chain heap (a :: q) -> chain heap q.
Proof. intros H i x y Hx Hy. by apply (H (S i) x y). Qed.

(** Along a chain of two or more derivations that all occur in a closed
    order, the last one occurs before the first. *)
Lemma chain_descends (order : list ref) (q : list ref) (a b : ref) (i : nat) :
  (forall i u v, order !! i = Some u -> v ∈ edges heap u ->
                 exists j, j < i /\ order !! j = Some v) ->
  chain heap (a :: q) -> last (a :: q) = Some b -> q <> [] ->
  order !! i = Some a ->
  exists j, j < i /\ order !! j = Some b.
Proof.
  intros Hclosed. revert a i. induction q as [|c q IH]; intros a i Hc Hl Hq Hi; [done|].
  assert (Hedge : c ∈ edges heap a) by (by apply (Hc 0 a c)).
  destruct (Hclosed i a c Hi Hedge) as (j & Hj & Hjc).
  destruct q as [|c' q'].
  - cbn in Hl. injection Hl as <-. eauto.
  - destruct (IH c j) as (j' & Hj' & Hb); [by eapply chain_tail|done|done|done|].
    exists j'. split; [lia|done].
Qed.

Lemma topoSort_start_inv :
  TopoInv heap roots {| result := []; visited := ∅; path := [] |}.
Proof.
  split; cbn; try (intros; set_solver).
  - apply NoDup_nil_2.
  - apply NoDup_nil_2.
  - intros i a b Ha. by rewrite lookup_nil in Ha.
Qed.

Lemma topoSort_outcome (fuel : nat) :
  n < fuel ->
  match topoSort heap fuel roots with
  | Ok order =>
      NoDup order /\
      (forall x, x ∈ order <-> reachable heap roots x) /\
      (forall i u v, order !! i = Some u -> v ∈ edges heap u ->
                     exists j, j < i /\ order !! j = Some v)
  | Throw e =>
      exists p, e = Error (cycleMessage heap p) /\ cyclePath heap p /\
                forall x, x ∈ p -> reachable heap roots x
  | Exhausted => False
  end.
Proof.
  intros Hfuel. unfold topoSort.
  set (start := {| result := []; visited := ∅; path := [] |}).
  assert (Hloop : visitPost heap roots roots start
                    (forEach roots (visit heap fuel) start)).
  { apply forEach_visit; [|apply topoSort_start_inv].
    intros d st0 Inv0 Hp0 Hd.
    apply visit_spec; [done|by apply reachable_root| |].
    - rewrite Hp0. cbn. done.
    - rewrite Hp0. cbn. lia. }
  destruct (forEach roots (visit heap fuel) start) as [[[]|e|] st];
    [|exact Hloop..].
  destruct Hloop as (Inv & _ & _ & Hroots).
  split; [apply (inv_nodup _ _ _ Inv)|]. split; [|apply (inv_closed _ _ _ Inv)].
  intros x. split; [apply (inv_reach_result _ _ _ Inv)|].
  induction 1 as [r Hr|u v _ IH Hv]; [by apply Hroots|].
  apply list_elem_of_lookup in IH as [i Hi].
  destruct (inv_closed _ _ _ Inv i u v Hi Hv) as (j & _ & Hj).
  by eapply list_elem_of_lookup_2.
Qed.

(** A closed order without repetition leaves no room for a cycle. *)
Lemma closed_order_acyclic (order : list ref) :
  NoDup order ->
  (forall x, reachable heap roots x -> x ∈ order) ->
  (forall i u v, order !! i = Some u -> v ∈ edges heap u ->
                 exists j, j < i /\ order !! j = Some v) ->
  acyclic heap roots.
Proof.
  intros Hnd Hall Hclosed (p & [Hchain (x & mid & ->)] & Hreach).
  assert (Hx : x ∈ order) by (apply Hall, Hreach, list_elem_of_here).
  apply list_elem_of_lookup in Hx as [i Hi].
  destruct (chain_descends order (mid ++ [x]) x x i) as (j & Hj & Hjx);
    [done|done| |by destruct mid|done|].
  - change (x :: mid ++ [x]) with ((x :: mid) ++ [x]). apply last_snoc.
  - pose proof (NoDup_lookup _ _ _ _ Hnd Hi Hjx). lia.
Qed.

(** A rank that falls along every edge in reach rules out cycles. *)
Lemma ranked_acyclic (rank : ref -> nat) :
  (forall u v, reachable heap roots u -> v ∈ edges heap u -> rank v < rank u) ->
  acyclic heap roots.
Proof.
  intros Hrank (p & [Hchain (x & mid & ->)] & Hreach).
  assert (Hfall : forall q a b,
            chain heap (a :: q) -> last (a :: q) = Some b -> q <> [] ->
            (forall y, y ∈ a :: q -> reachable heap roots y) ->
            rank b < rank a).
  { induction q as [|c q IH]; intros a b Hc Hl Hq Hr; [done|].
    assert (rank c < rank a).
    { apply Hrank; [apply Hr, list_elem_of_here|by apply (Hc 0 a c)]. }
    destruct q as [|c' q'].
    - cbn in Hl. by injection Hl as <-.
    - assert (rank b < rank c); [|lia].
      apply IH; [by eapply chain_tail|done|done|].
      intros y Hy. by apply Hr, list_elem_of_further. }
  assert (rank x < rank x); [|lia].
  apply (Hfall (mid ++ [x])); [done| |by destruct mid|done].
  change (x :: mid ++ [x]) with ((x :: mid) ++ [x]). apply last_snoc.
Qed.

End TopoSort.

(** C3: for a graph whose derivations in reach are among the first [n]
    objects, and a recursion bound above [n]: if a cycle can be reached,
    [topoSort] throws the error whose message spells out a cycle path (a
    chain of inputs that ends where it starts); if none can, it returns an
    order that holds each derivation in reach, and no other, exactly once,
    with every input of a derivation at a strictly smaller index. *)
Theorem topoSort_spec (heap : Heap) (roots : list ref) (n fuel : nat) :
  (forall x, reachable heap roots x -> x < n) ->
  n < fuel ->
  (cyclic heap roots ->
   exists p,
     topoSort heap fuel roots = Throw (Error (cycleMessage heap p)) /\
     cyclePath heap p /\ forall x, x ∈ p -> reachable heap roots x) /\
  (acyclic heap roots ->
   exists order,
     topoSort heap fuel roots = Ok order /\
     NoDup order /\
     (forall x, x ∈ order <-> reachable heap roots x) /\
     (forall i u v, order !! i = Some u -> v ∈ edges heap u ->
                    exists j, j < i /\ order !! j = Some v)).
Proof.
  intros Hbound Hfuel.
  pose proof (topoSort_outcome heap roots n Hbound fuel Hfuel) as H.
  destruct (topoSort heap fuel roots) as [order|e|]; [| |done].
  - destruct H as (Hnd & Hall & Hclosed). split.
    + intros Hcyc. exfalso.
      apply (closed_order_acyclic heap roots order); [done| |done|done].
      intros x. apply Hall.
    + intros _. exists order. done.
  - destruct H as (p & -> & Hp & Hreach). split.
    + intros _. exists p. done.
    + intros Hacyc. exfalso. apply Hacyc. exists p. done.
Qed.

Lemma topoSort_spec_witness :
  (exists order,
     topoSort Scenario.objects 8 [6] = Ok order /\
     NoDup order /\
     (forall x, x ∈ order <-> reachable Scenario.objects [6] x) /\
     (forall i u v, order !! i = Some u -> v ∈ edges Scenario.objects u ->
                    exists j, j < i /\ order !! j = Some v)) /\
  (exists p,
     topoSort Scenario.objects 13 [9] = Throw (Error (cycleMessage Scenario.objects p)) /\
     cyclePath Scenario.objects p /\
     forall x, x ∈ p -> reachable Scenario.objects [9] x).
Proof.
  split.
  - assert (Hb : forall x, reachable Scenario.objects [6] x -> 3 <= x < 7).
    { induction 1 as [r Hr|u v _ IH Hv].
      - apply list_elem_of_singleton in Hr as ->. lia.
      - do 7 (destruct u as [|u]; [vm_compute in Hv; set_solver by lia|]). lia. }
    apply (topoSort_spec Scenario.objects [6] 7 8);
      [intros x Hx; apply Hb in Hx; lia|lia|].
    apply (ranked_acyclic _ _ (fun x => if decide (x = 3) then 0 else
                                        if decide (x = 6) then 2 else 1)).
    intros u v Hu Hv. apply Hb in Hu.
    do 7 (destruct u as [|u]; [vm_compute in Hv; try lia; set_solver by lia|]). lia.
  - assert (Hb : forall x, reachable Scenario.objects [9] x -> 9 <= x < 12).
    { induction 1 as [r Hr|u v _ IH Hv].
      - apply list_elem_of_singleton in Hr as ->. lia.
      - do 12 (destruct u as [|u]; [vm_compute in Hv; set_solver by lia|]). lia. }
    apply (topoSort_spec Scenario.objects [9] 12 13);
      [intros x Hx; apply Hb in Hx; lia|lia|].
    exists [9; 10; 11; 9]. split; [split|].
    + intros i a b Ha Hb'.
      do 3 (destruct i as [|i];
            [vm_compute in Ha, Hb'; injection Ha as <-; injection Hb' as <-;
             vm_compute; set_solver|]).
      destruct i; discriminate.
    + exists 9, [10; 11]. reflexivity.
    + intros x Hx.
      assert (reachable Scenario.objects [9] 9) as H9
        by (apply reachable_root, list_elem_of_here).
      assert (reachable Scenario.objects [9] 10) as H10
        by (eapply reachable_step; [exact H9|vm_compute; set_solver]).
      assert (reachable Scenario.objects [9] 11) as H11
        by (eapply reachable_step; [exact H10|vm_compute; set_solver]).
      set_solver.
Defined.

(* ===================================================================== *)
(** * The order of strings *)
(* ===================================================================== *)

Lemma strLtb_irrefl (a : jsstring) : strLtb a a = false.
Proof.
  induction a as [|x a IH]; [done|]. cbn [strLtb].
  rewrite N.ltb_irrefl, N.eqb_refl, IH. done.
Qed.

Lemma strLtb_trichotomy (a b : jsstring) :
  strLtb a b = true \/ a = b \/ strLtb b a = true.
Proof.
  revert b. induction a as [|x a IH]; intros [|y b]; cbn [strLtb]; auto.
  destruct (N.lt_trichotomy x y) as [Hlt|[->|Hgt]].
  - left. apply N.ltb_lt in Hlt. by rewrite Hlt.
  - rewrite N.ltb_irrefl, N.eqb_refl. cbn [orb andb].
    destruct (IH b) as [H|[->|H]]; auto.
  - right. right. apply N.ltb_lt in Hgt. by rewrite Hgt.
Qed.

Lemma strLtb_trans (a b c : jsstring) :
  strLtb a b = true -> strLtb b c = true -> strLtb a c = true.
Proof.
  revert b c. induction a as [|x a IH]; intros [|y b] [|z c]; cbn [strLtb];
    try done.
  rewrite !orb_true_iff, !andb_true_iff, !N.ltb_lt, !N.eqb_eq.
  intros [Hxy|[-> Hab]] [Hyz|[-> Hbc]]; [left; lia|by left|by left|].
  right. split; [done|]. by eapply IH.
Qed.

Lemma strLtb_asym (a b : jsstring) : strLtb a b = true -> strLtb b a = false.
Proof.
  intros H. destruct (strLtb b a) eqn:E; [|done].
  pose proof (strLtb_trans _ _ _ H E) as Haa. by rewrite strLtb_irrefl in Haa.
Qed.

#[export] Instance strLe_total : Total strLe.
Proof.
  intros a b. unfold strLe, strLeb.
  destruct (strLtb b a) eqn:E; [right|by left].
  by rewrite (strLtb_asym _ _ E).
Qed.

#[export] Instance strLe_antisym : AntiSymm (=) strLe.
Proof.
  intros a b. unfold strLe, strLeb. rewrite !negb_true_iff. intros Hba Hab.
  destruct (strLtb_trichotomy a b) as [H|[H|H]]; congruence.
Qed.

#[export] Instance strLe_trans : Transitive strLe.
Proof.
  intros a b c. unfold strLe, strLeb. rewrite !negb_true_iff. intros Hba Hcb.
  destruct (strLtb c a) eqn:Hca; [|done].
  destruct (strLtb_trichotomy a b) as [H|[->|H]]; [|congruence..].
  pose proof (strLtb_trans _ _ _ Hca H). congruence.
Qed.

Lemma sort_Permutation (ks : list jsstring) : sort ks ≡ₚ ks.
Proof. apply merge_sort_Permutation. Qed.

Lemma sort_sorted (ks : list jsstring) : StronglySorted strLe (sort ks).
Proof. apply StronglySorted_merge_sort; apply _. Qed.

(** [sort] looks at the set of keys only. *)
Lemma sort_perm_eq (ks1 ks2 : list jsstring) : ks1 ≡ₚ ks2 -> sort ks1 = sort ks2.
Proof.
  intros H. apply (StronglySorted_unique strLe); [apply sort_sorted..|].
  by rewrite !sort_Permutation.
Qed.

(* ===================================================================== *)
(** * Array-index keys *)
(* ===================================================================== *)

Lemma digitsValue_snoc (s : jsstring) (c : N) :
  digitsValue (s ++ [c]) = (digitsValue s * 10 + (c - 48))%N.
Proof. unfold digitsValue. by rewrite foldl_app. Qed.

Lemma isDigit_range (c : N) : isDigit c = true <-> (48 <= c <= 57)%N.
Proof. unfold isDigit. rewrite andb_true_iff, !N.leb_le. done. Qed.

Lemma digitsValue_lt (s : jsstring) :
  forallb isDigit s = true -> (digitsValue s < 10 ^ N.of_nat (length s))%N.
Proof.
  induction s as [|c s IH] using rev_ind; [intros _; cbn; lia|].
  rewrite forallb_app, andb_true_iff. cbn [forallb]. rewrite andb_true_r.
  intros [Hs Hc]. apply isDigit_range in Hc. specialize (IH Hs).
  rewrite digitsValue_snoc, length_app. cbn [length].
  replace (N.of_nat (length s + 1)) with (N.succ (N.of_nat (length s))) by lia.
  rewrite N.pow_succ_r'. lia.
Qed.

Lemma digitsValue_ge (c : N) (s : jsstring) :
  forallb isDigit (c :: s) = true -> c <> 48%N ->
  (10 ^ N.of_nat (length s) <= digitsValue (c :: s))%N.
Proof.
  induction s as [|d s IH] using rev_ind.
  - cbn. rewrite andb_true_r. intros Hc Hne. apply isDigit_range in Hc.
    unfold digitsValue. cbn. lia.
  - rewrite app_comm_cons, forallb_app, andb_true_iff. cbn [forallb].
    rewrite andb_true_r. intros [Hs Hd] Hne. specialize (IH Hs Hne).
    rewrite digitsValue_snoc, length_app. cbn [length].
    replace (N.of_nat (length s + 1)) with (N.succ (N.of_nat (length s))) by lia.
    rewrite N.pow_succ_r'. lia.
Qed.

(** Digit strings of one length and one value are the same string. *)
Lemma digitsValue_inj_length (a b : jsstring) :
  length a = length b ->
  forallb isDigit a = true -> forallb isDigit b = true ->
  digitsValue a = digitsValue b -> a = b.
Proof.
  revert b. induction a as [|x a IH] using rev_ind; intros b Hlen Ha Hb Hv.
  - destruct b; [done|discriminate].
  - destruct b as [|y b _] using rev_ind.
    { rewrite length_app in Hlen. cbn in Hlen. lia. }
    rewrite !length_app in Hlen. cbn in Hlen.
    rewrite forallb_app, andb_true_iff in Ha, Hb. cbn [forallb] in Ha, Hb.
    rewrite andb_true_r in Ha, Hb. destruct Ha as [Ha Hx], Hb as [Hb Hy].
    apply isDigit_range in Hx, Hy. rewrite !digitsValue_snoc in Hv.
    assert (x = y) as -> by lia.
    f_equal. apply IH; [lia|done|done|lia].
Qed.

Lemma arrayIndex_Some (k : jsstring) (n : N) :
  arrayIndex k = Some n ->
  n = digitsValue k /\ forallb isDigit k = true /\
  exists c rest, k = c :: rest /\ (c <> 48%N \/ rest = []).
Proof.
  unfold arrayIndex. destruct k as [|c rest]; [discriminate|].
  destruct (forallb isDigit (c :: rest)) eqn:Hd; [|discriminate].
  cbn [andb].
  destruct (negb (c =? 48)%N || bool_decide (rest = [])) eqn:Hc; [|discriminate].
  cbn [andb].
  destruct (bool_decide (length (c :: rest) <= 10)); [|discriminate].
  cbn [andb].
  destruct (digitsValue (c :: rest) <=? 4294967294)%N; [|discriminate].
  intros [= <-]. split; [done|]. split; [done|]. exists c, rest. split; [done|].
  apply orb_true_iff in Hc as [Hc|Hc].
  - left. apply negb_true_iff, N.eqb_neq in Hc. done.
  - right. by apply bool_decide_eq_true in Hc.
Qed.

(** An array index has one spelling. *)
Lemma arrayIndex_inj (a b : jsstring) (n : N) :
  arrayIndex a = Some n -> arrayIndex b = Some n -> a = b.
Proof.
  intros Ha Hb.
  apply arrayIndex_Some in Ha as (Hna & Hda & ca & ra & -> & Hca).
  apply arrayIndex_Some in Hb as (Hnb & Hdb & cb & rb & -> & Hcb).
  assert (Hv : digitsValue (ca :: ra) = digitsValue (cb :: rb)) by congruence.
  apply digitsValue_inj_length; [|done..].
  pose proof (digitsValue_lt _ Hda) as Ua. pose proof (digitsValue_lt _ Hdb) as Ub.
  assert (Hzero : forall c r, forallb isDigit (c :: r) = true ->
                    (c <> 48%N \/ r = []) -> digitsValue (c :: r) = 0%N ->
                    c :: r = [48%N]).
  { intros c r Hd [Hc| ->] H0.
    - pose proof (digitsValue_ge c r Hd Hc) as L.
      assert (0 < 10 ^ N.of_nat (length r))%N; [|lia].
      apply N.neq_0_lt_0, N.pow_nonzero. lia.
    - cbn in Hd. rewrite andb_true_r in Hd. apply isDigit_range in Hd.
      unfold digitsValue in H0. cbn in H0. f_equal. lia. }
  destruct (decide (digitsValue (ca :: ra) = 0%N)) as [Hz|Hnz].
  { rewrite (Hzero ca ra), (Hzero cb rb) by (done || congruence). done. }
  assert (Hca' : ca <> 48%N).
  { destruct Hca as [?| ->]; [done|]. intros ->. by apply Hnz. }
  assert (Hcb' : cb <> 48%N).
  { destruct Hcb as [?| ->]; [done|]. intros ->. apply Hnz. by rewrite Hv. }
  pose proof (digitsValue_ge ca ra Hda Hca') as La.
  pose proof (digitsValue_ge cb rb Hdb Hcb') as Lb.
  cbn [length] in *.
  destruct (Nat.lt_trichotomy (length ra) (length rb)) as [Hlt|[Heq|Hgt]];
    [|by rewrite Heq|].
  - assert (10 ^ N.of_nat (S (length ra)) <= 10 ^ N.of_nat (length rb))%N
      by (apply N.pow_le_mono_r; lia). lia.
  - assert (10 ^ N.of_nat (S (length rb)) <= 10 ^ N.of_nat (length ra))%N
      by (apply N.pow_le_mono_r; lia). lia.
Qed.

(* ===================================================================== *)
(** * Objects: where a property goes *)
(* ===================================================================== *)

#[export] Instance indexLe_total : Total indexLe.
Proof. intros a b. unfold indexLe. lia. Qed.

#[export] Instance indexLe_trans : Transitive indexLe.
Proof. intros a b c. unfold indexLe. lia. Qed.

Lemma indexLe_antisym (a b : jsstring) :
  isIndexKey a -> isIndexKey b -> indexLe a b -> indexLe b a -> a = b.
Proof.
  intros [n Hn] [m Hm]. unfold indexLe, indexValue. rewrite Hn, Hm. cbn.
  intros H1 H2. assert (n = m) as -> by lia. by eapply arrayIndex_inj.
Qed.

Lemma protoKey_plain : arrayIndex protoKey = None.
Proof. reflexivity. Qed.

Section Properties.

Context {V : Type}.
Implicit Types (o : list (jsstring * V)) (k : jsstring) (v : V).

Lemma strEqb_true (a b : jsstring) : strEqb a b = true <-> a = b.
Proof. unfold strEqb. apply bool_decide_eq_true. Qed.

Lemma strEqb_false (a b : jsstring) : strEqb a b = false <-> a <> b.
Proof. unfold strEqb. apply bool_decide_eq_false. Qed.

Lemma hasOwn_true o k : hasOwn o k = true <-> k ∈ keys o.
Proof.
  unfold hasOwn, keys. rewrite existsb_exists. split.
  - intros ([k' v] & Hin & Heq). apply strEqb_true in Heq. cbn in Heq. subst.
    apply list_elem_of_fmap. exists (k, v). split; [done|by apply list_elem_of_In].
  - intros Hin. apply list_elem_of_fmap in Hin as ([k' v] & -> & Hin).
    exists (k', v). split; [by apply list_elem_of_In|by apply strEqb_true].
Qed.

Lemma hasOwn_false o k : hasOwn o k = false <-> k ∉ keys o.
Proof.
  rewrite <- hasOwn_true. destruct (hasOwn o k); split; done.
Qed.

(** A new index key goes between the smaller and the other indices. *)
Lemma insertIndex_sorted (A B : list (jsstring * V)) (n : N) k v :
  Forall isIndexKey (keys A) ->
  Forall (fun r => arrayIndex r = None) (keys B) ->
  StronglySorted indexLe (keys A) ->
  exists A1 A2,
    A = A1 ++ A2 /\
    insertIndex (A ++ B) n k v = A1 ++ (k, v) :: A2 ++ B /\
    Forall (fun i => (indexValue i < n)%N) (keys A1) /\
    Forall (fun i => (n <= indexValue i)%N) (keys A2).
Proof.
  induction A as [|[a va] A IH]; intros HA HB Hs.
  - exists [], []. split; [done|]. split; [|by split].
    destruct B as [|[b vb] B]; [done|]. cbn.
    apply Forall_cons in HB as [Hb _]. cbn in Hb. by rewrite Hb.
  - cbn [keys map fst] in HA, Hs. apply Forall_cons in HA as [[m Hm] HA].
    apply StronglySorted_inv in Hs as [Hs Hall].
    cbn [app insertIndex]. rewrite Hm.
    destruct (m <? n)%N eqn:Hmn.
    + destruct (IH HA HB Hs) as (A1 & A2 & -> & -> & H1 & H2).
      exists ((a, va) :: A1), A2. split; [done|]. split; [done|]. split; [|done].
      cbn. apply Forall_cons. split; [|done].
      unfold indexValue. rewrite Hm. cbn. by apply N.ltb_lt.
    + exists [], ((a, va) :: A). split; [done|]. split; [done|]. split; [done|].
      apply N.ltb_ge in Hmn. cbn. apply Forall_cons.
      assert (Ha : (n <= indexValue a)%N) by (unfold indexValue; by rewrite Hm).
      split; [done|]. eapply Forall_impl; [exact Hall|].
      intros x Hx. unfold indexLe in Hx. lia.
Qed.

(** The object that the replacer builds from keys [S], none twice, with
    the value [g k] at [k]. *)
Lemma replacer_fold (g : jsstring -> V) (S : list jsstring) :
  NoDup S ->
  exists I,
    foldl (fun sorted key => setProp sorted key (g key)) [] S
    = map (fun k => (k, g k)) (I ++ filter plainKey S) /\
    I ≡ₚ filter isIndexKey S /\
    StronglySorted indexLe I.
Proof.
  induction S as [|k P IH] using rev_ind; intros Hnd.
  { exists []. split; [done|]. split; [done|constructor]. }
  apply NoDup_app in Hnd as (HndP & Hfresh & _).
  assert (HkP : k ∉ P).
  { intros Hin. apply (Hfresh k Hin), list_elem_of_here. }
  destruct (IH HndP) as (I & Hacc & Hperm & Hsorted). clear IH.
  rewrite foldl_app. cbn [foldl]. rewrite Hacc. rewrite !filter_app.
  set (f := fun k => (k, g k)).
  assert (Hkeys : keys (map f (I ++ filter plainKey P)) = I ++ filter plainKey P).
  { unfold keys. rewrite <- list_fmap_compose. apply list_fmap_id. }
  assert (Hown : hasOwn (map f (I ++ filter plainKey P)) k = false).
  { apply hasOwn_false. rewrite Hkeys. intros Hin.
    apply elem_of_app in Hin as [Hin|Hin].
    - rewrite Hperm in Hin. by apply list_elem_of_filter in Hin as [_ ?].
    - by apply list_elem_of_filter in Hin as [_ ?]. }
  unfold setProp. rewrite Hown. cbn [negb]. rewrite andb_true_r.
  destruct (strEqb k protoKey) eqn:Hproto.
  { apply strEqb_true in Hproto as ->. exists I.
    rewrite (filter_cons_False plainKey) by (intros [_ ?]; done).
    rewrite (filter_cons_False isIndexKey)
      by (unfold isIndexKey; rewrite protoKey_plain; by intros [? ?]).
    cbn [filter]. rewrite !app_nil_r. done. }
  apply strEqb_false in Hproto.
  unfold defineProp. rewrite Hown.
  destruct (arrayIndex k) as [n|] eqn:Hidx.
  - rewrite (filter_cons_False plainKey) by (intros [? _]; congruence).
    rewrite (filter_cons_True isIndexKey) by (unfold isIndexKey; by rewrite Hidx).
    cbn [filter]. rewrite app_nil_r. rewrite map_app.
    destruct (insertIndex_sorted (map f I) (map f (filter plainKey P)) n k (g k))
      as (A1 & A2 & HA & -> & H1 & H2).
    + unfold keys. rewrite <- list_fmap_compose, list_fmap_id.
      rewrite Hperm. apply Forall_forall. intros x Hx.
      by apply list_elem_of_filter in Hx as [? _].
    + unfold keys. rewrite <- list_fmap_compose, list_fmap_id.
      apply Forall_forall. intros x Hx.
      by apply list_elem_of_filter in Hx as [[? _] _].
    + unfold keys. by rewrite <- list_fmap_compose, list_fmap_id.
    + apply fmap_app_inv in HA as (I1 & I2 & -> & -> & ->).
      unfold keys in H1, H2. rewrite <- list_fmap_compose, list_fmap_id in H1, H2.
      exists (I1 ++ k :: I2). split; [|split].
      * rewrite <- !app_assoc, !map_app. cbn [map app]. done.
      * rewrite <- Hperm, <- Permutation_middle. apply Permutation_cons_append.
      * apply StronglySorted_app in Hsorted as (H12 & Hs1 & Hs2).
        apply StronglySorted_app. split; [|split; [done|]].
        -- intros x1 x2 Hx1 Hx2. unfold indexLe.
           rewrite Forall_forall in H1. specialize (H1 x1 Hx1).
           apply elem_of_cons in Hx2 as [->|Hx2].
           ++ unfold indexValue at 2. rewrite Hidx. cbn. lia.
           ++ rewrite Forall_forall in H2. specialize (H2 x2 Hx2). lia.
        -- constructor; [done|]. eapply Forall_impl; [exact H2|].
           intros x Hx. unfold indexLe, indexValue at 1. rewrite Hidx. done.
  - rewrite (filter_cons_True plainKey) by done.
    rewrite (filter_cons_False isIndexKey)
      by (unfold isIndexKey; rewrite Hidx; by intros [? ?]).
    rewrite !filter_nil, app_nil_r. exists I. split; [|done].
    rewrite app_assoc, !map_app. done.
Qed.

End Properties.

(** The copy that the replacer makes of an object: its keys are in the
    order of the code, its values are those of the object. *)
Lemma replacer_object (o : props) :
  NoDup (keys o) ->
  replacer (JObj o) = JObj (map (fun k => (k, getProp o k)) (codeOrder (keys o))).
Proof.
  intros Hnd. cbn [replacer]. f_equal.
  destruct (replacer_fold (getProp o) (sort (keys o))) as (I & -> & Hperm & Hsorted).
  { by rewrite sort_Permutation. }
  unfold codeOrder. do 2 f_equal.
  apply (StronglySorted_unique_strong indexLe); [|done| |].
  - intros x1 x2 Hx1 Hx2. apply indexLe_antisym.
    + rewrite Hperm in Hx1. by apply list_elem_of_filter in Hx1 as [? _].
    + rewrite merge_sort_Permutation in Hx2.
      by apply list_elem_of_filter in Hx2 as [? _].
  - apply StronglySorted_merge_sort; apply _.
  - rewrite Hperm, merge_sort_Permutation. by rewrite sort_Permutation.
Qed.

(* ===================================================================== *)
(** * stableStringify: the recursion bound is enough *)
(* ===================================================================== *)

Lemma serialize_mono (rep : value -> value) (f : nat) (v : value)
    (r : option jsstring) :
  serialize f rep v = Some r -> serialize (S f) rep v = Some r.
Proof.
  revert v r. induction f as [|f IH]; intros v r; [discriminate|].
  intros H. cbn [serialize] in H |- *.
  destruct (rep v) as [| |[]| | |items|o]; try exact H.
  - apply bind_Some in H as (rendered & Hm & Hr).
    apply bind_Some. exists rendered. split; [|exact Hr].
    apply mapM_Some. apply mapM_Some in Hm.
    eapply Forall2_impl; [exact Hm|]. intros x y. apply IH.
  - apply bind_Some in H as (rendered & Hm & Hr).
    apply bind_Some. exists rendered. split; [|exact Hr].
    apply mapM_Some. apply mapM_Some in Hm.
    eapply Forall2_impl; [exact Hm|]. intros [k x] y Hxy.
    apply bind_Some in Hxy as (s & Hs & Hy).
    apply bind_Some. exists s. split; [by apply IH|done].
Qed.

Lemma serialize_mono_le (rep : value -> value) (f f' : nat) (v : value)
    (r : option jsstring) :
  f <= f' -> serialize f rep v = Some r -> serialize f' rep v = Some r.
Proof. intros Hle Hs. induction Hle; [done|by apply serialize_mono]. Qed.

Lemma height_pos (v : value) : 1 <= height v.
Proof. destruct v; cbn; lia. Qed.

Lemma height_item (items : list value) (x : value) :
  x ∈ items -> height x <= foldr (fun x h => Nat.max (height x) h) 0 items.
Proof.
  induction items as [|y items IH]; [by intros ?%elem_of_nil|].
  intros [->|Hin]%elem_of_cons; cbn [foldr]; [lia|]. specialize (IH Hin). lia.
Qed.

Lemma height_prop (o : props) (k : jsstring) (x : value) :
  (k, x) ∈ o -> height x <= foldr (fun p h => Nat.max (height p.2) h) 0 o.
Proof.
  induction o as [|[k' y] o IH]; [by intros ?%elem_of_nil|].
  intros [[= -> ->]|Hin]%elem_of_cons; cbn [foldr snd]; [lia|].
  specialize (IH Hin). lia.
Qed.

Lemma getProp_elem (o : props) (k : jsstring) :
  k ∈ keys o -> (k, getProp o k) ∈ o.
Proof.
  unfold getProp. induction o as [|[k' x] o IH]; [by intros ?%elem_of_nil|].
  cbn [keys map fst getOwn]. intros Hin.
  destruct (strEqb k' k) eqn:E.
  - apply strEqb_true in E as ->. cbn. apply list_elem_of_here.
  - apply strEqb_false in E. apply elem_of_cons in Hin as [->|Hin]; [done|].
    apply list_elem_of_further. by apply IH.
Qed.

Lemma getProp_height (o : props) (k : jsstring) :
  k ∈ keys o ->
  height (getProp o k) <= foldr (fun p h => Nat.max (height p.2) h) 0 o.
Proof. intros Hin. eapply height_prop, getProp_elem, Hin. Qed.

Section Entries.

Context {V : Type} (Q : jsstring * V -> Prop).

Lemma replaceProp_Forall (o : list (jsstring * V)) (k : jsstring) (v : V) :
  Forall Q o -> Q (k, v) -> Forall Q (replaceProp o k v).
Proof.
  intros Ho Hk. induction Ho as [|[k' v'] o Hq Ho IH]; [constructor|].
  cbn [replaceProp]. destruct (strEqb k' k); by constructor.
Qed.

Lemma insertIndex_Forall (o : list (jsstring * V)) (n : N) (k : jsstring) (v : V) :
  Forall Q o -> Q (k, v) -> Forall Q (insertIndex o n k v).
Proof.
  intros Ho Hk. induction Ho as [|[k' v'] o Hq Ho IH]; [by repeat constructor|].
  cbn [insertIndex]. destruct (arrayIndex k') as [m|].
  - destruct (m <? n)%N; by repeat constructor.
  - by repeat constructor.
Qed.

Lemma setProp_Forall (o : list (jsstring * V)) (k : jsstring) (v : V) :
  Forall Q o -> Q (k, v) -> Forall Q (setProp o k v).
Proof.
  intros Ho Hk. unfold setProp, defineProp.
  destruct (_ && _); [done|].
  destruct (hasOwn o k); [by apply replaceProp_Forall|].
  destruct (arrayIndex k); [by apply insertIndex_Forall|].
  apply Forall_app. by repeat constructor.
Qed.

Lemma replacer_fold_Forall (g : jsstring -> V) (S : list jsstring)
    (acc : list (jsstring * V)) :
  Forall Q acc -> (forall k, k ∈ S -> Q (k, g k)) ->
  Forall Q (foldl (fun sorted key => setProp sorted key (g key)) acc S).
Proof.
  revert acc. induction S as [|k S IH]; intros acc Hacc HS; [done|].
  cbn [foldl]. apply IH.
  - apply setProp_Forall; [done|]. apply HS, list_elem_of_here.
  - intros k' Hk'. by apply HS, list_elem_of_further.
Qed.

End Entries.

(** With a bound of at least the height of the value, the serialization
    does not run out. *)
Lemma serialize_total (f : nat) (v : value) :
  height v <= f -> is_Some (serialize f replacer v).
Proof.
  revert v. induction f as [|f IH]; intros v Hv.
  { pose proof (height_pos v). lia. }
  destruct v as [| |[]| | |items|o]; cbn [serialize replacer]; try done.
  - cbn [height] in Hv.
    destruct (mapM_is_Some_2 (serialize f replacer) items) as [rendered ->]; [|done].
    apply Forall_forall. intros x Hx. apply IH.
    pose proof (height_item items x Hx). lia.
  - cbn [height] in Hv.
    set (sorted := foldl _ _ _).
    destruct (mapM_is_Some_2
                (fun p : jsstring * value =>
                   r ← serialize f replacer p.2; Some (p.1, r)) sorted)
      as [rendered ->]; [|done].
    assert (Hs : Forall (fun p : jsstring * value => height p.2 <= f) sorted).
    { apply replacer_fold_Forall; [constructor|]. intros k Hk. cbn.
      rewrite sort_Permutation in Hk. pose proof (getProp_height o k Hk). lia. }
    eapply Forall_impl; [exact Hs|]. intros [k x] Hx. cbn in *.
    destruct (IH x Hx) as [r ->]. done.
Qed.

Lemma stableStringify_fuel (f : nat) (v : value) :
  height v <= f -> serialize f replacer v = Some (stableStringify v).
Proof.
  intros Hv. unfold stableStringify.
  destruct (serialize_total (height v) v (le_n _)) as [r Hr].
  rewrite Hr. cbn. by eapply serialize_mono_le.
Qed.

(* ===================================================================== *)
(** * stableStringify: the order of the keys *)
(* ===================================================================== *)

Lemma codeOrder_elem (ks : list jsstring) (k : jsstring) :
  k ∈ codeOrder ks -> k ∈ ks.
Proof.
  unfold codeOrder. intros [Hk|Hk]%elem_of_app.
  - rewrite merge_sort_Permutation in Hk.
    by apply list_elem_of_filter in Hk as [_ ?].
  - apply list_elem_of_filter in Hk as [_ Hk]. by rewrite sort_Permutation in Hk.
Qed.

Lemma mapM_fuel (f : nat) (o : props) (order : list jsstring) :
  (forall k, k ∈ order -> height (getProp o k) <= f) ->
  mapM (fun p : jsstring * value => r ← serialize f replacer p.2; Some (p.1, r))
       (map (fun k => (k, getProp o k)) order)
  = Some (map (fun k => (k, stableStringify (getProp o k))) order).
Proof.
  intros Hh. apply mapM_Some.
  induction order as [|k order IH]; [constructor|].
  cbn [map]. constructor.
  - cbn. rewrite stableStringify_fuel; [done|]. apply Hh, list_elem_of_here.
  - apply IH. intros k' Hk'. by apply Hh, list_elem_of_further.
Qed.

Lemma omap_rendered (g : jsstring -> option jsstring) (order : list jsstring) :
  omap (fun p : jsstring * option jsstring =>
          s ← p.2; Some (quote p.1 ++ js ":" ++ s))
       (map (fun k => (k, g k)) order)
  = omap (fun k => s ← g k; Some (quote k ++ js ":" ++ s)) order.
Proof.
  induction order as [|k order IH]; [done|].
  cbn [map omap list_omap]. cbn [fst snd]. rewrite <- IH. done.
Qed.

Lemma stableStringify_object (o : props) :
  NoDup (keys o) -> emitsInOrder codeOrder o.
Proof.
  intros Hnd. unfold emitsInOrder.
  unfold stableStringify at 1. cbn [height serialize].
  rewrite (replacer_object o Hnd).
  rewrite mapM_fuel.
  - cbn. by rewrite omap_rendered.
  - intros k Hk. apply getProp_height, codeOrder_elem, Hk.
Qed.

Lemma stableStringify_array (items : list value) :
  stableStringify (JArr items) =
  Some (js "[" ++
        join (js ",") (map (fun x => default (js "null") (stableStringify x)) items)
        ++ js "]").
Proof.
  unfold stableStringify at 1. cbn [height serialize replacer].
  assert (H : mapM (serialize (foldr (fun x h => Nat.max (height x) h) 0 items)
                      replacer) items
              = Some (map stableStringify items)).
  { apply mapM_Some. apply Forall2_fmap_r, Forall_Forall2_diag, Forall_forall.
    intros x Hx. apply stableStringify_fuel. by apply height_item. }
  rewrite H. cbn. by rewrite <- list_fmap_compose.
Qed.

Lemma StronglySorted_filter_keep {A} (R : relation A) (P : A -> Prop)
    `{forall x, Decision (P x)} (l : list A) :
  StronglySorted R l -> StronglySorted R (filter P l).
Proof.
  induction 1 as [|a l Hs IH Hall]; [constructor|].
  destruct (decide (P a)).
  - rewrite filter_cons_True by done. constructor; [done|].
    apply Forall_forall. intros b Hb. apply list_elem_of_filter in Hb as [_ Hb].
    rewrite Forall_forall in Hall. by apply Hall.
  - by rewrite filter_cons_False.
Qed.

Lemma strLe_strict (a b : jsstring) : strLe a b -> a <> b -> strLtb a b = true.
Proof.
  unfold strLe, strLeb. rewrite negb_true_iff. intros Hba Hne.
  destruct (strLtb_trichotomy a b) as [H|[H|H]]; [done|done|congruence].
Qed.

(** The order of the code, spelled out. *)
Lemma codeOrder_spec (ks : list jsstring) :
  NoDup ks ->
  exists indices others,
    codeOrder ks = indices ++ others /\
    indices ++ others ≡ₚ filter (fun k => k <> protoKey) ks /\
    Forall isIndexKey indices /\
    Forall (fun k => ~ isIndexKey k) others /\
    StronglySorted (fun a b => (indexValue a < indexValue b)%N) indices /\
    StronglySorted (fun a b => strLtb a b = true) others.
Proof.
  intros Hnd.
  exists (merge_sort indexLe (filter isIndexKey ks)), (filter plainKey (sort ks)).
  assert (Hnot : forall k, plainKey k -> ~ isIndexKey k).
  { intros k [Hn _]. unfold isIndexKey. rewrite Hn. by intros [? ?]. }
  split; [done|]. split; [|split; [|split; [|split]]].
  - rewrite merge_sort_Permutation, sort_Permutation.
    apply NoDup_Permutation.
    + apply NoDup_app. split; [by apply NoDup_filter|].
      split; [|by apply NoDup_filter].
      intros k [Hi _]%list_elem_of_filter [Hp _]%list_elem_of_filter.
      by apply (Hnot k).
    + by apply NoDup_filter.
    + intros k. rewrite elem_of_app, !list_elem_of_filter. split.
      * intros [[Hi Hk]|[[_ Hp] Hk]]; [|done]. split; [|done].
        intros ->. destruct Hi as [? Hi]. by rewrite protoKey_plain in Hi.
      * intros [Hp Hk]. unfold isIndexKey, plainKey.
        destruct (arrayIndex k); [left|right]; eauto.
  - apply Forall_forall. intros k Hk. rewrite merge_sort_Permutation in Hk.
    by apply list_elem_of_filter in Hk as [? _].
  - apply Forall_forall. intros k Hk. apply list_elem_of_filter in Hk as [Hp _].
    by apply Hnot.
  - assert (Hs : StronglySorted indexLe (merge_sort indexLe (filter isIndexKey ks)))
      by (apply StronglySorted_merge_sort; apply _).
    assert (Hd : NoDup (merge_sort indexLe (filter isIndexKey ks)))
      by (rewrite merge_sort_Permutation; by apply NoDup_filter).
    assert (Hi : Forall isIndexKey (merge_sort indexLe (filter isIndexKey ks))).
    { apply Forall_forall. intros k Hk. rewrite merge_sort_Permutation in Hk.
      by apply list_elem_of_filter in Hk as [? _]. }
    induction Hs as [|a l Hs IH Hall]; [constructor|].
    apply NoDup_cons in Hd as [Ha Hd]. apply Forall_cons in Hi as [Hia Hi].
    constructor; [by apply IH|].
    apply Forall_forall. intros b Hb.
    rewrite Forall_forall in Hall. specialize (Hall b Hb).
    rewrite Forall_forall in Hi. specialize (Hi b Hb).
    destruct (decide (indexValue a = indexValue b)) as [E|E].
    + exfalso. apply Ha. replace a with b; [done|].
      apply indexLe_antisym; unfold indexLe; [done|done|lia|lia].
    + unfold indexLe in Hall. lia.
  - assert (Hs : StronglySorted strLe (filter plainKey (sort ks)))
      by apply StronglySorted_filter_keep, sort_sorted.
    assert (Hd : NoDup (filter plainKey (sort ks)))
      by (apply NoDup_filter; by rewrite sort_Permutation).
    induction Hs as [|a l Hs IH Hall]; [constructor|].
    apply NoDup_cons in Hd as [Ha Hd].
    constructor; [by apply IH|].
    apply Forall_forall. intros b Hb.
    rewrite Forall_forall in Hall. apply strLe_strict; [by apply Hall|].
    by intros ->.
Qed.

Lemma filter_all {A} (P : A -> Prop) `{forall x, Decision (P x)} (l : list A) :
  Forall P l -> filter P l = l.
Proof.
  induction 1 as [|x l Hx Hl IH]; [done|].
  rewrite filter_cons_True by done. by rewrite IH.
Qed.

(** C4, as the code has it: [stableStringify] writes the keys of every
    object (its keys being distinct, as those of an object are, and none of
    them [__proto__]) in the order of the code, each with the serialization
    of its value, so that the same holds at every level of nesting, arrays
    being written item by item.  That order is: the keys that are array
    indices in ascending order of their number, then the other keys in
    ascending order of their UTF-16 code units. *)
Theorem stableStringify_key_order (o : props) (items : list value) :
  NoDup (keys o) ->
  protoKey ∉ keys o ->
  emitsInOrder codeOrder o /\
  stableStringify (JArr items) =
    Some (js "[" ++
          join (js ",") (map (fun x => default (js "null") (stableStringify x)) items)
          ++ js "]") /\
  exists indices others,
    codeOrder (keys o) = indices ++ others /\
    indices ++ others ≡ₚ keys o /\
    Forall isIndexKey indices /\
    Forall (fun k => ~ isIndexKey k) others /\
    StronglySorted (fun a b => (indexValue a < indexValue b)%N) indices /\
    StronglySorted (fun a b => strLtb a b = true) others.
Proof.
  intros Hnd Hproto. split; [by apply stableStringify_object|].
  split; [apply stableStringify_array|].
  destruct (codeOrder_spec (keys o) Hnd) as (I & R & H1 & H2 & H3).
  exists I, R. split; [done|]. split; [|done].
  rewrite H2, filter_all; [done|].
  apply Forall_forall. by intros k Hk ->.
Qed.

Lemma stableStringify_key_order_witness :
  stableStringify (JObj nineTen)
  = Some (js "{" ++ quote (js "9") ++ js ":2," ++ quote (js "10") ++ js ":1}").
Proof.
  destruct (stableStringify_key_order nineTen []) as (H & _).
  - apply (bool_decide_unpack _). vm_compute. exact I.
  - apply (bool_decide_unpack _). vm_compute. exact I.
  - rewrite H. vm_compute. reflexivity.
Defined.

(** C4, as the spec has it, fails: the object with the keys 9 and 10 is
    not written with its keys in ascending order of their UTF-8 bytes,
    which would put 10 first; nor is the object with the keys U+FF5E and
    U+1F600, the first of which comes before the second in UTF-8 and after
    its surrogate pair in UTF-16. *)
Lemma stableStringify_not_utf8_order :
  ~ emitsInOrder utf8Ascending nineTen /\ ~ emitsInOrder utf8Ascending tildeGrin.
Proof. unfold emitsInOrder. split; vm_compute; discriminate. Qed.

(* ===================================================================== *)
(** * Objects used as sets of keys *)
(* ===================================================================== *)

Section KeySets.

Context {V : Type}.
Implicit Types (o : list (jsstring * V)) (k : jsstring) (v : V).

Lemma keys_replaceProp o k v : keys (replaceProp o k v) = keys o.
Proof.
  induction o as [|[k' v'] o IH]; [done|]. cbn [replaceProp].
  destruct (strEqb k' k) eqn:E.
  - apply strEqb_true in E as ->. done.
  - unfold keys in *. cbn [map fst]. by rewrite IH.
Qed.

Lemma keys_insertIndex o n k v : keys (insertIndex o n k v) ≡ₚ k :: keys o.
Proof.
  induction o as [|[k' v'] o IH]; [done|]. cbn [insertIndex].
  destruct (arrayIndex k') as [m|]; [|done].
  destruct (m <? n)%N; [|done].
  unfold keys in *. cbn [map fst]. rewrite IH. apply perm_swap.
Qed.

(** Where the key set goes on an assignment. *)
Lemma keys_setProp o k v :
  NoDup (keys o) ->
  NoDup (keys (setProp o k v)) /\
  forall x, x ∈ keys (setProp o k v) <-> x ∈ keys o \/ (x = k /\ k <> protoKey).
Proof.
  intros Hnd. unfold setProp, defineProp.
  destruct (hasOwn o k) eqn:Hown.
  - rewrite andb_false_r, keys_replaceProp. split; [done|].
    apply hasOwn_true in Hown. intros x. split; [by left|].
    intros [?|[-> _]]; done.
  - rewrite andb_true_r. apply hasOwn_false in Hown.
    destruct (strEqb k protoKey) eqn:Hp.
    { apply strEqb_true in Hp. split; [done|]. intros x. split; [by left|].
      intros [?|[_ ?]]; done. }
    apply strEqb_false in Hp.
    assert (Hperm : keys (match arrayIndex k with
                          | Some n => insertIndex o n k v
                          | None => o ++ [(k, v)]
                          end) ≡ₚ k :: keys o).
    { destruct (arrayIndex k); [apply keys_insertIndex|].
      unfold keys. rewrite map_app. cbn. symmetry. apply Permutation_cons_append. }
    split.
    + rewrite Hperm. by apply NoDup_cons.
    + intros x. rewrite Hperm, elem_of_cons. naive_solver.
Qed.

Lemma keys_foldl_setProp (v : V) (hs : list jsstring) o :
  NoDup (keys o) ->
  NoDup (keys (foldl (fun acc h => setProp acc h v) o hs)) /\
  forall x, x ∈ keys (foldl (fun acc h => setProp acc h v) o hs)
            <-> x ∈ keys o \/ (x ∈ hs /\ x <> protoKey).
Proof.
  revert o. induction hs as [|h hs IH]; intros o Hnd.
  { split; [done|]. intros x. rewrite elem_of_nil. naive_solver. }
  cbn [foldl]. destruct (keys_setProp o h v Hnd) as [Hnd' Hin].
  destruct (IH _ Hnd') as [Hnd'' Hin'']. split; [done|].
  intros x. rewrite Hin'', Hin, elem_of_cons. naive_solver.
Qed.

End KeySets.

Lemma getProp_const (o : props) (k : jsstring) (v : value) :
  Forall (fun p => p.2 = v) o -> k ∈ keys o -> getProp o k = v.
Proof.
  intros Hall Hk. apply getProp_elem in Hk.
  rewrite Forall_forall in Hall. exact (Hall _ Hk).
Qed.

(** The object of input hashes: its keys are the hashes, each once, and
    every value is [["out"]]. *)
Lemma inputHashesOf_spec (hs : list jsstring) :
  NoDup (keys (inputHashesOf hs)) /\
  (forall x, x ∈ keys (inputHashesOf hs) <-> x ∈ hs /\ x <> protoKey) /\
  forall k, k ∈ keys (inputHashesOf hs) ->
            getProp (inputHashesOf hs) k = strings [js "out"].
Proof.
  unfold inputHashesOf.
  destruct (keys_foldl_setProp (strings [js "out"]) hs []) as [Hnd Hin];
    [constructor|].
  split; [done|]. split.
  - intros x. rewrite Hin. cbn. rewrite elem_of_nil. naive_solver.
  - intros k Hk. apply getProp_const; [|done].
    apply (replacer_fold_Forall (fun p => p.2 = strings [js "out"])
             (fun _ => strings [js "out"])); [constructor|done].
Qed.

(* ===================================================================== *)
(** * The serialization looks at the key set only *)
(* ===================================================================== *)

Lemma codeOrder_perm (ks1 ks2 : list jsstring) :
  ks1 ≡ₚ ks2 -> codeOrder ks1 = codeOrder ks2.
Proof.
  intros H. unfold codeOrder. f_equal.
  - apply (StronglySorted_unique_strong indexLe).
    + intros x1 x2 Hx1 Hx2. apply indexLe_antisym.
      * rewrite merge_sort_Permutation in Hx1.
        by apply list_elem_of_filter in Hx1 as [? _].
      * rewrite merge_sort_Permutation in Hx2.
        by apply list_elem_of_filter in Hx2 as [? _].
    + apply StronglySorted_merge_sort; apply _.
    + apply StronglySorted_merge_sort; apply _.
    + rewrite !merge_sort_Permutation. by rewrite H.
  - by rewrite (sort_perm_eq ks1 ks2).
Qed.

Lemma omap_ext_elem {A B} (f g : A -> option B) (l : list A) :
  (forall x, x ∈ l -> f x = g x) -> omap f l = omap g l.
Proof.
  induction l as [|x l IH]; intros H; [done|]. cbn [omap list_omap].
  rewrite (H x) by apply list_elem_of_here.
  rewrite IH; [done|]. intros y Hy. apply H. by apply list_elem_of_further.
Qed.

Lemma stableStringify_object_ext (o1 o2 : props) :
  NoDup (keys o1) -> NoDup (keys o2) ->
  keys o1 ≡ₚ keys o2 ->
  (forall k, k ∈ keys o1 ->
             stableStringify (getProp o1 k) = stableStringify (getProp o2 k)) ->
  stableStringify (JObj o1) = stableStringify (JObj o2).
Proof.
  intros Hnd1 Hnd2 Hperm Hval.
  rewrite (stableStringify_object o1 Hnd1), (stableStringify_object o2 Hnd2).
  rewrite <- (codeOrder_perm _ _ Hperm). do 3 f_equal. f_equal.
  apply omap_ext_elem. intros k Hk. rewrite Hval; [done|].
  by apply codeOrder_elem.
Qed.

Section Invariance.

Context (process : Process) (heap : Heap).

(** The record that is hashed depends on the input hashes as a set. *)
Lemma toHash_inputHashes (d : Derivation) (hs1 hs2 : list jsstring) :
  (forall x, x ∈ hs1 <-> x ∈ hs2) ->
  stableStringify (toHash process d (inputHashesOf hs1))
  = stableStringify (toHash process d (inputHashesOf hs2)).
Proof.
  intros Hset.
  destruct (inputHashesOf_spec hs1) as (Hnd1 & Hin1 & Hv1).
  destruct (inputHashesOf_spec hs2) as (Hnd2 & Hin2 & Hv2).
  assert (Hperm : keys (inputHashesOf hs1) ≡ₚ keys (inputHashesOf hs2)).
  { apply NoDup_Permutation; [done..|]. intros x. rewrite Hin1, Hin2, Hset. done. }
  assert (Hinner : stableStringify (JObj (inputHashesOf hs1))
                   = stableStringify (JObj (inputHashesOf hs2))).
  { apply stableStringify_object_ext; [done..|].
    intros k Hk. rewrite Hv1 by done. rewrite Hv2; [done|]. by rewrite <- Hperm. }
  unfold toHash. apply stableStringify_object_ext.
  - apply (bool_decide_unpack _). vm_compute. exact I.
  - apply (bool_decide_unpack _). vm_compute. exact I.
  - done.
  - intros k _. unfold getProp. cbn [getOwn].
    repeat match goal with
    | |- context [strEqb ?a k] =>
        let E := fresh "E" in
        destruct (strEqb a k) eqn:E; [try reflexivity|]
    end; done.
Qed.

(** ** The hash without a cache *)

Lemma hashOf_mono (n m : nat) (r : ref) (h : jsstring) :
  n <= m -> hashOf process heap n r = Some h -> hashOf process heap m r = Some h.
Proof.
  revert m r h. induction n as [|n IH]; intros m r h Hle H; [discriminate|].
  destruct m as [|m]; [lia|]. cbn [hashOf] in H |- *. cbv zeta in H |- *.
  destruct (truthyOpt (outputHash (heap r))); [done|].
  apply bind_Some in H as (hs & Hhs & H). apply bind_Some. exists hs.
  split; [|done]. apply mapM_Some in Hhs. apply mapM_Some.
  eapply Forall2_impl; [exact Hhs|]. intros x y Hxy. cbn in *.
  apply IH; [lia|done].
Qed.

Lemma hashOf_det (n m : nat) (r : ref) (h h' : jsstring) :
  hashOf process heap n r = Some h -> hashOf process heap m r = Some h' -> h = h'.
Proof.
  intros H1 H2.
  apply (hashOf_mono n (n `max` m)) in H1; [|lia].
  apply (hashOf_mono m (n `max` m)) in H2; [|lia]. congruence.
Qed.

(** The hashes of a list of inputs, once each of them has one. *)
Lemma hashOf_inputs (n : nat) (l : list ref) (dflt : jsstring) :
  (forall x, x ∈ l -> is_Some (hashOf process heap n x)) ->
  mapM (hashOf process heap n) l
  = Some (map (fun x => default dflt (hashOf process heap n x)) l).
Proof.
  intros H. apply mapM_Some. apply Forall2_fmap_r, Forall_Forall2_diag.
  apply Forall_forall. intros x Hx. destruct (H x Hx) as [h Hh].
  cbn. by rewrite Hh.
Qed.

(** The hash of a derivation looks at its inputs as a set. *)
Lemma hashOf_input_set (n : nat) (r1 r2 : ref) (h : jsstring) :
  heap r2 = withInputs (heap r1) (inputs (heap r2)) ->
  (forall x, x ∈ default [] (inputs (heap r1)) <-> x ∈ default [] (inputs (heap r2))) ->
  hashOf process heap n r1 = Some h -> hashOf process heap n r2 = Some h.
Proof.
  intros Hd Hset. destruct n as [|n]; [discriminate|].
  cbn [hashOf]. cbv zeta.
  assert (Ho : outputHash (heap r2) = outputHash (heap r1)) by (by rewrite Hd).
  assert (Hf : fixedHash (heap r2) = fixedHash (heap r1)) by (by rewrite Hd).
  assert (Ht : forall o, toHash process (heap r2) o = toHash process (heap r1) o)
    by (intros o; by rewrite Hd).
  rewrite Ho, Hf. destruct (truthyOpt (outputHash (heap r1))); [done|].
  intros H. apply bind_Some in H as (hs1 & Hhs1 & H).
  apply bind_Some in H as (text & Htext & [= <-]).
  assert (Hsome : forall x, x ∈ default [] (inputs (heap r1)) ->
                            is_Some (hashOf process heap n x)).
  { intros x Hx. apply mapM_Some in Hhs1.
    apply list_elem_of_lookup in Hx as [i Hi].
    destruct (Forall2_lookup_l _ _ _ _ _ Hhs1 Hi) as (y & _ & Hy). by exists y. }
  rewrite (hashOf_inputs n _ []) in Hhs1 by done. injection Hhs1 as <-.
  rewrite (hashOf_inputs n _ []) by (intros x Hx; by apply Hsome, Hset).
  cbn [mbind option_bind]. rewrite Ht.
  rewrite (toHash_inputHashes _ _
             (map (fun x => default [] (hashOf process heap n x))
                  (default [] (inputs (heap r1))))).
  - rewrite Htext. done.
  - intros x. rewrite !list_elem_of_fmap. split.
    + intros (y & -> & Hy). exists y. split; [done|]. by apply Hset.
    + intros (y & -> & Hy). exists y. split; [done|]. by apply Hset.
Qed.

(** ** The hash with the cache *)

Lemma cacheSound_empty : cacheSound process heap ∅.
Proof. intros k v H. by rewrite lookup_empty in H. Qed.

Lemma cacheSound_insert (cache : gmap ref jsstring) (r : ref) (h : jsstring) (n : nat) :
  cacheSound process heap cache -> hashOf process heap n r = Some h ->
  cacheSound process heap (<[r := h]> cache).
Proof.
  intros Hc Hh k v. destruct (decide (r = k)) as [->|Hne].
  - rewrite lookup_insert_eq. intros [= <-]. eauto.
  - rewrite lookup_insert_ne by done. apply Hc.
Qed.

Lemma hashDerivationModulo_unfold (fuel : nat) (drv : ref) (storeDir : jsstring)
    (cache : gmap ref jsstring) :
  hashDerivationModulo process heap (S fuel) drv storeDir cache =
  if truthyOpt (cache !! drv) then (Ok (default [] (cache !! drv)), cache)
  else if truthyOpt (outputHash (heap drv))
  then (Ok (fixedHash (heap drv)), <[drv := fixedHash (heap drv)]> cache)
  else
    match inputLoop process heap fuel storeDir [] (default [] (inputs (heap drv))) cache with
    | (Ok inputHashes, cache') =>
        match stableStringify (toHash process (heap drv) inputHashes) with
        | Some text =>
            (Ok (sha256Hex (Str text)), <[drv := sha256Hex (Str text)]> cache')
        | None => (Throw TypeError, cache')
        end
    | (Throw e, cache') => (Throw e, cache')
    | (Exhausted, cache') => (Exhausted, cache')
    end.
Proof.
  cbn [hashDerivationModulo]. rewrite bind_unfold. unfold get.
  destruct (truthyOpt (cache !! drv)); [done|]. cbv zeta.
  destruct (truthyOpt (outputHash (heap drv))); [done|].
  rewrite bind_unfold. unfold inputLoop.
  destruct (foldM _ _ _ cache) as [[o|e|] cache']; [|done..].
  destruct (stableStringify _); done.
Qed.

(** What the cached computation returns is the hash of the graph. *)
Lemma hashDerivationModulo_sound (fuel : nat) (storeDir : jsstring) :
  forall (drv : ref) (cache cache' : gmap ref jsstring) (h : jsstring),
    cacheSound process heap cache ->
    hashDerivationModulo process heap fuel drv storeDir cache = (Ok h, cache') ->
    cacheSound process heap cache' /\ exists n, hashOf process heap n drv = Some h.
Proof.
  induction fuel as [|fuel IH]; intros drv cache cache' h Hc; [discriminate|].
  rewrite hashDerivationModulo_unfold.
  destruct (truthyOpt (cache !! drv)) eqn:Hhit.
  { intros [= <- <-]. split; [done|].
    destruct (cache !! drv) as [v|] eqn:Hv; [|discriminate]. by apply (Hc drv). }
  destruct (truthyOpt (outputHash (heap drv))) eqn:Hfixed.
  { intros [= <- <-].
    assert (Hh : hashOf process heap 1 drv = Some (fixedHash (heap drv))).
    { cbn [hashOf]. cbv zeta. by rewrite Hfixed. }
    split; [by eapply cacheSound_insert|eauto]. }
  assert (Hloop : forall l acc c o c',
    cacheSound process heap c ->
    inputLoop process heap fuel storeDir acc l c = (Ok o, c') ->
    cacheSound process heap c' /\
    exists n hs, mapM (hashOf process heap n) l = Some hs /\
                 o = foldl (fun a x => setProp a x (strings [js "out"])) acc hs).
  { induction l as [|x l IHl]; intros acc c o c' Hcs.
    - intros [= <- <-]. split; [done|]. by exists 0, [].
    - unfold inputLoop. cbn [foldM]. rewrite bind_unfold, bind_unfold.
      destruct (hashDerivationModulo process heap fuel x storeDir c)
        as [[hx|e|] c1] eqn:Hx; [|discriminate..].
      destruct (IH _ _ _ _ Hcs Hx) as (Hc1 & nx & Hnx).
      cbn. intros Hrest. destruct (IHl _ _ _ _ Hc1 Hrest) as (Hc' & n & hs & Hhs & ->).
      split; [done|]. exists (nx `max` n), (hx :: hs). split; [|done].
      cbn. rewrite (hashOf_mono nx _ _ hx) by (done || lia). cbn.
      apply mapM_Some in Hhs.
      assert (Hhs' : mapM (hashOf process heap (nx `max` n)) l = Some hs).
      { apply mapM_Some. eapply Forall2_impl; [exact Hhs|].
        intros a b Hab. cbn in *. eapply hashOf_mono; [|done]. lia. }
      by rewrite Hhs'. }
  destruct (inputLoop process heap fuel storeDir [] _ cache) as [[o|e|] c1] eqn:Hl;
    [|discriminate..].
  destruct (Hloop _ _ _ _ _ Hc Hl) as (Hc1 & n & hs & Hhs & ->).
  destruct (stableStringify _) as [text|] eqn:Htext; [|discriminate].
  intros [= <- <-].
  assert (Hh : hashOf process heap (S n) drv = Some (sha256Hex (Str text))).
  { cbn [hashOf]. cbv zeta. rewrite Hfixed, Hhs. cbn [mbind option_bind].
    unfold inputHashesOf. by rewrite Htext. }
  split; [by eapply cacheSound_insert|eauto].
Qed.

(** With a bound of at least the depth of the graph, the cached
    computation returns the hash of the graph. *)
Lemma hashDerivationModulo_complete (n : nat) (storeDir : jsstring) :
  forall (drv : ref) (h : jsstring) (fuel : nat) (cache : gmap ref jsstring),
    hashOf process heap n drv = Some h -> n <= fuel ->
    cacheSound process heap cache ->
    exists cache',
      hashDerivationModulo process heap fuel drv storeDir cache = (Ok h, cache') /\
      cacheSound process heap cache'.
Proof.
  induction n as [|n IH]; intros drv h fuel cache Hh Hle Hc; [discriminate|].
  destruct fuel as [|fuel]; [lia|]. rewrite hashDerivationModulo_unfold.
  destruct (truthyOpt (cache !! drv)) eqn:Hhit.
  { exists cache. split; [|done].
    destruct (cache !! drv) as [v|] eqn:Hv; [|discriminate].
    destruct (Hc _ _ Hv) as [m Hm]. cbn. do 2 f_equal. by eapply hashOf_det. }
  pose proof Hh as Hh'. cbn [hashOf] in Hh. cbv zeta in Hh.
  destruct (truthyOpt (outputHash (heap drv))) eqn:Hfixed.
  { injection Hh as <-. eexists. split; [done|]. by eapply cacheSound_insert. }
  apply bind_Some in Hh as (hs & Hhs & Hh).
  apply bind_Some in Hh as (text & Htext & [= <-]).
  assert (Hloop : forall l hs acc c,
    mapM (hashOf process heap n) l = Some hs ->
    cacheSound process heap c ->
    exists c',
      inputLoop process heap fuel storeDir acc l c
      = (Ok (foldl (fun a x => setProp a x (strings [js "out"])) acc hs), c') /\
      cacheSound process heap c').
  { induction l as [|x l IHl]; intros hs' acc c Hm Hcs.
    - injection Hm as <-. by exists c.
    - cbn in Hm. apply bind_Some in Hm as (hx & Hx & Hm).
      apply bind_Some in Hm as (hl & Hl & [= <-]).
      destruct (IH x hx fuel c Hx ltac:(lia) Hcs) as (c1 & Hrun & Hc1).
      destruct (IHl hl (setProp acc hx (strings [js "out"])) c1 Hl Hc1)
        as (c' & Hrest & Hc').
      exists c'. split; [|done].
      unfold inputLoop. cbn [foldM]. rewrite bind_unfold, bind_unfold, Hrun.
      cbn. exact Hrest. }
  destruct (Hloop _ _ [] cache Hhs Hc) as (c' & -> & Hc').
  unfold inputHashesOf in Htext. rewrite Htext.
  eexists. split; [done|]. by eapply cacheSound_insert.
Qed.

End Invariance.

(** C2: [hashDerivationModulo(d, storeDir)] looks at [d.inputs] as a set.
    When it returns a hash for a derivation, then for the same derivation
    with its inputs in another order, or with some of them repeated, it
    returns that same hash, whenever the bound on the depth of the
    recursion is large enough. *)
Theorem hashDerivationModulo_input_order (process : Process) (heap : Heap)
    (r1 r2 : ref) (storeDir : jsstring) (fuel : nat) (h : jsstring) :
  heap r2 = withInputs (heap r1) (inputs (heap r2)) ->
  (forall x, x ∈ default [] (inputs (heap r1)) <-> x ∈ default [] (inputs (heap r2))) ->
  (hashDerivationModulo process heap fuel r1 storeDir ∅).1 = Ok h ->
  exists n, forall fuel', n <= fuel' ->
    (hashDerivationModulo process heap fuel' r2 storeDir ∅).1 = Ok h.
Proof.
  intros Hd Hset Hrun.
  destruct (hashDerivationModulo process heap fuel r1 storeDir ∅) as [r c] eqn:E.
  cbn in Hrun. subst r.
  destruct (hashDerivationModulo_sound process heap _ _ _ _ _ _
              (cacheSound_empty process heap) E) as (_ & n & Hn).
  exists n. intros fuel' Hle.
  apply (hashOf_input_set process heap n r1 r2 h Hd Hset) in Hn.
  destruct (hashDerivationModulo_complete process heap n storeDir r2 h fuel' ∅ Hn Hle
              (cacheSound_empty process heap)) as (c' & -> & _).
  done.
Qed.

Lemma hashDerivationModulo_input_order_witness :
  exists h,
    (hashDerivationModulo Scenario.linux Scenario.objects 8 6 (js "/tix/store") ∅).1
    = Ok h /\
    (exists n, forall fuel, n <= fuel ->
       (hashDerivationModulo Scenario.linux Scenario.objects fuel 7 (js "/tix/store") ∅).1
       = Ok h) /\
    (exists n, forall fuel, n <= fuel ->
       (hashDerivationModulo Scenario.linux Scenario.objects fuel 8 (js "/tix/store") ∅).1
       = Ok h).
Proof.
  eexists. split; [vm_compute; reflexivity|]. split.
  - apply (hashDerivationModulo_input_order Scenario.linux Scenario.objects 6 7 _ 8).
    + reflexivity.
    + intros x. cbn. rewrite !elem_of_cons, !elem_of_nil. tauto.
    + vm_compute. reflexivity.
  - apply (hashDerivationModulo_input_order Scenario.linux Scenario.objects 6 8 _ 8).
    + reflexivity.
    + intros x. cbn. rewrite !elem_of_cons, !elem_of_nil. tauto.
    + vm_compute. reflexivity.
Defined.

(* ===================================================================== *)
(** * hash.ts: what the digests look like *)
(* ===================================================================== *)

Section Digests.

Import Sha256.

Lemma round_length (s : list N) (kw : N * N) : length (round s kw) = length s.
Proof.
  unfold round. do 9 (destruct s as [|? s]; try reflexivity).
Qed.

Lemma compress_length (H : list N) (block : Buffer) :
  length (compress H block) = length H.
Proof.
  unfold compress. cbv zeta. rewrite length_zip_with.
  assert (E : forall l s, length (foldl round s l) = length s).
  { induction l as [|kw l IH]; intros s; [done|]. cbn [foldl].
    by rewrite IH, round_length. }
  rewrite E. lia.
Qed.

Lemma beBytes_length (n : nat) (x : N) : length (beBytes n x) = n.
Proof.
  revert x. induction n as [|n IH]; intros x; [done|].
  cbn [beBytes]. rewrite length_app, IH. cbn. lia.
Qed.

Lemma digest_length (msg : Buffer) : length (digest msg) = 32.
Proof.
  unfold digest. cbv zeta.
  set (blocks := chunks 64 _ _).
  assert (E : forall l H, length (foldl compress H l) = length H).
  { induction l as [|b l IH]; intros H; [done|]. cbn [foldl].
    by rewrite IH, compress_length. }
  specialize (E blocks H0).
  destruct (foldl compress H0 blocks) as [|a [|b [|c [|d [|e [|f [|g [|h [|]]]]]]]]];
    try discriminate E.
  cbn [map concat]. rewrite !length_app, !beBytes_length. done.
Qed.

End Digests.

Lemma hex_digit (n : N) : (n < 16)%N -> Hex.digit n ∈ js "0123456789abcdef".
Proof.
  intros Hn.
  assert (H : Forall (fun n => Hex.digit n ∈ js "0123456789abcdef")
                     (map N.of_nat (seq 0 16))).
  { apply (bool_decide_unpack _). vm_compute. exact I. }
  rewrite Forall_forall in H. apply H. apply list_elem_of_fmap.
  exists (N.to_nat n). split; [lia|]. apply elem_of_seq. lia.
Qed.

(** [sha256Hex] gives 64 characters, each a lower-case hexadecimal
    digit. *)
Theorem sha256Hex_shape (data : Data) :
  length (sha256Hex data) = 64 /\
  Forall (fun c => c ∈ js "0123456789abcdef") (sha256Hex data).
Proof.
  unfold sha256Hex, sha256.
  pose proof (digest_length (dataBytes data)) as Hlen.
  revert Hlen. generalize (Sha256.digest (dataBytes data)) as b. intros b.
  assert (E : forall b, length (Hex.encode b) = 2 * length b /\
                        Forall (fun c => c ∈ js "0123456789abcdef") (Hex.encode b)).
  { clear b. induction b as [|x b [IH1 IH2]]; [by split|].
    unfold Hex.encode in *. cbn [map concat].
    split; [rewrite length_app, IH1; cbn; lia|].
    apply Forall_app. split; [|done].
    pose proof (Byte.to_N_bounded x) as Hx. unfold Hex.ofByte. cbv zeta.
    apply Forall_cons. split; [|apply Forall_cons; split; [|constructor]].
    - apply hex_digit. apply N.Div0.div_lt_upper_bound. lia.
    - apply hex_digit. apply N.mod_lt. lia. }
  intros Hlen. destruct (E b) as [E1 E2]. split; [lia|done].
Qed.

(* ===================================================================== *)
(** * Nix32 is one-to-one *)
(* ===================================================================== *)

Lemma alphabetChar_elem (c : N) : (c < 32)%N -> alphabetChar c ∈ NIX32_ALPHABET.
Proof.
  intros Hc. unfold alphabetChar.
  destruct (alphabetAt_singleton c Hc) as (ch & Hch & _). rewrite Hch. cbn.
  by eapply list_elem_of_lookup_2.
Qed.

Lemma alphabetChar_inj (c d : N) :
  (c < 32)%N -> (d < 32)%N -> alphabetChar c = alphabetChar d -> c = d.
Proof.
  intros Hc Hd. unfold alphabetChar.
  destruct (alphabetAt_singleton c Hc) as (x & Hx & _).
  destruct (alphabetAt_singleton d Hd) as (y & Hy & _).
  rewrite Hx, Hy. cbn. intros <-.
  assert (Hnd : NoDup NIX32_ALPHABET).
  { apply (bool_decide_unpack _). vm_compute. exact I. }
  pose proof (NoDup_lookup _ _ _ _ Hnd Hx Hy). lia.
Qed.

Lemma leValue_lt (b : Buffer) : (leValue b < 2 ^ N.of_nat (8 * length b))%N.
Proof.
  induction b as [|x b IH]; [cbn; lia|].
  cbn [leValue length]. pose proof (Byte.to_N_bounded x).
  replace (N.of_nat (8 * S (length b))) with (8 + N.of_nat (8 * length b))%N by lia.
  rewrite N.pow_add_r. change (2 ^ 8)%N with 256%N. lia.
Qed.

Lemma leValue_inj (b1 b2 : Buffer) :
  length b1 = length b2 -> leValue b1 = leValue b2 -> b1 = b2.
Proof.
  revert b2. induction b1 as [|x b1 IH]; intros [|y b2] Hlen Hv;
    try discriminate; [done|].
  cbn [leValue] in Hv.
  pose proof (Byte.to_N_bounded x). pose proof (Byte.to_N_bounded y).
  assert (Byte.to_N x = Byte.to_N y /\ leValue b1 = leValue b2) as [Hxy Hrest] by lia.
  f_equal.
  - apply (inj Some). by rewrite <- (Byte.of_to_N x), <- (Byte.of_to_N y), Hxy.
  - apply IH; [by injection Hlen|done].
Qed.

(** Nix32 encoding loses nothing: two buffers with the same encoding are
    the same buffer. *)
Theorem nix32Encode_inj (b1 b2 : Buffer) :
  nix32Encode b1 = nix32Encode b2 -> b1 = b2.
Proof.
  intros Henc. rewrite !nix32Encode_eq in Henc. cbv zeta in Henc.
  pose proof (f_equal length Henc) as Hlen.
  rewrite !length_map, !length_seq in Hlen.
  pose proof (ceil_div_5_bounds (length b1 * 8)) as B1.
  pose proof (ceil_div_5_bounds (length b2 * 8)) as B2.
  assert (HL : length b1 = length b2) by lia.
  rewrite <- Hlen in Henc.
  set (len := ceil_div (length b1 * 8) 5) in *.
  assert (Hgroup : forall n, n < len -> group (reverse b1) n = group (reverse b2) n).
  { intros n Hn.
    pose proof (f_equal (fun l => l !! (len - 1 - n)) Henc) as E. cbv beta in E.
    rewrite !list_lookup_fmap in E.
    rewrite (lookup_seq_lt 0 len (len - 1 - n)) in E by lia.
    cbn [fmap option_fmap option_map Nat.add] in E.
    injection E as E. replace (len - 1 - (len - 1 - n)) with n in E by lia.
    apply alphabetChar_inj in E; [done|apply group_lt_32..]. }
  apply (inj reverse). apply leValue_inj; [by rewrite !length_reverse|].
  apply N.bits_inj. intros k.
  destruct (decide (N.to_nat k < 5 * len)) as [Hk|Hk].
  - pose proof (Hgroup (N.to_nat k / 5)) as E.
    rewrite !group_bits in E.
    pose proof (Nat.div_mod_eq (N.to_nat k) 5) as Hdm.
    pose proof (Nat.mod_upper_bound (N.to_nat k) 5 ltac:(lia)) as Hm.
    specialize (E ltac:(apply Nat.Div0.div_lt_upper_bound; lia)).
    pose proof (f_equal (fun v => N.testbit v (N.of_nat (N.to_nat k mod 5))) E) as T.
    cbv beta in T. change 0x1f%N with (N.ones 5) in T.
    rewrite !N.land_spec, !N.shiftr_spec', !N.ones_spec_low in T by lia.
    rewrite !andb_true_r in T.
    replace (N.of_nat (N.to_nat k mod 5) + N.of_nat (5 * (N.to_nat k / 5)))%N
      with k in T by lia.
    exact T.
  - pose proof (leValue_lt (reverse b1)) as L1.
    pose proof (leValue_lt (reverse b2)) as L2.
    rewrite length_reverse in L1, L2.
    assert (Hhigh : forall v, (v < 2 ^ N.of_nat (8 * length b1))%N -> N.testbit v k = false).
    { intros v Hv. destruct (decide (v = 0%N)) as [->|Hv0]; [apply N.bits_0|].
      apply N.bits_above_log2. apply N.log2_lt_pow2 in Hv; lia. }
    rewrite !Hhigh; [done|by rewrite HL|done].
Qed.

Lemma nix32Encode_inj_witness :
  nix32Encode (reverse [Byte.x01; Byte.x02]) = nix32Encode [Byte.x02; Byte.x01] /\
  reverse [Byte.x01; Byte.x02] = [Byte.x02; Byte.x01].
Proof.
  split; [reflexivity|]. apply nix32Encode_inj. reflexivity.
Defined.

(* ===================================================================== *)
(** * The form of a store path *)
(* ===================================================================== *)

Lemma nix32Encode_alphabet (bytes : Buffer) :
  Forall (fun c => c ∈ NIX32_ALPHABET) (nix32Encode bytes).
Proof.
  rewrite nix32Encode_eq. cbv zeta. apply Forall_fmap, Forall_forall.
  intros p _. cbn. apply alphabetChar_elem, group_lt_32.
Qed.

Lemma nix32Encode_length (bytes : Buffer) :
  length (nix32Encode bytes) = ceil_div (length bytes * 8) 5.
Proof. rewrite nix32Encode_eq. cbv zeta. by rewrite length_map, length_seq. Qed.

(** [sha256Truncated] gives 32 characters of the Nix32 alphabet. *)
Lemma sha256Truncated_shape (data : Data) :
  length (sha256Truncated data) = 32 /\
  Forall (fun c => c ∈ NIX32_ALPHABET) (sha256Truncated data).
Proof.
  unfold sha256Truncated. cbv zeta. split; [|apply nix32Encode_alphabet].
  rewrite nix32Encode_length, length_take. unfold sha256.
  rewrite digest_length. reflexivity.
Qed.

Lemma computeStorePath_form (type innerDigest storeDir name : jsstring) :
  exists digest,
    computeStorePath type innerDigest storeDir name
    = storeDir ++ js "/" ++ digest ++ js "-" ++ name /\
    length digest = 32 /\
    Forall (fun c => c ∈ NIX32_ALPHABET) digest.
Proof.
  unfold computeStorePath. cbv zeta. eexists. split; [reflexivity|].
  apply sha256Truncated_shape.
Qed.

(** Every store path is the store directory, a slash, 32 characters of the
    Nix32 alphabet, a hyphen and the name. *)
Theorem computeStorePath_shape (type innerDigest storeDir name : jsstring) :
  exists digest,
    computeStorePath type innerDigest storeDir name
    = storeDir ++ js "/" ++ digest ++ js "-" ++ name /\
    length digest = 32 /\
    Forall (fun c => c ∈ NIX32_ALPHABET) digest.
Proof. apply computeStorePath_form. Qed.

(** In one store, paths for different names are different, whatever the
    digests; and so are the paths for one name in different stores. *)
Theorem computeStorePath_name_dir
    (type1 type2 digest1 digest2 dir1 dir2 name1 name2 : jsstring) :
  (dir1 = dir2 /\ name1 <> name2) \/ (name1 = name2 /\ dir1 <> dir2) ->
  computeStorePath type1 digest1 dir1 name1 <> computeStorePath type2 digest2 dir2 name2.
Proof.
  destruct (computeStorePath_form type1 digest1 dir1 name1) as (d1 & -> & L1 & _).
  destruct (computeStorePath_form type2 digest2 dir2 name2) as (d2 & -> & L2 & _).
  intros [[<- Hne]|[<- Hne]] E; apply Hne.
  - apply app_inv_head in E. apply (app_inv_head (js "/")) in E.
    apply app_inj_1 in E as [_ E]; [|lia]. by apply (app_inv_head (js "-")) in E.
  - pose proof (f_equal length E) as Hlen. rewrite !length_app in Hlen.
    rewrite !app_assoc in E.
    apply app_inj_2 in E as [E _]; [|done].
    apply app_inj_2 in E as [E _]; [|done].
    apply app_inj_2 in E as [E _]; [|lia].
    by apply app_inj_2 in E as [E _].
Qed.

Lemma computeStorePath_name_dir_witness :
  computeOutputPath Scenario.sha256OfContent (js "/tix/store") (js "foo")
  <> computeOutputPath Scenario.sha256OfContent (js "/tix/store") (js "bar") /\
  computeOutputPath Scenario.sha256OfContent (js "/nix/store") (js "foo")
  <> computeOutputPath Scenario.sha256OfContent (js "/tix/store") (js "foo").
Proof.
  split; apply computeStorePath_name_dir.
  - left. split; [reflexivity|]. vm_compute. discriminate.
  - right. split; [reflexivity|]. vm_compute. discriminate.
Defined.

(* ===================================================================== *)
(** * stableStringify: the order of insertion does not matter *)
(* ===================================================================== *)

Lemma getOwn_elem {V} (o : list (jsstring * V)) (k : jsstring) (v : V) :
  NoDup (keys o) -> (getOwn o k = Some v <-> (k, v) ∈ o).
Proof.
  induction o as [|[k' v'] o IH]; intros Hnd.
  { cbn. split; [discriminate|by intros ?%elem_of_nil]. }
  unfold keys in Hnd. cbn [map fst] in Hnd. apply NoDup_cons in Hnd as [Hk' Hnd].
  cbn [getOwn]. destruct (strEqb k' k) eqn:E.
  - apply strEqb_true in E as ->. split.
    + intros [= ->]. apply list_elem_of_here.
    + intros [[= ->]|Hin]%elem_of_cons; [done|].
      exfalso. apply Hk'. apply list_elem_of_fmap. by exists (k, v).
  - apply strEqb_false in E. rewrite (IH Hnd). split.
    + by apply list_elem_of_further.
    + intros [[= -> ->]|Hin]%elem_of_cons; done.
Qed.

Lemma getProp_perm (o1 o2 : props) (k : jsstring) :
  NoDup (keys o1) -> o1 ≡ₚ o2 -> getProp o1 k = getProp o2 k.
Proof.
  intros Hnd Hperm.
  assert (Hnd2 : NoDup (keys o2)) by (unfold keys in *; by rewrite <- Hperm).
  unfold getProp. destruct (getOwn o1 k) as [v|] eqn:E1.
  - apply (getOwn_elem _ _ _ Hnd) in E1. rewrite Hperm in E1.
    apply (getOwn_elem _ _ _ Hnd2) in E1. by rewrite E1.
  - destruct (getOwn o2 k) as [v|] eqn:E2; [|done].
    apply (getOwn_elem _ _ _ Hnd2) in E2. rewrite <- Hperm in E2.
    apply (getOwn_elem _ _ _ Hnd) in E2. congruence.
Qed.

(** Two objects with the same properties, inserted in any order, have the
    same serialization. *)
Theorem stableStringify_insertion_order (o1 o2 : props) :
  NoDup (keys o1) -> o1 ≡ₚ o2 ->
  stableStringify (JObj o1) = stableStringify (JObj o2).
Proof.
  intros Hnd Hperm.
  assert (Hk : keys o1 ≡ₚ keys o2) by (unfold keys; by rewrite Hperm).
  apply stableStringify_object_ext; [done|by rewrite <- Hk|done|].
  intros k _. by rewrite (getProp_perm o1 o2 k Hnd Hperm).
Qed.

Lemma stableStringify_insertion_order_witness :
  stableStringify (JObj [(js "z", JNum 1); (js "a", JNum 2); (js "m", JNum 3)])
  = stableStringify (JObj [(js "a", JNum 2); (js "m", JNum 3); (js "z", JNum 1)]).
Proof.
  apply stableStringify_insertion_order.
  - apply (bool_decide_unpack _). vm_compute. exact I.
  - apply (Permutation_cons_append [(js "a", JNum 2); (js "m", JNum 3)]).
Defined.

(* ===================================================================== *)
(** * hashDerivationModulo: what it does not depend on *)
(* ===================================================================== *)

Section Hashing.

Context (process : Process) (heap : Heap).

Lemma foldM_ext {S A B} (f g : B -> A -> ST S B) (l : list A) :
  (forall acc x s, x ∈ l -> f acc x s = g acc x s) ->
  forall acc s, foldM f acc l s = foldM g acc l s.
Proof.
  induction l as [|x l IH]; intros H acc s; [done|].
  cbn [foldM]. rewrite !bind_unfold. rewrite H by apply list_elem_of_here.
  destruct (g acc x s) as [[b|e|] s']; [|done..].
  apply IH. intros acc' y s'' Hy. apply H. by apply list_elem_of_further.
Qed.

(** The [storeDir] argument has no part in the hash. *)
Theorem hashDerivationModulo_storeDir (fuel : nat) (drv : ref)
    (storeDir1 storeDir2 : jsstring) (cache : gmap ref jsstring) :
  hashDerivationModulo process heap fuel drv storeDir1 cache
  = hashDerivationModulo process heap fuel drv storeDir2 cache.
Proof.
  revert drv cache. induction fuel as [|fuel IH]; intros drv cache; [done|].
  rewrite !hashDerivationModulo_unfold.
  destruct (truthyOpt (cache !! drv)); [done|].
  destruct (truthyOpt (outputHash (heap drv))); [done|].
  unfold inputLoop.
  rewrite (foldM_ext _
             (fun inputHashes input =>
                inputHash ← hashDerivationModulo process heap fuel input storeDir2;
                mret (setProp inputHashes inputHash (strings [js "out"])))); [done|].
  intros acc x s _. rewrite !bind_unfold. by rewrite IH.
Qed.

(** A cache filled by an earlier call does not change what a later call
    returns. *)
Theorem hashDerivationModulo_cache (fuel1 fuel2 : nat) (r1 r2 : ref)
    (storeDir : jsstring) (h1 h2 : jsstring) (c1 c2 : gmap ref jsstring) :
  hashDerivationModulo process heap fuel1 r1 storeDir ∅ = (Ok h1, c1) ->
  hashDerivationModulo process heap fuel2 r2 storeDir c1 = (Ok h2, c2) ->
  exists n, forall fuel, n <= fuel ->
    (hashDerivationModulo process heap fuel r2 storeDir ∅).1 = Ok h2.
Proof.
  intros H1 H2.
  destruct (hashDerivationModulo_sound process heap _ _ _ _ _ _
              (cacheSound_empty process heap) H1) as (Hc1 & _).
  destruct (hashDerivationModulo_sound process heap _ _ _ _ _ _ Hc1 H2)
    as (_ & n & Hn).
  exists n. intros fuel Hle.
  destruct (hashDerivationModulo_complete process heap n storeDir r2 h2 fuel ∅ Hn Hle
              (cacheSound_empty process heap)) as (c' & -> & _).
  done.
Qed.

(** ** Cycles *)

Lemma toHash_serializes (d : Derivation) (o : props) :
  is_Some (stableStringify (toHash process d o)).
Proof.
  unfold toHash. rewrite stableStringify_object; [done|].
  apply (bool_decide_unpack _). vm_compute. exact I.
Qed.

(** A set of derivations that are not fixed-output, each with an input in
    the set: once in, the recursion does not come out. *)
Lemma hashDerivationModulo_trap (P : ref -> Prop) (storeDir : jsstring) :
  (forall x, P x -> truthyOpt (outputHash (heap x)) = false /\
                    exists y, y ∈ default [] (inputs (heap x)) /\ P y) ->
  forall fuel drv cache,
    (forall x, P x -> cache !! x = None) ->
    (forall x, P x ->
       (hashDerivationModulo process heap fuel drv storeDir cache).2 !! x = None) /\
    (forall e, (hashDerivationModulo process heap fuel drv storeDir cache).1 <> Throw e) /\
    (P drv -> (hashDerivationModulo process heap fuel drv storeDir cache).1 = Exhausted).
Proof.
  intros Htrap. induction fuel as [|fuel IH]; intros drv cache Hc; [by split|].
  assert (Hloop : forall l acc c,
    (forall x, P x -> c !! x = None) ->
    (forall x, P x -> (inputLoop process heap fuel storeDir acc l c).2 !! x = None) /\
    (forall e, (inputLoop process heap fuel storeDir acc l c).1 <> Throw e) /\
    ((exists y, y ∈ l /\ P y) ->
     (inputLoop process heap fuel storeDir acc l c).1 = Exhausted)).
  { induction l as [|x l IHl]; intros acc c Hcs.
    - split; [done|]. split; [done|]. intros (y & Hy & _). by apply elem_of_nil in Hy.
    - unfold inputLoop. cbn [foldM]. rewrite !bind_unfold.
      destruct (IH x c Hcs) as (Hc1 & Hnothrow & Hexh).
      destruct (hashDerivationModulo process heap fuel x storeDir c)
        as [[hx|e|] c1] eqn:Hx; cbn [fst snd] in *.
      + destruct (IHl (setProp acc hx (strings [js "out"])) c1 Hc1) as (H1 & H2 & H3).
        split; [done|]. split; [done|].
        intros (y & [->|Hy]%elem_of_cons & HP).
        * specialize (Hexh HP). discriminate.
        * apply H3. eauto.
      + by destruct (Hnothrow e).
      + done. }
  rewrite hashDerivationModulo_unfold.
  destruct (truthyOpt (cache !! drv)) eqn:Hhit.
  { split; [done|]. split; [done|]. intros HP. rewrite (Hc _ HP) in Hhit. discriminate. }
  destruct (truthyOpt (outputHash (heap drv))) eqn:Hfixed.
  { split; [|split; [done|]].
    - intros x HP. cbn. rewrite lookup_insert_ne; [by apply Hc|].
      intros ->. destruct (Htrap _ HP) as [? _]. congruence.
    - intros HP. destruct (Htrap _ HP) as [? _]. congruence. }
  destruct (Hloop (default [] (inputs (heap drv))) [] cache Hc) as (H1 & H2 & H3).
  destruct (inputLoop process heap fuel storeDir [] _ cache) as [[o|e|] c1] eqn:Hl;
    cbn [fst snd] in *.
  - destruct (toHash_serializes (heap drv) o) as [text ->].
    assert (HnP : ~ P drv).
    { intros HP. destruct (Htrap _ HP) as [_ Hy]. specialize (H3 Hy). discriminate. }
    split; [|split; [done|done]].
    intros x HP. cbn. rewrite lookup_insert_ne; [by apply H1|]. by intros ->.
  - by destruct (H2 e).
  - done.
Qed.

(** [hashDerivationModulo] never throws: it returns a hash, or the
    recursion does not end. *)
Theorem hashDerivationModulo_no_throw (fuel : nat) (drv : ref) (storeDir : jsstring)
    (cache : gmap ref jsstring) :
  (exists h, (hashDerivationModulo process heap fuel drv storeDir cache).1 = Ok h) \/
  (hashDerivationModulo process heap fuel drv storeDir cache).1 = Exhausted.
Proof.
  destruct (hashDerivationModulo_trap (fun _ => False) storeDir ltac:(done)
              fuel drv cache ltac:(done)) as (_ & H & _).
  destruct (hashDerivationModulo _ _ _ _ _ _).1 as [h|e|]; [eauto| |eauto].
  by destruct (H e).
Qed.

Lemma cyclePath_next (p : list ref) (x : ref) :
  cyclePath heap p -> x ∈ p -> exists y, y ∈ edges heap x /\ y ∈ p.
Proof.
  intros [Hchain (x0 & mid & ->)] Hx.
  apply list_elem_of_lookup in Hx as [i Hi].
  destruct ((x0 :: mid ++ [x0]) !! S i) as [y|] eqn:Hy.
  - exists y. split; [by eapply Hchain|]. by eapply list_elem_of_lookup_2.
  - (* the last element is the first one *)
    apply lookup_ge_None in Hy. apply lookup_lt_Some in Hi as Hlt.
    assert (i = S (length mid)) as -> by (cbn in *; rewrite length_app in *; cbn in *; lia).
    change ((mid ++ [x0]) !! length mid = Some x) in Hi.
    rewrite lookup_app_r in Hi by lia.
    rewrite Nat.sub_diag in Hi. injection Hi as <-.
    destruct ((x0 :: mid ++ [x0]) !! 1) as [y|] eqn:Hy1.
    + exists y. split; [by apply (Hchain 0 x0 y)|]. by eapply list_elem_of_lookup_2.
    + apply lookup_ge_None in Hy1. cbn in Hy1. rewrite length_app in Hy1.
      cbn in Hy1. lia.
Qed.

(** On a cycle of derivations none of which is fixed-output,
    [hashDerivationModulo] with a new cache does not return, however deep
    the recursion may go: the cache is written after the inputs have been
    hashed. *)
Theorem hashDerivationModulo_cycle (p : list ref) (drv : ref) (storeDir : jsstring)
    (fuel : nat) :
  cyclePath heap p ->
  (forall x, x ∈ p -> truthyOpt (outputHash (heap x)) = false) ->
  drv ∈ p ->
  (hashDerivationModulo process heap fuel drv storeDir ∅).1 = Exhausted.
Proof.
  intros Hp Hreg Hdrv.
  destruct (hashDerivationModulo_trap (fun x => x ∈ p) storeDir) with
    (fuel := fuel) (drv := drv) (cache := (∅ : gmap ref jsstring)) as (_ & _ & H).
  - intros x Hx. split; [by apply Hreg|]. by apply cyclePath_next.
  - intros x _. apply lookup_empty.
  - by apply H.
Qed.

End Hashing.

Lemma hashDerivationModulo_cache_witness :
  exists h n, forall fuel, n <= fuel ->
    (hashDerivationModulo Scenario.linux Scenario.objects fuel 6 (js "/tix/store") ∅).1
    = Ok h.
Proof.
  pose (r := hashDerivationModulo Scenario.linux Scenario.objects 8 4 (js "/tix/store") ∅).
  pose (r' := hashDerivationModulo Scenario.linux Scenario.objects 8 6 (js "/tix/store") r.2).
  assert (H1 : exists h, r.1 = Ok h) by (eexists; vm_compute; reflexivity).
  assert (H2 : exists h, r'.1 = Ok h) by (eexists; vm_compute; reflexivity).
  destruct H1 as [h1 H1], H2 as [h2 H2]. exists h2.
  apply (hashDerivationModulo_cache Scenario.linux Scenario.objects 8 8 4 6
           (js "/tix/store") h1 h2 r.2 r'.2).
  - rewrite <- H1. apply surjective_pairing.
  - rewrite <- H2. apply surjective_pairing.
Defined.

Lemma hashDerivationModulo_cycle_witness :
  (hashDerivationModulo Scenario.linux Scenario.objects 100 9 (js "/tix/store") ∅).1
  = Exhausted.
Proof.
  apply (hashDerivationModulo_cycle Scenario.linux Scenario.objects [9; 10; 11; 9]).
  - split.
    + intros i a b Ha Hb.
      do 3 (destruct i as [|i];
            [injection Ha as <-; injection Hb as <-; vm_compute;
             apply list_elem_of_here|]).
      destruct i; discriminate.
    + by exists 9, [10; 11].
  - intros x Hx. repeat (apply elem_of_cons in Hx as [->|Hx]; [reflexivity|]).
    by apply elem_of_nil in Hx.
  - apply list_elem_of_here.
Defined.

(* ===================================================================== *)
(** * The store: adding entries *)
(* ===================================================================== *)

#[export] Instance keeps_refl : Reflexive keeps.
Proof. by intros w p _. Qed.

#[export] Instance keeps_trans : Transitive keeps.
Proof.
  intros a b c Hab Hbc p Hp. rewrite Hbc, Hab; [done..|]. by rewrite Hab.
Qed.

Section Adding.

Context (this : Store).

(** The temporary directory that [atomicWrite] asks for. *)
Lemma atomicWrite_run (storePath : jsstring) (content : Content) (w : World) :
  let tmp := pathJoin (dir this) (js ".tmp-") ++ sixDigits (tick w) in
  let w1 := {| disk := disk w; tick := S (tick w) |} in
  atomicWrite this storePath content w =
  match disk w !! tmp with
  | Some _ => (Throw (SystemError "EEXIST" tmp), w1)
  | None =>
      if bool_decide (storePath = tmp)
      then (Throw (SystemError "EISDIR" storePath), setDisk (delete tmp (disk w)) w1)
      else
        match renameCheck (File content mode444) (disk w !! storePath) storePath with
        | Ok _ => (Ok tt, setDisk (<[storePath := File content mode444]> (disk w)) w1)
        | Throw e => (Throw e, setDisk (delete tmp (disk w)) w1)
        | Exhausted => (Exhausted, setDisk (delete tmp (disk w)) w1)
        end
  end.
Proof.
  cbv zeta. unfold atomicWrite. rewrite bind_unfold. unfold mkdtempSync.
  generalize (pathJoin (dir this) (js ".tmp-") ++ sixDigits (tick w)). intros tmp.
  destruct (disk w !! tmp) eqn:Htmp; [done|].
  unfold finally. rewrite !bind_unfold.
  unfold writeFileSync, setDisk. cbn [disk tick]. rewrite lookup_insert_eq.
  cbn [filter app]. rewrite filter_nil. cbn [app].
  rewrite bind_unfold. unfold chmodSyncIn, setDisk. cbn [disk tick]. rewrite lookup_insert_eq.
  cbn [entry]. rewrite bool_decide_eq_true_2 by done.
  cbn [map fst snd chmodNode]. rewrite bool_decide_eq_true_2 by done.
  rewrite !insert_insert_eq.
  unfold renameSyncFrom, setDisk. cbn [disk tick]. rewrite lookup_insert_eq.
  cbn [entry]. rewrite bool_decide_eq_true_2 by done.
  assert (Hdel : forall n, delete tmp (<[tmp := n]> (disk w)) = disk w).
  { intros n. rewrite delete_insert_eq. by apply delete_id. }
  case_bool_decide as Hp.
  - subst storePath. rewrite lookup_insert_eq. cbn [renameCheck].
    unfold rmSync, modifyDisk, modify, setDisk. cbn [disk tick].
    rewrite Hdel. by rewrite delete_id.
  - rewrite lookup_insert_ne by done.
    destruct (renameCheck _ (disk w !! storePath) storePath) as [[]|e|] eqn:Hcheck.
    + unfold rmSync, modifyDisk, modify, setDisk. cbn [disk tick].
      rewrite insert_insert_eq, delete_insert_ne by done. by rewrite Hdel.
    + unfold rmSync, modifyDisk, modify, setDisk. cbn [disk tick].
      rewrite Hdel. by rewrite delete_id.
    + unfold rmSync, modifyDisk, modify, setDisk. cbn [disk tick].
      rewrite Hdel. by rewrite delete_id.
Qed.


(** [atomicWrite] leaves every path that was on the disk as it was,
    however it ends. *)
Lemma atomicWrite_keeps (p : jsstring) (content : Content) (w : World) :
  disk w !! p = None -> keeps w (atomicWrite this p content w).2.
Proof.
  intros Hp q Hq. rewrite atomicWrite_run. cbv zeta.
  destruct (disk w !! (pathJoin (dir this) (js ".tmp-") ++ sixDigits (tick w)))
    eqn:Htmp; [done|].
  assert (Hdel : delete (pathJoin (dir this) (js ".tmp-") ++ sixDigits (tick w)) (disk w)
                 !! q = disk w !! q).
  { apply lookup_delete_ne. intros E. rewrite <- E, Htmp in Hq. by destruct Hq. }
  case_bool_decide; [exact Hdel|].
  rewrite Hp. cbn. apply lookup_insert_ne. intros ->. rewrite Hp in Hq. by destruct Hq.
Qed.

Lemma addWithPath_keeps (p : jsstring) (content : Content) (w : World) :
  keeps w (addWithPath this p content w).2.
Proof.
  unfold addWithPath. rewrite bind_unfold. unfold has, existsSync.
  case_bool_decide as Hp; cbn [negb]; [done|].
  apply atomicWrite_keeps. by apply eq_None_not_Some.
Qed.

Lemma addSource_keeps (localPath : jsstring) (name : option jsstring) (w : World) :
  keeps w (addSource this localPath name w).2.
Proof.
  unfold addSource. rewrite bind_unfold. unfold readFileSync.
  destruct (disk w !! localPath) as [[c m|es m]|]; [|done..].
  cbv zeta. rewrite bind_unfold. unfold has, existsSync.
  case_bool_decide as Hp; cbn [negb]; rewrite bind_unfold; [done|].
  pose proof (atomicWrite_keeps
    (computeSourcePath (sha256Hex (Buf (contentBytes c))) (dir this)
       (default (basename localPath) name))
    (Raw (Buf (contentBytes c))) w ltac:(by apply eq_None_not_Some)) as K.
  destruct (atomicWrite _ _ _ w) as [[[]|e|] w']; exact K.
Qed.




End Adding.

(* ===================================================================== *)
(** * The store: registering an output *)
(* ===================================================================== *)

(** Induction on trees, with the property at hand for every entry of a
    directory. *)
Lemma Node_tree_ind (P : Node -> Prop) :
  (forall c m, P (File c m)) ->
  (forall es m, Forall (fun e => P e.2) es -> P (Dir es m)) ->
  forall n, P n.
Proof.
  intros HF HD. fix ind 1. intros [c m|es m]; [apply HF|apply HD].
  induction es as [|[k x] es IH]; constructor; [apply ind|apply IH].
Qed.

Lemma immutable_readOnly (n : Node) : readOnly (immutable n) = true.
Proof.
  induction n as [c m|es m IH] using Node_tree_ind.
  - cbn. by rewrite bool_decide_eq_true_2.
  - cbn [immutable readOnly]. rewrite bool_decide_eq_true_2 by done. cbn [andb].
    induction IH as [|[k x] es Hx _ IHes]; [done|]. cbn in Hx. by rewrite Hx, IHes.
Qed.

Lemma immutable_data (n : Node) : data (immutable n) = data n.
Proof.
  induction n as [c m|es m IH] using Node_tree_ind.
  - done.
  - cbn [immutable data]. f_equal.
    induction IH as [|[k x] es Hx _ IHes]; [done|]. cbn in Hx. by rewrite Hx, IHes.
Qed.

Lemma registerOutput_free (this : Store) (tempPath storePath : jsstring) (w : World) :
  disk w !! storePath = None ->
  match disk w !! tempPath with
  | Some n =>
      registerOutput this tempPath storePath w
      = (Ok tt, setDisk (<[storePath := immutable n]> (delete tempPath (disk w))) w) /\
      readOnly (immutable n) = true /\
      data (immutable n) = data n
  | None =>
      registerOutput this tempPath storePath w = (Throw (SystemError "ENOENT" tempPath), w)
  end.
Proof.
  intros Hp. unfold registerOutput.
  rewrite (bind_Ok _ _ _ _ _ (has_absent this storePath w Hp)).
  rewrite bind_unfold. unfold makeImmutable.
  destruct (disk w !! tempPath) as [n|] eqn:Ht; [|done].
  split; [|split; [apply immutable_readOnly|apply immutable_data]].
  unfold renameSync, setDisk. cbn [disk tick]. rewrite lookup_insert_eq.
  rewrite bool_decide_eq_false_2 by congruence.
  rewrite lookup_insert_ne by congruence. rewrite Hp.
  assert (Hc : renameCheck (immutable n) None storePath = Ok tt)
    by (by destruct (immutable n)).
  rewrite Hc. by rewrite delete_insert_eq.
Qed.






(* ===================================================================== *)
(** * getAllDeps *)
(* ===================================================================== *)

Section AllDeps.

Context (heap : Heap) (root : ref) (n : nat).
Hypothesis bounded : forall x, reachable heap [root] x -> x < n.

Lemma reachable_trans (a b c : ref) :
  reachable heap [a] b -> reachable heap [b] c -> reachable heap [a] c.
Proof.
  intros Hab. induction 1 as [r Hr|u v _ IH Hv].
  - by apply list_elem_of_singleton in Hr as ->.
  - by eapply reachable_step.
Qed.

Lemma size_bounded (deps : gset ref) : (forall x, x ∈ deps -> x < n) -> size deps <= n.
Proof.
  intros H. rewrite <- (size_set_seq (C := gset nat) 0 n).
  apply subseteq_size. intros x Hx. apply elem_of_set_seq. specialize (H x Hx). lia.
Qed.

Lemma collect_spec (fuel : nat) :
  forall d deps,
    reachable heap [root] d ->
    (forall x, x ∈ deps -> x < n) ->
    n - size deps < fuel ->
    collectPost heap d (edges heap d) deps (collect heap fuel d deps).
Proof.
  induction fuel as [|fuel IH]; intros d deps Hd Hdeps Hfuel; [lia|].
  cbn [collect]. fold (edges heap d).
  assert (Hloop : forall l deps0,
    (forall i, i ∈ l -> i ∈ edges heap d) ->
    (forall x, x ∈ deps0 -> x < n) ->
    n - size deps0 < S fuel ->
    collectPost heap d l deps0
      (forEach l
         (fun input =>
            deps ← get;
            if negb (bool_decide (input ∈ deps)) then
              modify (fun deps => {[input]} ∪ deps) ≫= fun _ =>
              collect heap fuel input
            else mret tt) deps0)).
  { induction l as [|i l IHl]; intros deps0 Hl Hb Hf.
    { cbn. split; [done|]. split; [done|]. split; [by left|].
      split; [by intros ? ?%elem_of_nil|]. intros x Hx Hnx. done. }
    cbn [forEach]. rewrite bind_unfold, bind_unfold. unfold get at 1.
    assert (Hi : i ∈ edges heap d) by apply Hl, list_elem_of_here.
    assert (Hri : reachable heap [root] i) by (by eapply reachable_step).
    assert (Hl' : forall j, j ∈ l -> j ∈ edges heap d)
      by (intros j Hj; by apply Hl, list_elem_of_further).
    case_bool_decide as Hin; cbn [negb].
    - (* already collected *)
      destruct (IHl deps0 Hl' Hb Hf) as (E & Hsub & Hsound & Hall & Hclosed).
      cbn. split; [done|]. split; [done|]. split; [done|]. split; [|done].
      intros j [->|Hj]%elem_of_cons; [by apply Hsub|by apply Hall].
    - (* a new dependency *)
      rewrite bind_unfold. unfold modify at 1.
      assert (Hb1 : forall x, x ∈ {[i]} ∪ deps0 -> x < n).
      { intros x [->%elem_of_singleton|Hx]%elem_of_union; [by apply bounded|by apply Hb]. }
      assert (Hsize : size ({[i]} ∪ deps0) = S (size deps0)).
      { rewrite size_union by set_solver. by rewrite size_singleton. }
      pose proof (size_bounded _ Hb1) as Hle.
      destruct (IH i ({[i]} ∪ deps0) Hri Hb1 ltac:(lia))
        as (E1 & Hsub1 & Hsound1 & Hall1 & Hclosed1).
      destruct (collect heap fuel i ({[i]} ∪ deps0)) as [r1 deps1] eqn:Hrun.
      cbn [fst snd] in *. subst r1.
      assert (Hb2 : forall x, x ∈ deps1 -> x < n).
      { intros x Hx. destruct (Hsound1 x Hx) as [Hx'|(y & Hy & Hyx)]; [by apply Hb1|].
        apply bounded. eapply reachable_trans; [exact Hri|].
        eapply reachable_trans; [|exact Hyx].
        eapply reachable_step; [by apply reachable_root, list_elem_of_here|done]. }
      assert (Hf2 : n - size deps1 < S fuel).
      { pose proof (subseteq_size _ _ Hsub1). lia. }
      destruct (IHl deps1 Hl' Hb2 Hf2) as (E & Hsub & Hsound & Hall & Hclosed).
      split; [done|]. split; [set_solver|]. split; [|split].
      + intros x Hx. destruct (Hsound x Hx) as [Hx1|Hx1]; [|by right].
        destruct (Hsound1 x Hx1) as [[->%elem_of_singleton|Hx0]%elem_of_union
                                    |(y & Hy & Hyx)].
        * right. exists i. split; [done|]. by apply reachable_root, list_elem_of_here.
        * by left.
        * right. exists i. split; [done|].
          eapply reachable_trans; [|exact Hyx].
          eapply reachable_step; [by apply reachable_root, list_elem_of_here|done].
      + intros j [->|Hj]%elem_of_cons; [|by apply Hall].
        apply Hsub, Hsub1. set_solver.
      + intros x Hx Hnx y Hy.
        destruct (decide (x ∈ deps1)) as [Hx1|Hx1]; [|by eapply Hclosed].
        apply Hsub. destruct (decide (x = i)) as [->|Hxi].
        * by apply Hall1.
        * eapply Hclosed1; [done| |done]. set_solver. }
  apply Hloop; [done|done|done].
Qed.

End AllDeps.

Lemma getAllDeps_outcome (heap : Heap) (drv : ref) (n fuel : nat) :
  (forall x, reachable heap [drv] x -> x < n) ->
  n < fuel ->
  exists deps,
    getAllDeps heap fuel drv = Ok deps /\
    forall x, x ∈ deps <-> dependsOn heap drv x.
Proof.
  intros Hbound Hfuel. unfold getAllDeps.
  destruct (collect_spec heap drv n Hbound fuel drv ∅)
    as (E & _ & Hsound & Hall & Hclosed).
  - by apply reachable_root, list_elem_of_here.
  - set_solver.
  - rewrite size_empty. lia.
  - destruct (collect heap fuel drv ∅) as [r deps]. cbn [fst snd] in *. subst r.
    exists deps. split; [done|]. intros x. split.
    + intros Hx. destruct (Hsound x Hx) as [?|?]; [set_solver|done].
    + intros (y & Hy & Hyx). induction Hyx as [r Hr|u v _ IH Hv].
      * apply list_elem_of_singleton in Hr as ->. by apply Hall.
      * eapply Hclosed; [exact IH|set_solver|done].
Qed.

Lemma reachable_dependsOn (heap : Heap) (drv x : ref) :
  reachable heap [drv] x <-> x = drv \/ dependsOn heap drv x.
Proof.
  split.
  - induction 1 as [r Hr|u v _ IH Hv].
    + left. by apply list_elem_of_singleton in Hr.
    + right. destruct IH as [->|(y & Hy & Hyu)].
      * exists v. split; [done|]. by apply reachable_root, list_elem_of_here.
      * exists y. split; [done|]. by eapply reachable_step.
  - intros [->|(y & Hy & Hyx)]; [by apply reachable_root, list_elem_of_here|].
    eapply reachable_trans; [|exact Hyx].
    eapply reachable_step; [by apply reachable_root, list_elem_of_here|done].
Qed.

(** [getAllDeps(drv)] returns, on every graph with finitely many
    derivations in reach, cyclic or not, exactly the transitive
    dependencies of [drv]; [drv] itself is among them only when it lies on
    a cycle. *)
Theorem getAllDeps_spec (heap : Heap) (drv : ref) (n fuel : nat) :
  (forall x, reachable heap [drv] x -> x < n) ->
  n < fuel ->
  exists deps,
    getAllDeps heap fuel drv = Ok deps /\
    forall x, x ∈ deps <-> dependsOn heap drv x.
Proof. apply getAllDeps_outcome. Qed.

(** What [topoSort([drv])] returns holds [drv] and the derivations that
    [getAllDeps(drv)] returns, and no other. *)
Theorem topoSort_getAllDeps (heap : Heap) (drv : ref) (n fuel : nat)
    (order : list ref) :
  (forall x, reachable heap [drv] x -> x < n) ->
  n < fuel ->
  topoSort heap fuel [drv] = Ok order ->
  exists deps,
    getAllDeps heap fuel drv = Ok deps /\
    forall x, x ∈ order <-> x = drv \/ x ∈ deps.
Proof.
  intros Hbound Hfuel Hrun.
  destruct (getAllDeps_outcome heap drv n fuel Hbound Hfuel) as (deps & Hdeps & Hin).
  exists deps. split; [done|].
  pose proof (topoSort_outcome heap [drv] n Hbound fuel Hfuel) as H.
  rewrite Hrun in H. destruct H as (_ & Hall & _).
  intros x. rewrite Hall, reachable_dependsOn, Hin. done.
Qed.

Lemma scenario_reach (a lo hi : nat) :
  lo <= a < hi ->
  (forall u v, lo <= u < hi -> v ∈ edges Scenario.objects u -> lo <= v < hi) ->
  forall x, reachable Scenario.objects [a] x -> lo <= x < hi.
Proof.
  intros Ha Hstep x. induction 1 as [r Hr|u v _ IH Hv].
  - by apply list_elem_of_singleton in Hr as ->.
  - by eapply Hstep.
Qed.

Lemma scenario_cycle_reach (x : ref) :
  reachable Scenario.objects [9] x -> x < 12.
Proof.
  intros H. apply (scenario_reach 9 9 12) in H; [lia|lia|].
  intros u v Hu Hv.
  assert (Hcase : u = 9 \/ u = 10 \/ u = 11) by lia.
  destruct Hcase as [-> | [-> | ->]];
    apply list_elem_of_singleton in Hv; subst v; lia.
Qed.

Lemma scenario_diamond_reach (x : ref) :
  reachable Scenario.objects [6] x -> x < 7.
Proof.
  intros H. apply (scenario_reach 6 3 7) in H; [lia|lia|].
  intros u v Hu Hv.
  assert (Hcase : u = 3 \/ u = 4 \/ u = 5 \/ u = 6) by lia.
  destruct Hcase as [-> | [-> | [-> | ->]]].
  - by apply elem_of_nil in Hv.
  - apply list_elem_of_singleton in Hv as ->. lia.
  - apply list_elem_of_singleton in Hv as ->. lia.
  - apply elem_of_cons in Hv as [->|Hv]; [lia|].
    apply list_elem_of_singleton in Hv as ->. lia.
Qed.

Lemma getAllDeps_spec_witness :
  exists deps,
    getAllDeps Scenario.objects 13 9 = Ok deps /\
    9 ∈ deps /\
    forall x, x ∈ deps <-> dependsOn Scenario.objects 9 x.
Proof.
  destruct (getAllDeps_spec Scenario.objects 9 12 13) as (deps & H1 & H2).
  - apply scenario_cycle_reach.
  - lia.
  - exists deps. split; [exact H1|]. split; [|exact H2].
    apply H2. exists 10. split; [apply list_elem_of_here|].
    apply (reachable_step Scenario.objects [10] 11 9); [|apply list_elem_of_here].
    apply (reachable_step Scenario.objects [10] 10 11); [|apply list_elem_of_here].
    apply reachable_root, list_elem_of_here.
Defined.

Lemma topoSort_getAllDeps_witness :
  exists order deps,
    topoSort Scenario.objects 8 [6] = Ok order /\
    getAllDeps Scenario.objects 8 6 = Ok deps /\
    forall x, x ∈ order <-> x = 6 \/ x ∈ deps.
Proof.
  assert (exists order, topoSort Scenario.objects 8 [6] = Ok order) as [order Ho]
    by (eexists; vm_compute; reflexivity).
  destruct (topoSort_getAllDeps Scenario.objects 6 7 8 order) as (deps & H1 & H2).
  - apply scenario_diamond_reach.
  - lia.
  - exact Ho.
  - exists order, deps. split; [exact Ho|]. split; [exact H1|exact H2].
Defined.

(* ===================================================================== *)
(** * realize: what a build registers *)
(* ===================================================================== *)

Section Realize.

Context (process : Process).
Context (spawn : jsstring -> list jsstring -> option jsstring ->
                 option (list (jsstring * jsstring)) -> World -> Child * World).

(** [registerOutput(p, p)] leaves nothing at [p] when it returns. *)
Lemma registerOutput_same (this : Store) (p : jsstring) (w w' : World) :
  registerOutput this p p w = (Ok tt, w') -> disk w' !! p = None.
Proof.
  destruct (disk w !! p) as [n|] eqn:E.
  - rewrite registerOutput_present by (by rewrite E).
    intros [= <-]. cbn. apply lookup_delete_eq.
  - pose proof (registerOutput_free this p p w E) as T. rewrite E in T.
    rewrite T. discriminate.
Qed.

Lemma buildDirect_returns (store : Store) (drv : DrvFile) (config : BuildConfig)
    (w w' : World) :
  buildDirect process spawn store drv config w = (Ok tt, w') ->
  disk w' !! outputs_out_path drv = None.
Proof.
  unfold buildDirect. cbv zeta. intros H.
  bind_inv H. bind_inv H. bind_inv H. by apply registerOutput_same in H.
Qed.

(** Without a sandbox, [realize] returns the output path of a derivation
    file exactly when that path is already there, and then leaves the disk
    as it is: what the builder writes to [$out] is removed by
    [registerOutput(outPath, outPath)], so that a build never comes to a
    result. *)
Theorem realize_direct (fuel : nat) (store : Store) (drvPath : jsstring)
    (config : BuildConfig) (drv : DrvFile) (w : World) :
  sandbox config = Some none ->
  readDrv store drvPath w = (Ok drv, w) ->
  (is_Some (disk w !! outputs_out_path drv) ->
   realize process spawn (S fuel) store drvPath config w = (Ok (outputs_out_path drv), w)) /\
  (disk w !! outputs_out_path drv = None ->
   forall p w', realize process spawn (S fuel) store drvPath config w <> (Ok p, w')).
Proof.
  intros Hs Hr. cbn [realize]. cbv zeta.
  rewrite (bind_Ok _ _ _ _ _ Hr). split.
  - intros Hout. by rewrite (bind_Ok _ _ _ _ _ (has_present store _ w Hout)).
  - intros Hout p w' H.
    rewrite (bind_Ok _ _ _ _ _ (has_absent store _ w Hout)) in H.
    bind_inv H. bind_inv H.
    unfold spreadConfig in H1. cbn [sandbox] in H1. rewrite Hs in H1. cbn in H1.
    destruct a0. apply buildDirect_returns in H1.
    rewrite (bind_Ok _ _ _ _ _ (has_absent store _ s0 H1)) in H.
    discriminate H.
Qed.


End Realize.

Lemma realize_direct_witness :
  realize Scenario.linux Scenario.fillingBuilder 1 Scenario.store
    (js "/tix/store/abc-leaf.drv") Scenario.directConfig Scenario.builtStore
  = (Ok (js "/tix/store/abc-leaf"), Scenario.builtStore) /\
  ~ exists p w',
      realize Scenario.linux Scenario.fillingBuilder 1 Scenario.store
        (js "/tix/store/abc-leaf.drv") Scenario.directConfig Scenario.leafStore
      = (Ok p, w').
Proof.
  split.
  - apply (realize_direct Scenario.linux Scenario.fillingBuilder 0 Scenario.store
             (js "/tix/store/abc-leaf.drv") Scenario.directConfig Scenario.leafFile
             Scenario.builtStore); [reflexivity|reflexivity|].
    vm_compute. eauto.
  - intros (p & w' & H).
    apply (realize_direct Scenario.linux Scenario.fillingBuilder 0 Scenario.store
             (js "/tix/store/abc-leaf.drv") Scenario.directConfig Scenario.leafFile
             Scenario.leafStore) in H; [done|reflexivity|reflexivity|].
    vm_compute. reflexivity.
Defined.


(* ===================================================================== *)
(** * instantiate and the disk *)
(* ===================================================================== *)

Section Preserving.

Lemma preserving_bind {A B} (m : ST InstState A) (f : A -> ST InstState B) :
  preserving m -> (forall a, preserving (f a)) -> preserving (m ≫= f).
Proof.
  intros Hm Hf st. rewrite bind_unfold. specialize (Hm st).
  destruct (m st) as [[a|e|] st1]; [|exact Hm..].
  etransitivity; [exact Hm|apply Hf].
Qed.

Lemma preserving_ret {A} (a : A) : preserving (mret a).
Proof. intros st. reflexivity. Qed.

Lemma preserving_lift {A} (o : outcome A) : preserving (lift o).
Proof. intros st. reflexivity. Qed.

Lemma preserving_onSnd {A} (m : ST (gmap ref Paths) A) : preserving (onSnd m).
Proof. intros st. unfold onSnd. destruct (m st.2). reflexivity. Qed.

Lemma preserving_onFst {A} (m : M A) :
  (forall w, keeps w (m w).2) -> preserving (onFst m).
Proof. intros H st. unfold onFst. specialize (H st.1). by destruct (m st.1). Qed.

Lemma preserving_foldM {A B} (body : B -> A -> ST InstState B) (l : list A) :
  (forall acc x, preserving (body acc x)) -> forall acc, preserving (foldM body acc l).
Proof.
  intros H. induction l as [|x l IH]; intros acc; [apply preserving_ret|].
  cbn [foldM]. apply preserving_bind; [apply H|]. intros acc'. apply IH.
Qed.

End Preserving.

Section Instantiate.

Context (process : Process) (heap : Heap).

Lemma instantiate_preserving (fuel : nat) (store : Store) (drv : ref) :
  preserving (instantiate process heap fuel store drv).
Proof.
  revert drv. induction fuel as [|fuel IH]; intros drv; [by intros st|].
  cbn [instantiate]. cbv zeta.
  apply preserving_bind; [apply preserving_lift|]. intros _.
  apply preserving_bind; [apply preserving_onSnd|]. intros cache.
  destruct (cache !! drv); [apply preserving_ret|].
  apply preserving_bind.
  { apply preserving_foldM. intros acc x.
    apply preserving_bind; [apply IH|]. intros r. apply preserving_ret. }
  intros inputResults.
  apply preserving_bind; [apply preserving_lift|]. intros drvHash.
  apply preserving_bind.
  { destruct (src (heap drv)) as [[path|? ? ?]|]; try apply preserving_ret.
    apply preserving_bind; [|intros ?; apply preserving_ret].
    apply preserving_onFst. intros w. apply addSource_keeps. }
  intros inputSrcs.
  apply preserving_bind.
  { destruct (startsWith (builder (heap drv)) (js "/")); [apply preserving_ret|].
    destruct (startsWith (builder (heap drv)) (dir store)); [apply preserving_ret|].
    apply preserving_bind; [|intros ?; apply preserving_ret].
    apply preserving_onFst. intros w. apply addSource_keeps. }
  intros resolved.
  apply preserving_bind.
  { apply preserving_onFst. intros w. apply addWithPath_keeps. }
  intros _. apply preserving_bind; [apply preserving_onSnd|]. intros _.
  apply preserving_ret.
Qed.


Lemma addWithPath_returns (this : Store) (q : jsstring) (content : Content)
    (w w' : World) :
  addWithPath this q content w = (Ok tt, w') -> is_Some (disk w' !! q).
Proof.
  unfold addWithPath. rewrite bind_unfold. unfold has, existsSync.
  case_bool_decide as Hq; cbn [negb].
  - unfold mret, ST_ret. intros E. by simplify_eq.
  - rewrite atomicWrite_run. cbv zeta.
    destruct (disk w !! (pathJoin (dir this) (js ".tmp-") ++ sixDigits (tick w)));
      [discriminate|].
    case_bool_decide; [discriminate|].
    destruct (renameCheck _ _ _) as [[]|e|]; [|discriminate..].
    intros [= <-]. cbn. by rewrite lookup_insert_eq.
Qed.

Lemma instantiate_returns (fuel : nat) (store : Store) (drv : ref) (w w' : World)
    (cache cache' : gmap ref Paths) (p : Paths) :
  cache !! drv = None ->
  instantiate process heap fuel store drv (w, cache) = (Ok p, (w', cache')) ->
  (exists h c,
     hashDerivationModulo process heap fuel drv (dir store) ∅ = (Ok h, c) /\
     outPath p = computeOutputPath h (dir store) (name (heap drv))) /\
  drvPath p = outPath p ++ js ".drv" /\
  is_Some (disk w' !! drvPath p) /\
  cache' !! drv = Some p.
Proof.
  intros Hc H.
  destruct (instantiate_outPath process heap fuel store drv w cache p _ Hc H)
    as (h & c & Hh & Hdrv & Hout).
  assert (Hout' : outPath p = computeOutputPath h (dir store) (name (heap drv))).
  { rewrite Hout. destruct (truthyOpt (outputHash (heap drv))) eqn:Hf; [|done].
    rewrite computeFixedOutputPath_eq. destruct fuel as [|fuel]; [discriminate|].
    rewrite hashDerivationModulo_fixed in Hh by done. by injection Hh as <- _. }
  split; [by exists h, c|]. split; [by rewrite Hdrv, Hout'|].
  destruct fuel as [|fuel]; [discriminate|].
  cbn [instantiate] in H.
  bind_inv H. unfold lift in H0. injection H0 as _ <-.
  bind_inv H. unfold onSnd, get in H0. cbn in H0. injection H0 as <- <-.
  rewrite Hc in H.
  bind_inv H. bind_inv H. bind_inv H. bind_inv H. cbv zeta in H. bind_inv H.
  bind_inv H. unfold mret, ST_ret in H. injection H as <- ->.
  unfold onFst in H4. destruct (addDrv _ _ _ _) as [r w4] eqn:Hadd.
  injection H4 as -> <-.
  unfold onSnd, modify in H5. cbn in H5. injection H5; intros; subst.
  split.
  - cbn [drvPath fst snd]. destruct a4. by eapply addWithPath_returns.
  - by rewrite lookup_insert_eq.
Qed.

(** What [instantiate] returns for a derivation that is not in the cache:
    the output path is computed from the hash that [hashDerivationModulo]
    gives with a new cache, and the derivation file is at the output path
    followed by [.drv], for a fixed-output derivation too; that file is
    there, and the cache holds the result. *)
Theorem instantiate_paths (fuel : nat) (store : Store) (drv : ref) (w w' : World)
    (cache cache' : gmap ref Paths) (p : Paths) :
  cache !! drv = None ->
  instantiate process heap fuel store drv (w, cache) = (Ok p, (w', cache')) ->
  (exists h c,
     hashDerivationModulo process heap fuel drv (dir store) ∅ = (Ok h, c) /\
     outPath p = computeOutputPath h (dir store) (name (heap drv))) /\
  drvPath p = outPath p ++ js ".drv" /\
  is_Some (disk w' !! drvPath p) /\
  cache' !! drv = Some p.
Proof. apply instantiate_returns. Qed.

(** Once [instantiate] has returned for a derivation, it returns the same
    paths for it from then on and leaves the disk and the cache as they
    are. *)
Theorem instantiate_again (fuel fuel' : nat) (store : Store) (drv : ref)
    (st st' : InstState) (p : Paths) :
  instantiate process heap fuel store drv st = (Ok p, st') ->
  st'.2 !! drv = Some p /\
  instantiate process heap (S fuel') store drv st' = (Ok p, st').
Proof.
  intros H. destruct st as [w cache], st' as [w' cache'].
  assert (Hv : validateDerivation (heap drv) = Ok tt).
  { destruct fuel as [|fuel]; [discriminate|]. cbn [instantiate] in H.
    bind_inv H. unfold lift in H0. injection H0 as H0 _. by destruct a. }
  assert (Hc : cache' !! drv = Some p).
  { destruct (cache !! drv) as [cached|] eqn:Hc.
    - destruct fuel as [|fuel]; [discriminate|]. cbn [instantiate] in H.
      bind_inv H. unfold lift in H0. injection H0 as _ <-.
      bind_inv H. unfold onSnd, get in H0. cbn in H0. injection H0 as <- <-.
      rewrite Hc in H. by injection H as <- <- <-.
    - by destruct (instantiate_returns _ _ _ _ _ _ _ _ Hc H) as (_ & _ & _ & ?). }
  split; [done|].
  cbn [instantiate]. rewrite bind_unfold. unfold lift. rewrite Hv.
  rewrite bind_unfold. unfold onSnd, get. cbn. by rewrite Hc.
Qed.

(** Two fixed-output derivations with the same name and declared hash
    share their derivation file: instantiated one after the other, the
    second gets the path of the first, and the file at that path stays the
    one that the first call left there. *)
Theorem instantiate_fixed_output_file (fa fb : nat) (store : Store) (a b : ref)
    (w w1 w2 : World) (ca cb : gmap ref Paths) (pa pb : Paths) :
  truthyOpt (outputHash (heap a)) = true ->
  name (heap a) = name (heap b) ->
  outputHash (heap a) = outputHash (heap b) ->
  outputHashMode (heap a) = outputHashMode (heap b) ->
  instantiate process heap fa store a (w, ∅) = (Ok pa, (w1, ca)) ->
  instantiate process heap fb store b (w1, ∅) = (Ok pb, (w2, cb)) ->
  drvPath pb = drvPath pa /\
  is_Some (disk w1 !! drvPath pa) /\
  disk w2 !! drvPath pa = disk w1 !! drvPath pa.
Proof.
  intros Hfa Hn Hh Hm Ha Hb.
  assert (Hfb : truthyOpt (outputHash (heap b)) = true) by (by rewrite <- Hh).
  destruct (instantiate_returns _ _ _ _ _ _ _ _ (lookup_empty _) Ha)
    as ((ha & c1 & Hha & Houta) & Hda & Hthere & _).
  destruct (instantiate_returns _ _ _ _ _ _ _ _ (lookup_empty _) Hb)
    as ((hb & c2 & Hhb & Houtb) & Hdb & _ & _).
  destruct fa as [|fa]; [discriminate|]. destruct fb as [|fb]; [discriminate|].
  rewrite hashDerivationModulo_fixed in Hha, Hhb by done.
  injection Hha as <- _. injection Hhb as <- _.
  assert (E : fixedHash (heap b) = fixedHash (heap a))
    by (unfold fixedHash; by rewrite Hh, Hm).
  split; [by rewrite Hdb, Hda, Houtb, Houta, E, Hn|]. split; [done|].
  pose proof (instantiate_preserving (S fb) store b (w1, ∅) _ Hthere) as K.
  by rewrite Hb in K.
Qed.

End Instantiate.


Lemma instantiate_paths_witness :
  exists p,
    (Scenario.instantiated 6).1 = Ok p /\
    drvPath p = outPath p ++ js ".drv" /\
    is_Some (disk (Scenario.instantiated 6).2.1 !! drvPath p).
Proof.
  assert (exists p, (Scenario.instantiated 6).1 = Ok p) as [p Hp]
    by (eexists; vm_compute; reflexivity).
  exists p. split; [exact Hp|].
  unfold Scenario.instantiated in *.
  destruct (instantiate _ _ _ _ 6 _) as [r [w' cache']] eqn:Hrun.
  cbn [fst snd] in *. subst r.
  destruct (instantiate_paths Scenario.linux Scenario.objects 8 Scenario.store 6
              Scenario.emptyStore w' ∅ cache' p (lookup_empty _) Hrun)
    as (_ & H1 & H2 & _).
  split; [exact H1|exact H2].
Defined.

Lemma instantiate_again_witness :
  exists p,
    (Scenario.instantiated 6).1 = Ok p /\
    instantiate Scenario.linux Scenario.objects 1 Scenario.store 6
      (Scenario.instantiated 6).2
    = (Ok p, (Scenario.instantiated 6).2).
Proof.
  assert (exists p, (Scenario.instantiated 6).1 = Ok p) as [p Hp]
    by (eexists; vm_compute; reflexivity).
  exists p. split; [exact Hp|].
  unfold Scenario.instantiated in *.
  destruct (instantiate _ _ 8 _ 6 _) as [r st'] eqn:Hrun.
  cbn [fst snd] in *. subst r.
  exact (proj2 (instantiate_again Scenario.linux Scenario.objects 8 0 Scenario.store 6
                  _ _ _ Hrun)).
Defined.

Lemma instantiate_fixed_output_file_witness :
  exists pa pb,
    (Scenario.instantiated 0).1 = Ok pa /\
    (instantiate Scenario.linux Scenario.objects 8 Scenario.store 1
       ((Scenario.instantiated 0).2.1, ∅)).1 = Ok pb /\
    drvPath pb = drvPath pa /\
    disk (instantiate Scenario.linux Scenario.objects 8 Scenario.store 1
            ((Scenario.instantiated 0).2.1, ∅)).2.1 !! drvPath pa
    = disk (Scenario.instantiated 0).2.1 !! drvPath pa.
Proof.
  assert (exists pa, (Scenario.instantiated 0).1 = Ok pa) as [pa Ha]
    by (eexists; vm_compute; reflexivity).
  assert (exists pb, (instantiate Scenario.linux Scenario.objects 8 Scenario.store 1
                        ((Scenario.instantiated 0).2.1, ∅)).1 = Ok pb) as [pb Hb]
    by (eexists; vm_compute; reflexivity).
  exists pa, pb. split; [exact Ha|]. split; [exact Hb|].
  unfold Scenario.instantiated in *.
  destruct (instantiate _ _ _ _ 0 _) as [ra [w1 ca]] eqn:Hra.
  cbn [fst snd] in *. subst ra.
  destruct (instantiate _ _ _ _ 1 _) as [rb [w2 cb]] eqn:Hrb.
  cbn [fst snd] in *. subst rb.
  destruct (instantiate_fixed_output_file Scenario.linux Scenario.objects 8 8
              Scenario.store 0 1 Scenario.emptyStore w1 w2 ca cb pa pb
              eq_refl eq_refl eq_refl eq_refl Hra Hrb) as (H1 & _ & H2).
  split; [exact H1|exact H2].
Defined.

(* ===================================================================== *)
(** * instantiate on a cycle *)
(* ===================================================================== *)

Section Cycles.

Context (process : Process) (heap : Heap).

Lemma onFst_cache {A} (m : M A) (st : InstState) : (onFst m st).2.2 = st.2.
Proof. unfold onFst. by destruct (m st.1). Qed.

(** A set of derivations each with an input in the set: [instantiate]
    does not return for any of them, and puts none of them in the
    cache. *)
Lemma instantiate_trap (P : ref -> Prop) (store : Store) :
  (forall x, P x -> exists y, y ∈ default [] (inputs (heap x)) /\ P y) ->
  forall fuel drv st,
    (forall x, P x -> st.2 !! x = None) ->
    (forall x, P x -> (instantiate process heap fuel store drv st).2.2 !! x = None) /\
    (P drv -> forall p, (instantiate process heap fuel store drv st).1 <> Ok p).
Proof.
  intros Htrap. induction fuel as [|fuel IH]; intros drv st Hst; [by split|].
  assert (Hloop : forall l acc s,
    (forall x, P x -> s.2 !! x = None) ->
    (forall x, P x -> (foldM (fun (inputResults : list (ref * Paths)) input =>
                 result ← instantiate process heap fuel store input;
                 mret (mapSet inputResults input result)) acc l s).2.2 !! x = None) /\
    ((exists y, y ∈ l /\ P y) ->
     forall r, (foldM (fun (inputResults : list (ref * Paths)) input =>
                 result ← instantiate process heap fuel store input;
                 mret (mapSet inputResults input result)) acc l s).1 <> Ok r)).
  { induction l as [|i l IHl]; intros acc s Hs.
    { split; [done|]. intros (y & Hy & _). by apply elem_of_nil in Hy. }
    cbn [foldM]. rewrite !bind_unfold.
    destruct (IH i s Hs) as (Hc1 & Hno).
    destruct (instantiate process heap fuel store i s) as [[r|e|] s1] eqn:Hrun;
      cbn [fst snd] in *; [|by split..].
    destruct (IHl (mapSet acc i r) s1 Hc1) as (H1 & H2).
    split; [done|]. intros (y & [->|Hy]%elem_of_cons & HP).
    - by destruct (Hno HP r).
    - apply H2. eauto. }
  destruct (instantiate process heap (S fuel) store drv st) as [res st'] eqn:H.
  cbn [fst snd]. cbn [instantiate] in H.
  rewrite bind_unfold in H. unfold lift at 1 in H.
  destruct (validateDerivation (heap drv)) as [[]|e|];
    [|injection H as <- <-; by split..].
  rewrite bind_unfold in H. unfold onSnd at 1, get at 1 in H. cbn [fst snd] in H.
  cbv zeta in H.
  replace (st.1, st.2) with st in H by (by destruct st).
  destruct (st.2 !! drv) as [cached|] eqn:Hhit.
  { injection H as <- <-. split; [done|].
    intros HP. rewrite (Hst _ HP) in Hhit. discriminate. }
  rewrite bind_unfold in H.
  destruct (Hloop (default [] (inputs (heap drv))) [] st Hst) as (Hc1 & Hno).
  destruct (foldM _ [] _ st) as [[irs|e|] s1] eqn:Hrun; cbn [fst snd] in *;
    [|injection H as <- <-; by split..].
  assert (HnP : ~ P drv).
  { intros HP. by destruct (Hno (Htrap _ HP) irs). }
  split; [|done].
  rewrite bind_unfold in H. unfold lift at 1 in H.
  destruct (hashDerivationModulo _ _ _ _ _ _).1 as [h|e|]; cbv beta iota in H;
    [|injection H as <- <-; by apply Hc1..].
  match type of H with context [(?m ≫= _) s1] => set (srcStep := m) in H end.
  rewrite bind_unfold in H.
  assert (Hsrc : (srcStep s1).2.2 = s1.2).
  { unfold srcStep. destruct (src (heap drv)) as [[path|? ? ?]|]; try done.
    rewrite bind_unfold. pose proof (onFst_cache (addSource store path None) s1) as E.
    by destruct (onFst _ s1) as [[?|?|] ?]. }
  destruct (srcStep s1) as [[srcs|e|] s2]; cbn [fst snd] in *;
    [|injection H as <- <-; rewrite Hsrc; by apply Hc1..].
  match type of H with context [(?m ≫= _) s2] => set (builderStep := m) in H end.
  rewrite bind_unfold in H.
  assert (Hb : (builderStep s2).2.2 = s2.2).
  { unfold builderStep.
    destruct (startsWith (builder (heap drv)) (js "/")); [done|].
    destruct (startsWith (builder (heap drv)) (dir store)); [done|].
    rewrite bind_unfold.
    pose proof (onFst_cache (addSource store (builder (heap drv))
                               (Some (name (heap drv) ++ js "-builder"))) s2) as E.
    by destruct (onFst _ s2) as [[?|?|] ?]. }
  destruct (builderStep s2) as [[resolved|e|] s3]; cbn [fst snd] in *;
    [|injection H as <- <-; rewrite Hb, Hsrc; by apply Hc1..].
  cbv zeta in H. rewrite bind_unfold in H.
  match type of H with context [onFst ?m s3] =>
    pose proof (onFst_cache m s3) as Hd; destruct (onFst m s3) as [[[]|e|] s4]
  end; cbn [fst snd] in *;
    [|injection H as <- <-; rewrite Hd, Hb, Hsrc; by apply Hc1..].
  rewrite bind_unfold in H. unfold onSnd, modify in H. cbn [fst snd] in H.
  unfold mret, ST_ret in H. injection H as <- <-. cbn [snd].
  intros x HP. rewrite lookup_insert_ne by (by intros ->).
  rewrite Hd, Hb, Hsrc. by apply Hc1.
Qed.

(** For a derivation on a cycle, [instantiate] with a new cache does not
    return, however deep the recursion may go: it either throws on the way
    (a derivation that does not validate, a file that cannot be read) or
    recurses without end. *)
Theorem instantiate_cycle (p : list ref) (drv : ref) (store : Store) (fuel : nat)
    (w : World) (r : Paths) :
  cyclePath heap p ->
  drv ∈ p ->
  (instantiate process heap fuel store drv (w, ∅)).1 <> Ok r.
Proof.
  intros Hp Hdrv.
  destruct (instantiate_trap (fun x => x ∈ p) store) with
    (fuel := fuel) (drv := drv) (st := (w, ∅) : InstState) as (_ & H).
  - intros x Hx. by apply cyclePath_next.
  - intros x _. apply lookup_empty.
  - by apply H.
Qed.

End Cycles.

Lemma instantiate_cycle_witness :
  ~ exists r, (instantiate Scenario.linux Scenario.objects 50 Scenario.store 9
                 (Scenario.emptyStore, ∅)).1 = Ok r.
Proof.
  intros [r Hr]. revert Hr.
  apply (instantiate_cycle Scenario.linux Scenario.objects [9; 10; 11; 9]).
  - split.
    + intros i a b Ha Hb.
      do 3 (destruct i as [|i];
            [injection Ha as <-; injection Hb as <-; vm_compute;
             apply list_elem_of_here|]).
      destruct i; discriminate.
    + by exists 9, [10; 11].
  - apply list_elem_of_here.
Defined.

(* ===================================================================== *)
(** * Object literals and spreads: reading a property back *)
(* ===================================================================== *)

Section Lookup.

Context {V : Type}.
Implicit Types (o : list (jsstring * V)) (k : jsstring) (v : V).

Lemma getOwn_None o k : getOwn o k = None <-> k ∉ keys o.
Proof.
  induction o as [|[k' v'] o IH]; [by split; [intros _ ?%elem_of_nil|]|].
  cbn [getOwn]. unfold keys in *. cbn [map fst]. rewrite not_elem_of_cons.
  destruct (strEqb k' k) eqn:E.
  - apply strEqb_true in E as ->. split; [discriminate|by intros [? _]].
  - apply strEqb_false in E. rewrite IH. naive_solver.
Qed.

Lemma getOwn_app o1 o2 k :
  getOwn (o1 ++ o2) k = from_option Some (getOwn o2 k) (getOwn o1 k).
Proof.
  induction o1 as [|[k' v'] o1 IH]; [done|]. cbn [app getOwn].
  by destruct (strEqb k' k).
Qed.

Lemma getOwn_replaceProp o k v k' :
  getOwn (replaceProp o k v) k' =
  if strEqb k k' then (if hasOwn o k then Some v else None) else getOwn o k'.
Proof.
  induction o as [|[k0 v0] o IH]; [by destruct (strEqb k k')|].
  cbn [replaceProp hasOwn existsb fst]. fold (hasOwn o k).
  destruct (strEqb k0 k) eqn:E0.
  - apply strEqb_true in E0 as ->. cbn [getOwn orb]. by destruct (strEqb k k').
  - cbn [getOwn orb]. rewrite IH. destruct (strEqb k k') eqn:E.
    + apply strEqb_true in E as <-. by rewrite E0.
    + done.
Qed.

Lemma getOwn_insertIndex o n k v k' :
  k ∉ keys o ->
  getOwn (insertIndex o n k v) k' = if strEqb k k' then Some v else getOwn o k'.
Proof.
  induction o as [|[k0 v0] o IH]; intros Hk.
  { cbn. by destruct (strEqb k k'). }
  unfold keys in Hk. cbn [map fst] in Hk. apply not_elem_of_cons in Hk as [Hne Hk].
  cbn [insertIndex].
  destruct (arrayIndex k0) as [m|]; [destruct (m <? n)%N|]; try done.
  cbn [getOwn]. rewrite (IH Hk). destruct (strEqb k0 k') eqn:E0; [|done].
  apply strEqb_true in E0 as ->.
  by rewrite (proj2 (strEqb_false k k') Hne).
Qed.

(** A property defined is the property read; the others stay. *)
Lemma getOwn_defineProp o k v k' :
  getOwn (defineProp o k v) k' = if strEqb k k' then Some v else getOwn o k'.
Proof.
  unfold defineProp. destruct (hasOwn o k) eqn:Hown.
  - by rewrite getOwn_replaceProp, Hown.
  - apply hasOwn_false in Hown.
    destruct (arrayIndex k); [by apply getOwn_insertIndex|].
    rewrite getOwn_app. cbn [getOwn].
    destruct (strEqb k k') eqn:E.
    + apply strEqb_true in E as <-. by rewrite (proj2 (getOwn_None o k)).
    + by destruct (getOwn o k').
Qed.

Lemma getOwn_spread (target source : list (jsstring * V)) k :
  getOwn (spread target source) k
  = from_option Some (getOwn target k) (getOwn (reverse source) k).
Proof.
  unfold spread. revert target.
  induction source as [|[k' v'] source IH]; intros target; [done|].
  cbn [foldl fst snd]. rewrite IH, getOwn_defineProp, reverse_cons, getOwn_app.
  cbn [getOwn]. destruct (getOwn (reverse source) k); [done|].
  by destruct (strEqb k' k).
Qed.

Lemma getOwn_reverse o k : NoDup (keys o) -> getOwn (reverse o) k = getOwn o k.
Proof.
  intros Hnd. destruct (getOwn o k) as [v|] eqn:E.
  - apply getOwn_elem in E; [|done]. apply getOwn_elem.
    + unfold keys in *. by rewrite fmap_reverse, reverse_Permutation.
    + by apply elem_of_reverse.
  - apply getOwn_None in E. apply getOwn_None.
    unfold keys in *. by rewrite fmap_reverse, elem_of_reverse.
Qed.

End Lookup.

Section SpreadKeys.

Context {V : Type}.
Implicit Types (o : list (jsstring * V)) (k : jsstring) (v : V).

Lemma keys_defineProp o k v :
  NoDup (keys o) -> NoDup (keys (defineProp o k v)).
Proof.
  intros Hnd. unfold defineProp. destruct (hasOwn o k) eqn:Hown.
  - by rewrite keys_replaceProp.
  - apply hasOwn_false in Hown. destruct (arrayIndex k).
    + rewrite keys_insertIndex. by apply NoDup_cons.
    + unfold keys. rewrite map_app. cbn.
      rewrite <- Permutation_cons_append. by apply NoDup_cons.
Qed.

Lemma keys_spread (target source : list (jsstring * V)) :
  NoDup (keys target) -> NoDup (keys (spread target source)).
Proof.
  unfold spread. revert target.
  induction source as [|[k v] source IH]; intros target Hnd; [done|].
  cbn [foldl]. by apply IH, keys_defineProp.
Qed.

End SpreadKeys.

(* ===================================================================== *)
(** * Decimal numerals *)
(* ===================================================================== *)

Lemma js_inj (s t : string) : js s = js t -> s = t.
Proof.
  unfold js. intros E.
  rewrite <- (string_of_list_ascii_of_string s), <- (string_of_list_ascii_of_string t).
  f_equal. revert E. generalize (list_ascii_of_string t) as b.
  induction (list_ascii_of_string s) as [|x a IH]; intros [|y b] E;
    try discriminate; [done|].
  injection E as Exy E. f_equal; [|by apply IH].
  by rewrite <- (ascii_N_embedding x), <- (ascii_N_embedding y), Exy.
Qed.

Lemma decimal_nat_inj (i j : nat) :
  decimal (Z.of_nat i) = decimal (Z.of_nat j) -> i = j.
Proof.
  assert (Hpos : forall p, decimal (Z.pos p) <> js "0").
  { intros p E. cbn [decimal] in E. apply js_inj in E.
    change "0"%string with (NilEmpty.string_of_uint (Decimal.D0 Decimal.Nil)) in E.
    apply (f_equal NilEmpty.uint_of_string) in E. rewrite !NilEmpty.usu in E.
    injection E as E. by apply DecimalPos.Unsigned.to_uint_nonzero in E. }
  intros E. apply Nat2Z.inj.
  destruct (Z.of_nat i) as [|p|p] eqn:Ei, (Z.of_nat j) as [|q|q] eqn:Ej; try lia.
  - symmetry in E. by apply Hpos in E.
  - by apply Hpos in E.
  - cbn [decimal] in E. apply js_inj in E.
    apply (f_equal NilEmpty.uint_of_string) in E. rewrite !NilEmpty.usu in E.
    injection E as E. apply DecimalPos.Unsigned.to_uint_inj in E. by subst.
Qed.

(* ===================================================================== *)
(** * The environment of a derivation file *)
(* ===================================================================== *)

Lemma inputs_env_keys (rs : list Paths) (k : jsstring) (n : nat) :
  k ∈ keys (imap (fun i r => (js "input" ++ decimal (Z.of_nat (n + i)), outPath r)) rs) ->
  exists i, k = js "input" ++ decimal (Z.of_nat i).
Proof.
  revert n. induction rs as [|r rs IH]; intros n; [by intros ?%elem_of_nil|].
  cbn [imap]. unfold keys. cbn [map fst].
  intros [->|Hk]%elem_of_cons; [eauto|].
  apply (IH (S n)). unfold keys.
  erewrite imap_ext; [exact Hk|]. intros i x _. cbn. do 3 f_equal. lia.
Qed.

Lemma inputs_env_NoDup (rs : list Paths) :
  NoDup (keys (imap (fun i r => (js "input" ++ decimal (Z.of_nat i), outPath r)) rs)).
Proof.
  apply NoDup_alt. intros i j k. unfold keys.
  rewrite !list_lookup_fmap, !list_lookup_imap.
  destruct (rs !! i); [|discriminate]. destruct (rs !! j); [|discriminate].
  cbn. intros [= <-] [= E]. by apply decimal_nat_inj in E.
Qed.

(** The environment that [instantiate] gives a derivation file.  The six
    standard variables have the standard values, whatever the derivation's
    [env] says; [input<i>] is the output path of the input that the loop
    over the inputs met as its [i]-th new one; every other variable of the
    derivation's [env] is kept. *)
Theorem drvEnv_spec (d : Derivation) (out system storeDir : jsstring)
    (inputResults : list (ref * Paths)) :
  let e := drvEnv d out system storeDir inputResults in
  (getOwn e (js "out") = Some out /\
   getOwn e (js "name") = Some (name d) /\
   getOwn e (js "system") = Some system /\
   getOwn e (js "PATH") = Some (js "/path-not-set") /\
   getOwn e (js "HOME") = Some (js "/homeless-shelter") /\
   getOwn e (js "NIX_STORE") = Some storeDir) /\
  (forall i r, inputResults !! i = Some r ->
     getOwn e (js "input" ++ decimal (Z.of_nat i)) = Some (outPath r.2)) /\
  (forall k,
     NoDup (keys (default [] (env d))) ->
     k ∉ [js "out"; js "name"; js "system"; js "PATH"; js "HOME"; js "NIX_STORE"] ->
     (forall i, k <> js "input" ++ decimal (Z.of_nat i)) ->
     getOwn e k = getOwn (default [] (env d)) k).
Proof.
  cbv zeta. unfold drvEnv. cbv zeta.
  set (src := imap (fun i r => (js "input" ++ decimal (Z.of_nat i), outPath r))
                   (map snd inputResults)).
  assert (Hnd : NoDup (keys src)) by apply inputs_env_NoDup.
  assert (Hin : forall k,
    getOwn (reverse (spread [] src)) k = getOwn src k).
  { intros k. rewrite getOwn_reverse by (apply keys_spread; constructor).
    rewrite getOwn_spread. rewrite getOwn_reverse by done.
    by destruct (getOwn src k). }
  assert (Hfree : forall k, (forall i, k <> js "input" ++ decimal (Z.of_nat i)) ->
                            getOwn src k = None).
  { intros k Hk. apply getOwn_None. intros Hin'.
    apply (inputs_env_keys _ k 0) in Hin' as [i ->]. by apply (Hk i). }
  assert (Hstd : forall k, head k <> Some 105%N ->
                           forall i, k <> js "input" ++ decimal (Z.of_nat i)).
  { intros k Hk i ->. by apply Hk. }
  split; [|split].
  - repeat split; rewrite getOwn_spread, Hin, Hfree by (by apply Hstd);
      cbn [from_option]; repeat (rewrite getOwn_defineProp; try reflexivity).
  - intros i [r p] Hi. rewrite getOwn_spread, Hin.
    assert (Hel : (js "input" ++ decimal (Z.of_nat i), outPath p) ∈ src).
    { apply list_elem_of_lookup. exists i. unfold src.
      rewrite list_lookup_imap, list_lookup_fmap, Hi. done. }
    apply (getOwn_elem _ _ _ Hnd) in Hel. by rewrite Hel.
  - intros k Henv Hk Hni. rewrite getOwn_spread, Hin, Hfree by done.
    cbn [from_option].
    repeat (rewrite getOwn_defineProp;
            rewrite (proj2 (strEqb_false _ k)) by (intros <-; apply Hk; set_solver)).
    rewrite getOwn_spread. cbn [getOwn from_option].
    rewrite getOwn_reverse by done. by destruct (getOwn _ k).
Qed.

(* ===================================================================== *)
(** * api.ts: the name that [sh] gives a script *)
(* ===================================================================== *)

Lemma replaceOthers_chars (s : jsstring) :
  Forall (fun c => nameChar c = true) (replaceOthers s).
Proof.
  unfold replaceOthers. apply Forall_fmap, Forall_forall. intros c _. cbn.
  by destruct (nameChar c) eqn:E.
Qed.

Lemma collapseHyphens_chars (P : N -> Prop) (s : jsstring) :
  Forall P s -> Forall P (collapseHyphens s).
Proof.
  induction 1 as [|c rest Hc Hrest IH]; [constructor|].
  cbn [collapseHyphens]. destruct (c =? 45)%N; [|by constructor].
  destruct rest as [|d rest']; [by constructor|].
  destruct (d =? 45)%N; [exact IH|by constructor].
Qed.

(** Whatever the template and the values, the derivation that [sh] makes
    has a name that is not empty, has at most 32 characters, all of them
    letters, digits, hyphens or underscores, so neither a slash nor a NUL;
    its builder is [/bin/sh], its script is the second argument, and its
    inputs are the derivations among the values, in their order. *)
Theorem sh_spec (heap : Heap) (strings : list jsstring) (values : list ShValue) :
  let d := sh heap strings values in
  name d <> [] /\
  length (name d) <= 32 /\
  Forall (fun c => nameChar c = true) (name d) /\
  includes (name d) 47 = false /\
  includes (name d) 0 = false /\
  builder d = js "/bin/sh" /\
  args d = Some [js "-c"; interpolate heap strings values] /\
  forall r, r ∈ default [] (inputs d) <-> ShDrv r ∈ values.
Proof.
  cbv zeta. unfold sh. cbv zeta. cbn [name builder args inputs default].
  set (sanitized := take 32 (collapseHyphens (replaceOthers _))).
  assert (Hchars : Forall (fun c => nameChar c = true)
                          (if truthy sanitized then sanitized else js "script")).
  { destruct (truthy sanitized).
    - apply Forall_take, collapseHyphens_chars, replaceOthers_chars.
    - apply (bool_decide_unpack _). vm_compute. exact I. }
  assert (Hnot : forall c, nameChar c = false ->
            includes (if truthy sanitized then sanitized else js "script") c = false).
  { intros c Hc. unfold includes. apply not_true_iff_false. intros Hex.
    apply existsb_exists in Hex as (x & Hx & Hxc). apply N.eqb_eq in Hxc as <-.
    rewrite Forall_forall in Hchars. apply list_elem_of_In in Hx.
    rewrite (Hchars c Hx) in Hc. discriminate. }
  split; [|split; [|split; [done|split; [by apply Hnot|split; [by apply Hnot|]]]]].
  - destruct sanitized; [discriminate|done].
  - destruct (truthy sanitized); [|apply (bool_decide_unpack _); vm_compute; exact I].
    unfold sanitized. rewrite length_take. lia.
  - split; [done|]. split; [done|]. intros r. cbn [from_option id].
    rewrite list_elem_of_omap. split.
    + intros ([s|r'] & Hin & E); [discriminate|]. by injection E as ->.
    + intros Hin. by exists (ShDrv r).
Qed.

(** The example of the documentation. *)
Example sh_hello :
  name (sh Scenario.objects
          [[10%N] ++ js "  echo " ++ [34%N] ++ js "Hello, World!" ++ [34%N]
             ++ js " > $out/hello.txt" ++ [10%N]] [])
  = js "echo-Hello-World-out-hello-txt".
Proof. vm_compute. reflexivity. Qed.

(** A derivation among the values leaves its name as a placeholder, and
    becomes an input. *)
Example sh_with_input :
  let d := sh Scenario.objects [js "cat "; js "/x > $out"] [ShDrv 3] in
  args d = Some [js "-c"; js "cat ${D}/x > $out"] /\
  inputs d = Some [3] /\
  name d = js "cat-D-x-out".
Proof. vm_compute. repeat split. Qed.

(* ===================================================================== *)
(** * stableStringify: properties without a value *)
(* ===================================================================== *)

Lemma merge_sort_filter {A} (R : relation A) `{!RelDecision R, !Total R, !Transitive R}
    (Q : A -> Prop) `{!forall x, Decision (Q x)} (l : list A) :
  (forall x y, x ∈ l -> y ∈ l -> R x y -> R y x -> x = y) ->
  merge_sort R (filter Q l) = filter Q (merge_sort R l).
Proof.
  intros Hanti. apply (StronglySorted_unique_strong R).
  - intros x y Hx Hy. rewrite merge_sort_Permutation in Hx.
    apply list_elem_of_filter in Hx as [_ Hx].
    apply list_elem_of_filter in Hy as [_ Hy]. rewrite merge_sort_Permutation in Hy.
    by apply Hanti.
  - apply StronglySorted_merge_sort; apply _.
  - apply StronglySorted_filter_keep, StronglySorted_merge_sort; apply _.
  - by rewrite !merge_sort_Permutation.
Qed.

Lemma filter_swap {A} (P Q : A -> Prop) `{!forall x, Decision (P x)}
    `{!forall x, Decision (Q x)} (l : list A) :
  filter P (filter Q l) = filter Q (filter P l).
Proof. rewrite !list_filter_filter. apply list_filter_iff. intros x. tauto. Qed.

Lemma codeOrder_filter (Q : jsstring -> Prop) `{!forall x, Decision (Q x)}
    (ks : list jsstring) :
  codeOrder (filter Q ks) = filter Q (codeOrder ks).
Proof.
  unfold codeOrder. rewrite filter_app. f_equal.
  - rewrite filter_swap. apply merge_sort_filter; [apply _..|].
    intros x y [Hx _]%list_elem_of_filter [Hy _]%list_elem_of_filter.
    by apply indexLe_antisym.
  - unfold sort. rewrite merge_sort_filter.
    + apply filter_swap.
    + apply _.
    + apply _.
    + intros x y _ _. apply strLe_antisym.
Qed.

Lemma omap_filter {A B} (f : A -> option B) (Q : A -> Prop) `{!forall x, Decision (Q x)}
    (l : list A) :
  (forall x, x ∈ l -> ~ Q x -> f x = None) ->
  omap f (filter Q l) = omap f l.
Proof.
  induction l as [|x l IH]; intros Hf; [done|].
  assert (IH' : omap f (filter Q l) = omap f l).
  { apply IH. intros y Hy. apply Hf. by apply list_elem_of_further. }
  destruct (decide (Q x)) as [HQ|HQ].
  - rewrite filter_cons_True by done. cbn [omap list_omap]. by rewrite IH'.
  - rewrite filter_cons_False by done. cbn [omap list_omap].
    rewrite (Hf x) by (done || apply list_elem_of_here). done.
Qed.

Lemma filter_ext_elem {A} (P Q : A -> Prop) `{!forall x, Decision (P x)}
    `{!forall x, Decision (Q x)} (l : list A) :
  (forall x, x ∈ l -> P x <-> Q x) -> filter P l = filter Q l.
Proof.
  induction l as [|x l IH]; intros Hl; [done|].
  assert (IH' : filter P l = filter Q l).
  { apply IH. intros y Hy. apply Hl. by apply list_elem_of_further. }
  pose proof (Hl x (list_elem_of_here _ _)) as Hx.
  destruct (decide (P x)) as [HP|HP].
  - rewrite !filter_cons_True by tauto. by rewrite IH'.
  - rewrite !filter_cons_False by tauto. done.
Qed.

Lemma keys_filter_defined (o : props) :
  NoDup (keys o) ->
  keys (filter (fun p => defined p.2 = true) o)
  = filter (fun k => defined (getProp o k) = true) (keys o).
Proof.
  induction o as [|[k v] o IH]; intros Hnd; [done|].
  unfold keys in Hnd. cbn [map fst] in Hnd. apply NoDup_cons in Hnd as [Hk Hnd].
  assert (Hrest : filter (fun k' => defined (getProp ((k, v) :: o) k') = true) (keys o)
                  = filter (fun k' => defined (getProp o k') = true) (keys o)).
  { apply filter_ext_elem. intros k' Hk'.
    unfold getProp. cbn [getOwn].
    rewrite (proj2 (strEqb_false k k')) by (intros ->; done). done. }
  assert (Hhead : getProp ((k, v) :: o) k = v).
  { unfold getProp. cbn [getOwn]. by rewrite (proj2 (strEqb_true k k)). }
  unfold keys in *. cbn [map fst].
  destruct (defined v) eqn:Hv.
  - rewrite filter_cons_True by done.
    rewrite (filter_cons_True _ k) by (by rewrite Hhead).
    cbn [map fst]. by rewrite Hrest, IH.
  - rewrite filter_cons_False by (cbn; congruence).
    rewrite (filter_cons_False _ k) by (rewrite Hhead; congruence).
    by rewrite Hrest, IH.
Qed.

(** A property whose value is [undefined] is left out: the object is
    written as the object without such properties. *)
Theorem stableStringify_undefined (o : props) :
  NoDup (keys o) ->
  stableStringify (JObj o)
  = stableStringify (JObj (filter (fun p => defined p.2 = true) o)).
Proof.
  intros Hnd.
  assert (Hnd' : NoDup (keys (filter (fun p => defined p.2 = true) o))).
  { rewrite keys_filter_defined by done. by apply NoDup_filter. }
  rewrite (stableStringify_object o Hnd), (stableStringify_object _ Hnd').
  do 3 f_equal. f_equal.
  rewrite keys_filter_defined, codeOrder_filter by done.
  rewrite <- (omap_filter _ (fun k => defined (getProp o k) = true) (codeOrder (keys o))).
  - apply omap_ext_elem. intros k [Hk Hin]%list_elem_of_filter.
    apply codeOrder_elem in Hin.
    assert (E : getProp (filter (fun p => defined p.2 = true) o) k = getProp o k).
    { unfold getProp. destruct (getOwn o k) as [v|] eqn:Ev.
      - apply (getOwn_elem _ _ _ Hnd) in Ev as Hel.
        assert (Hel' : (k, v) ∈ filter (fun p => defined p.2 = true) o).
        { apply list_elem_of_filter. split; [|done]. cbn.
          unfold getProp in Hk. by rewrite Ev in Hk. }
        apply (getOwn_elem _ _ _ Hnd') in Hel'. by rewrite Hel'.
      - unfold getProp in Hk. by rewrite Ev in Hk. }
    by rewrite E.
  - intros k _ Hk. by destruct (getProp o k).
Qed.

Lemma stableStringify_undefined_witness :
  stableStringify (JObj [(js "a", JNum 1); (js "b", JUndefined); (js "c", JNum 3)])
  = Some (js "{" ++ quote (js "a") ++ js ":1," ++ quote (js "c") ++ js ":3}").
Proof.
  rewrite stableStringify_undefined.
  - vm_compute. reflexivity.
  - apply (bool_decide_unpack _). vm_compute. exact I.
Defined.
